(** * lib/heap/heap.c: the first-fit, coalescing free-list allocator

    A shallow embedding of [heap_insert_free_chunk], [heap_create_free_chunk],
    [heap_alloc], [heap_free] and [heap_init], and the properties of the
    allocator stated over it.

    Target: the 32-bit ARM the boot loader is built for (ILP32).  [size_t],
    [addr_t], [vaddr_t], [unsigned int] and pointers are all 32 bits wide;
    [heap_init] itself casts the region's addresses through [unsigned].
    Every C operation on them is written with its wrap-around modulo 2^32.

    The code is modelled as a build with DEBUG set: a failing DEBUG_ASSERT
    stops the operation ([None]).  On every run that returns [Some], the
    assertions held and a build without DEBUG behaves the same. *)

From Stdlib Require Import ZArith List Lia Bool Permutation.
Import ListNotations.
Local Open Scope Z_scope.

(** ** Machine arithmetic *)

Definition modulus : Z := 2 ^ 32.

(** The value an unsigned 32-bit object holds after a C operation whose
    mathematical result is [x]. *)
Definition wrap (x : Z) : Z := x mod modulus.

(** [~x] on an unsigned 32-bit operand. *)
Definition not32 (x : Z) : Z := wrap (Z.lnot x).

Definition in_range (x : Z) : Prop := 0 <= x < modulus.

(** [#define ROUNDUP(a, b) (((a) + ((b)-1)) & ~((b)-1))] *)
Definition ROUNDUP (a b : Z) : Z :=
  Z.land (wrap (a + wrap (b - 1))) (not32 (wrap (b - 1))).

(** [#define HEAP_MAGIC 'HEAP'] *)
Definition HEAP_MAGIC : Z := 0x48454150.

(** ** Layout *)

Definition sizeof_ptr : Z := 4.

(** Modelled from the spec: [struct list_node] is declared in <list.h>,
    which is missing from the sources; the spec has the head of a free chunk
    hold the "list linkage (prev/next)", two pointers. *)
Definition sizeof_list_node : Z := 2 * sizeof_ptr.

(** [struct free_heap_chunk { struct list_node node; size_t len; }] *)
Definition sizeof_free_heap_chunk : Z := sizeof_list_node + 4.
Definition off_len : Z := sizeof_list_node.

(** [struct alloc_struct_begin { unsigned int magic; void *ptr; size_t size; }] *)
Definition sizeof_alloc_struct_begin : Z := 4 + sizeof_ptr + 4.
Definition off_magic : Z := 0.
Definition off_ptr : Z := 4.
Definition off_size : Z := 4 + sizeof_ptr.

(** [struct heap { void *base; size_t len; struct list_node free_list; }],
    the static object [theheap] inside the image that ends at [_end]. *)
Definition sizeof_heap : Z := sizeof_ptr + 4 + sizeof_list_node.

(** ** Memory

    One store of 32-bit words for the whole address space, indexed by byte
    address.  The [len] field of every free chunk and the three fields of
    every allocation header live in it, so a write through one pointer is
    seen through every other pointer to the same address.  The region is
    word aligned and every size the allocator adds to an address is a
    multiple of the word size, so two words it touches are the same word or
    do not overlap. *)

Definition memory : Type := Z -> Z.

Definition load (m : memory) (a : Z) : Z := m a.

Definition store (m : memory) (a v : Z) : memory :=
  fun x => if x =? a then v else m x.

(** Address of the field at offset [off] of the object at [p]. *)
Definition field (p off : Z) : Z := wrap (p + off).

Definition chunk_len (m : memory) (chunk : Z) : Z := load m (field chunk off_len).

(** ** The free list

    Modelled from the spec: <list.h> ([struct list_node], [list_add_before],
    [list_add_tail], [list_delete], [list_next], [list_prev_type],
    [list_for_every_entry]) is missing from the sources.  The spec describes
    the free list as a doubly linked list of free chunks that is walked in
    list order, into which a chunk is inserted "immediately before N (or at
    the tail if N is null)" and from which a chunk is unlinked.  The list is
    the sequence of the addresses of its chunks in list order ([node] is the
    first member of a chunk, so a node and its chunk have one address); the
    [prev]/[next] words themselves are not kept in [memory].

    Where this parts from the code.  The link words of a listed chunk are
    its first two words.  A store of heap.c that lands on them breaks the
    list of the code and leaves the list kept here as it is; and a link
    word written over a word of [memory] is not seen here.  So the model
    stands for the code on the runs in which every allocation header is
    written clear of the first two words of every listed chunk
    ([header_off_nodes] below) and no pointer is given back whose magic word
    a list node has meanwhile covered (a pointer given back twice whose
    header starts its span).  Every run of requests that do not wrap is such
    a run, and so are the runs the properties below evaluate. *)

Fixpoint list_add_before (l : list Z) (entry item : Z) : list Z :=
  match l with
  | [] => []
  | x :: l' =>
      if x =? entry then item :: x :: l'
      else x :: list_add_before l' entry item
  end.

Definition list_add_tail (l : list Z) (item : Z) : list Z := l ++ [item].

Fixpoint list_delete (l : list Z) (item : Z) : list Z :=
  match l with
  | [] => []
  | x :: l' => if x =? item then l' else x :: list_delete l' item
  end.

(** [list_next]: the node after [item], [None] (NULL) when [item] is last. *)
Fixpoint list_next (l : list Z) (item : Z) : option Z :=
  match l with
  | [] => None
  | x :: l' => if x =? item then hd_error l' else list_next l' item
  end.

Fixpoint list_prev_from (before : option Z) (l : list Z) (item : Z) : option Z :=
  match l with
  | [] => None
  | x :: l' => if x =? item then before else list_prev_from (Some x) l' item
  end.

(** [list_prev_type]: the chunk before [item], [None] (NULL) when [item] is
    first. *)
Definition list_prev (l : list Z) (item : Z) : option Z :=
  list_prev_from None l item.

(** ** Allocator state *)

Record heap : Type := mkheap {
  base : Z;
  len : Z;
  free_list : list Z
}.

Record state : Type := mkstate {
  theheap : heap;
  mem : memory
}.

Definition set_free_list (st : state) (l : list Z) : state :=
  mkstate (mkheap (base (theheap st)) (len (theheap st)) l) (mem st).

Definition set_mem (st : state) (m : memory) : state :=
  mkstate (theheap st) m.

Definition flist (st : state) : list Z := free_list (theheap st).

(** [chunk->len = v] *)
Definition set_chunk_len (st : state) (chunk v : Z) : state :=
  set_mem st (store (mem st) (field chunk off_len) v).

(** The free list as the chunks it holds: address and [len] field. *)
Definition chunks (st : state) : list (Z * Z) :=
  map (fun c => (c, chunk_len (mem st) c)) (flist st).

(** ** heap_create_free_chunk *)

Definition heap_create_free_chunk (st : state) (ptr len : Z) : option (Z * state) :=
  if len mod sizeof_ptr =? 0 then Some (ptr, set_chunk_len st ptr len)
  else None.

(** ** heap_insert_free_chunk *)

(** The walk of [list_for_every_entry]: the first [next_chunk] with
    [chunk < next_chunk].  When the walk runs off the end there is none (the
    spec's "if none, N is null").  Should the macro leave the container of
    the list head in [next_chunk] instead, line 176 compares the end of the
    chunk with the address of [theheap.free_list]; that address lies in the
    image, below [_end] and so below the end of every chunk, and nothing is
    merged either. *)
Fixpoint find_insert_before (l : list Z) (chunk : Z) : option Z :=
  match l with
  | [] => None
  | next_chunk :: l' =>
      if chunk <? next_chunk then Some next_chunk
      else find_insert_before l' chunk
  end.

(** [try_merge:] with the previous chunk. *)
Definition merge_prev (st : state) (chunk : Z) : Z * state :=
  match list_prev (flist st) chunk with
  | Some last_chunk =>
      if wrap (last_chunk + chunk_len (mem st) last_chunk) =? chunk then
        let st1 := set_chunk_len st last_chunk
                     (wrap (chunk_len (mem st) last_chunk + chunk_len (mem st) chunk)) in
        let st2 := set_free_list st1 (list_delete (flist st1) chunk) in
        (last_chunk, st2)
      else (chunk, st)
  | None => (chunk, st)
  end.

(** ... and with the next chunk. *)
Definition merge_next (st : state) (chunk : Z) (next_chunk : option Z) : state :=
  match next_chunk with
  | Some next =>
      if wrap (chunk + chunk_len (mem st) chunk) =? next then
        let st1 := set_chunk_len st chunk
                     (wrap (chunk_len (mem st) chunk + chunk_len (mem st) next)) in
        set_free_list st1 (list_delete (flist st1) next)
      else st
  | None => st
  end.

Definition heap_insert_free_chunk (st : state) (chunk : Z) : option (Z * state) :=
  let chunk_end := wrap (chunk + chunk_len (mem st) chunk) in
  let next_chunk := find_insert_before (flist st) chunk in
  let inserted :=
    match next_chunk with
    | Some next =>
        if chunk_end <=? next
        then Some (set_free_list st (list_add_before (flist st) next chunk))
        else None
    | None => Some (set_free_list st (list_add_tail (flist st) chunk))
    end in
  match inserted with
  | Some st1 =>
      let '(chunk', st2) := merge_prev st1 chunk in
      Some (chunk', merge_next st2 chunk' next_chunk)
  | None => None
  end.

(** ** heap_alloc

    [enter_critical_section] and [exit_critical_section] bracket the walk;
    they do not touch the heap and are left out. *)

(** [if (alignment & (alignment - 1)) return NULL;] *)
Definition bad_alignment (alignment : Z) : bool :=
  negb (Z.land alignment (wrap (alignment - 1)) =? 0).

(** Lines 209-227: the size and the alignment the walk is run with. *)
Definition normalize (size alignment : Z) : Z * Z :=
  let size := wrap (size + sizeof_alloc_struct_begin) in
  let size := if size <? sizeof_free_heap_chunk then sizeof_free_heap_chunk else size in
  let size := ROUNDUP size sizeof_ptr in
  if alignment >? 0 then
    let alignment := if alignment <? 16 then 16 else alignment in
    (wrap (size + alignment), alignment)
  else (size, alignment).

(** Lines 243-262: unlink [chunk], split it when it is large enough, and
    the length of the allocated span. *)
Definition alloc_split (st : state) (size chunk : Z) : option (Z * state) :=
  let next_node := list_next (flist st) chunk in
  let st1 := set_free_list st (list_delete (flist st) chunk) in
  let carved :=
    if chunk_len (mem st1) chunk >? wrap (size + sizeof_free_heap_chunk) then
      match heap_create_free_chunk st1 (wrap (chunk + size))
              (wrap (chunk_len (mem st1) chunk - size)) with
      | Some (newchunk, st2) =>
          let st3 := set_chunk_len st2 chunk
                       (wrap (chunk_len (mem st2) chunk
                              - wrap (chunk_len (mem st2) chunk - size))) in
          Some (match next_node with
                | Some n => set_free_list st3 (list_add_before (flist st3) n newchunk)
                | None => set_free_list st3 (list_add_tail (flist st3) newchunk)
                end)
      | None => None
      end
    else Some st1 in
  match carved with
  | Some st4 =>
      if size <=? chunk_len (mem st4) chunk
      then Some (chunk_len (mem st4) chunk, st4)
      else None
  | None => None
  end.

(** Lines 264-275: the user pointer and the allocation header before it.
    The three stores go to [memory]; should the header lie over the first
    two words of a listed chunk (a wrapped request with an alignment can put
    it there), the code overwrites that chunk's list node as well, which the
    list kept here does not show. *)
Definition alloc_finish (st : state) (size alignment chunk : Z) : Z * state :=
  let ptr := wrap (chunk + sizeof_alloc_struct_begin) in
  let ptr := if alignment >? 0 then ROUNDUP ptr alignment else ptr in
  let as_ := wrap (ptr - sizeof_alloc_struct_begin) in
  let m1 := store (mem st) (field as_ off_magic) HEAP_MAGIC in
  let m2 := store m1 (field as_ off_ptr) chunk in
  let m3 := store m2 (field as_ off_size) size in
  (ptr, set_mem st m3).

(** The body of the [if (chunk->len >= size)] at line 239. *)
Definition alloc_take (st : state) (size alignment chunk : Z) : option (Z * state) :=
  match alloc_split st size chunk with
  | Some (size', st') => Some (alloc_finish st' size' alignment chunk)
  | None => None
  end.

(** The walk of lines 233-279 over the chunks still to visit. *)
Fixpoint alloc_walk (st : state) (size alignment : Z) (l : list Z) : option (Z * state) :=
  match l with
  | [] => Some (0, st)
  | chunk :: l' =>
      if chunk_len (mem st) chunk mod sizeof_ptr =? 0 then
        if size <=? chunk_len (mem st) chunk
        then alloc_take st size alignment chunk
        else alloc_walk st size alignment l'
      else None
  end.

Definition heap_alloc (st : state) (size alignment : Z) : option (Z * state) :=
  if bad_alignment alignment then Some (0, st)
  else
    let '(size, alignment) := normalize size alignment in
    alloc_walk st size alignment (flist st).

(** ** heap_free

    The magic word is read from [memory].  A list node that the code has
    written over it since (the node of the freed span, when the header
    starts the span) is not in [memory]: for such a pointer, given back a
    second time, the DEBUG_ASSERT of line 301 fails in the code and passes
    here. *)

Definition heap_free (st : state) (ptr : Z) : option state :=
  if ptr =? 0 then Some st
  else
    let as_ := wrap (ptr - sizeof_alloc_struct_begin) in
    if load (mem st) (field as_ off_magic) =? HEAP_MAGIC then
      match heap_create_free_chunk st (load (mem st) (field as_ off_ptr))
              (load (mem st) (field as_ off_size)) with
      | Some (chunk, st1) =>
          match heap_insert_free_chunk st1 chunk with
          | Some (_, st2) => Some st2
          | None => None
          end
      | None => None
      end
    else None.

(** ** heap_init

    [_end] and [_end_of_ram] are the addresses of the two linker symbols;
    [m] is whatever the memory holds when the allocator starts. *)

Definition heap_init (_end _end_of_ram : Z) (m : memory) : option state :=
  let st := mkstate (mkheap _end (wrap (_end_of_ram - _end)) []) m in
  match heap_create_free_chunk st (base (theheap st)) (len (theheap st)) with
  | Some (chunk, st1) =>
      match heap_insert_free_chunk st1 chunk with
      | Some (_, st2) => Some st2
      | None => None
      end
  | None => None
  end.

(** ** Clients

    A client keeps the pointers it was given.  [op_alloc] asks for a block
    and keeps the pointer when it is not NULL; [op_free i] gives back the
    [i]-th pointer it holds (and does nothing when it holds fewer). *)

Inductive op : Type :=
| op_alloc (size alignment : Z)
| op_free (i : nat).

Fixpoint remove_nth {A : Type} (i : nat) (l : list A) : list A :=
  match l, i with
  | [], _ => []
  | _ :: l', O => l'
  | x :: l', S i' => x :: remove_nth i' l'
  end.

Definition step (st : state) (live : list Z) (o : op) : option (state * list Z) :=
  match o with
  | op_alloc size alignment =>
      match heap_alloc st size alignment with
      | Some (ptr, st') => Some (st', if ptr =? 0 then live else live ++ [ptr])
      | None => None
      end
  | op_free i =>
      match nth_error live i with
      | Some ptr =>
          match heap_free st ptr with
          | Some st' => Some (st', remove_nth i live)
          | None => None
          end
      | None => Some (st, live)
      end
  end.

Fixpoint run (st : state) (live : list Z) (ops : list op) : option (state * list Z) :=
  match ops with
  | [] => Some (st, live)
  | o :: ops' =>
      match step st live o with
      | Some (st', live') => run st' live' ops'
      | None => None
      end
  end.

(** The allocation header in front of a user pointer. *)
Definition hdr_magic (m : memory) (ptr : Z) : Z :=
  load m (field (wrap (ptr - sizeof_alloc_struct_begin)) off_magic).
Definition hdr_ptr (m : memory) (ptr : Z) : Z :=
  load m (field (wrap (ptr - sizeof_alloc_struct_begin)) off_ptr).
Definition hdr_size (m : memory) (ptr : Z) : Z :=
  load m (field (wrap (ptr - sizeof_alloc_struct_begin)) off_size).


(** ** heap_test

    The test routine.  [rand] is declared in <rand.h>, outside these
    sources, and nothing is assumed of the numbers it returns: [rand k]
    stands for the result of its [k]-th call, and [(unsigned int)rand()] is
    [wrap (rand k)].  The array [ptr] of 16 pointers starts with whatever
    the stack holds.  [dprintf] and [heap_dump] only print and are left
    out.  A DEBUG_ASSERT that fails, in the test or in the allocator, gives
    [None]. *)

(** [ptr[index]] *)
Definition get_ptr (ptr : list Z) (index : nat) : Z := nth index ptr 0.

(** [ptr[index] = v] *)
Fixpoint set_ptr (ptr : list Z) (index : nat) (v : Z) : list Z :=
  match ptr, index with
  | [], _ => []
  | _ :: ptr', O => v :: ptr'
  | x :: ptr', S i => x :: set_ptr ptr' i v
  end.

Definition and_then {A B : Type} (x : option A) (f : A -> option B) : option B :=
  match x with
  | Some a => f a
  | None => None
  end.

(** [ptr[index] = heap_alloc(size, alignment);] *)
Definition test_alloc (size alignment : Z) (index : nat) (s : state * list Z)
  : option (state * list Z) :=
  match heap_alloc (fst s) size alignment with
  | Some (p, st') => Some (st', set_ptr (snd s) index p)
  | None => None
  end.

(** [heap_free(ptr[index]);] *)
Definition test_free (index : nat) (s : state * list Z) : option (state * list Z) :=
  match heap_free (fst s) (get_ptr (snd s) index) with
  | Some st' => Some (st', snd s)
  | None => None
  end.

(** Statements one after the other. *)
Fixpoint test_steps (steps : list (state * list Z -> option (state * list Z)))
         (s : state * list Z) : option (state * list Z) :=
  match steps with
  | [] => Some s
  | f :: steps' => and_then (f s) (test_steps steps')
  end.

(** Lines 82-94: six blocks, given back in another order. *)
Definition test_fixed : list (state * list Z -> option (state * list Z)) :=
  [test_alloc 8 0 0; test_alloc 32 0 1; test_alloc 7 0 2; test_alloc 0 0 3;
   test_alloc 98713 0 4; test_alloc 16 0 5;
   test_free 5; test_free 1; test_free 3; test_free 0; test_free 4; test_free 2].

(** Lines 103-118, the body of the loop in its pass [i]: the three calls
    of [rand] in this pass are the calls [3 * i], [3 * i + 1] and
    [3 * i + 2]. *)
Definition test_round (rand : nat -> Z) (i : nat) (s : state * list Z)
  : option (state * list Z) :=
  let index := Z.to_nat (wrap (rand (3 * i)%nat) mod 16) in
  let freed :=
    if get_ptr (snd s) index =? 0 then Some s
    else and_then (test_free index s)
           (fun s1 => Some (fst s1, set_ptr (snd s1) index 0)) in
  and_then freed (fun s1 =>
    let align := Z.shiftl 1 (wrap (rand (3 * i + 1)%nat) mod 8) in
    and_then (test_alloc (wrap (rand (3 * i + 2)%nat) mod 32768) align index s1)
      (fun s2 => if get_ptr (snd s2) index mod align =? 0 then Some s2 else None)).

(** [n] passes of the loop from pass [i] on. *)
Fixpoint test_rounds (rand : nat -> Z) (n i : nat) (s : state * list Z)
  : option (state * list Z) :=
  match n with
  | O => Some s
  | S n' => and_then (test_round rand i s) (test_rounds rand n' (S i))
  end.

(** Lines 122-125: [if (ptr[i]) heap_free(ptr[i]);] for every slot in
    turn. *)
Fixpoint test_free_all (st : state) (ptr : list Z) : option state :=
  match ptr with
  | [] => Some st
  | p :: ptr' =>
      and_then (if p =? 0 then Some st else heap_free st p)
        (fun st' => test_free_all st' ptr')
  end.

Definition heap_test (rand : nat -> Z) (ptr : list Z) (st : state) : option state :=
  and_then (test_steps test_fixed (st, ptr)) (fun s =>
  and_then (test_rounds rand (Z.to_nat 32768) 0 (fst s, map (fun _ => 0) (snd s)))
    (fun s' => test_free_all (fst s') (snd s'))).
(** ** Notions used by the properties *)

(** The size computation in the words of the specification: add the
    allocation header, raise to the size of a free chunk header, round up to
    a multiple of the pointer size and, for a nonzero alignment, add the
    alignment clamped to at least 16; every step in [size_t]. *)
Definition round_up_to_multiple (x k : Z) : Z := (x + k - 1) / k * k.

Definition clamped_alignment (alignment : Z) : Z :=
  if alignment =? 0 then 0 else Z.max alignment 16.

Definition normalized_size (size alignment : Z) : Z :=
  let added := wrap (size + sizeof_alloc_struct_begin) in
  let raised := Z.max added sizeof_free_heap_chunk in
  let rounded := wrap (round_up_to_multiple raised sizeof_ptr) in
  if alignment =? 0 then rounded else wrap (rounded + Z.max alignment 16).

(** The same without any wrap-around. *)
Definition exact_size (size alignment : Z) : Z :=
  round_up_to_multiple (Z.max (size + sizeof_alloc_struct_begin) sizeof_free_heap_chunk)
    sizeof_ptr
  + clamped_alignment alignment.

(** A request whose normalized size is computed without wrap-around. *)
Definition request_fits (size alignment : Z) : Prop :=
  in_range size /\ in_range alignment /\ exact_size size alignment < modulus.

(** The pointer handed to the caller for a span that starts at [chunk]. *)
Definition user_ptr (alignment chunk : Z) : Z :=
  let ptr := wrap (chunk + sizeof_alloc_struct_begin) in
  if alignment >? 0 then ROUNDUP ptr alignment else ptr.

(** A chunk the walk of [heap_alloc] passes over: its [len] is a multiple of
    the pointer size (the DEBUG_ASSERT of line 236) and less than [size]. *)
Definition too_small (st : state) (size : Z) (c : Z) : Prop :=
  chunk_len (mem st) c mod sizeof_ptr = 0 /\ chunk_len (mem st) c < size.

(** A heap of one 4 KiB chunk at 0x100008, as [heap_init] leaves it. *)
Definition zero_memory : memory := fun _ => 0.

Definition fresh_heap : state :=
  mkstate (mkheap 0x100008 0x1000 [0x100008])
          (store zero_memory (field 0x100008 off_len) 0x1000).

(** A heap whose free list holds a 16-byte chunk and then a 256-byte one. *)
Definition two_chunk_heap : state :=
  mkstate (mkheap 0x100008 0x1000 [0x100008; 0x100100])
          (store (store zero_memory (field 0x100008 off_len) 16)
                 (field 0x100100 off_len) 0x100).


(** ** Well-formed heaps *)

(** The managed region: it starts after the image (which holds [theheap]),
    is word aligned and ends at an address, [_end_of_ram], of the 32-bit
    address space. *)
Definition region_ok (h : heap) : Prop :=
  sizeof_heap <= base h /\ base h mod sizeof_ptr = 0
  /\ 0 <= len h /\ len h mod sizeof_ptr = 0
  /\ base h + len h < modulus.

(** A span [(b, l)]: [l] bytes from address [b]. *)
Definition span_ok (h : heap) (s : Z * Z) : Prop :=
  fst s mod sizeof_ptr = 0 /\ snd s mod sizeof_ptr = 0
  /\ sizeof_free_heap_chunk <= snd s
  /\ base h <= fst s /\ fst s + snd s <= base h + len h.

(** Strictly ascending addresses, and no chunk ends where the next begins
    or beyond. *)
Fixpoint ascending_apart (cs : list (Z * Z)) : Prop :=
  match cs with
  | c1 :: (c2 :: _) as rest =>
      fst c1 < fst c2 /\ fst c1 + snd c1 < fst c2 /\ ascending_apart rest
  | _ => True
  end.

Definition free_list_ok (st : state) : Prop :=
  region_ok (theheap st)
  /\ Forall (span_ok (theheap st)) (chunks st)
  /\ ascending_apart (chunks st).

(** The span an allocation header records for the user pointer [p]. *)
Definition span_of (m : memory) (p : Z) : Z * Z := (hdr_ptr m p, hdr_size m p).

Definition spans (st : state) (live : list Z) : list (Z * Z) :=
  map (span_of (mem st)) live.

Definition disjoint (s t : Z * Z) : Prop :=
  fst s + snd s <= fst t \/ fst t + snd t <= fst s.

Fixpoint total (ss : list (Z * Z)) : Z :=
  match ss with
  | [] => 0
  | s :: ss' => snd s + total ss'
  end.

(** The heap and the spans handed out: well-formed free chunks in
    ascending order with gaps, well-formed spans, nothing overlapping, and
    together as long as the region. *)
Definition tiling_ok (h : heap) (cs ls : list (Z * Z)) : Prop :=
  region_ok h
  /\ Forall (span_ok h) cs /\ ascending_apart cs
  /\ Forall (span_ok h) ls
  /\ Forall (fun c => Forall (disjoint c) ls) cs
  /\ ForallOrdPairs disjoint ls
  /\ total cs + total ls = len h.

(** The header in front of a pointer the client holds: the magic word, and
    a span that holds the header and reaches the pointer. *)
Definition hdr_ok (m : memory) (p : Z) : Prop :=
  hdr_magic m p = HEAP_MAGIC
  /\ p mod sizeof_ptr = 0
  /\ hdr_ptr m p + sizeof_alloc_struct_begin <= p
  /\ p <= hdr_ptr m p + hdr_size m p.

(** The heap together with the pointers its client holds. *)
Definition heap_inv (st : state) (live : list Z) : Prop :=
  tiling_ok (theheap st) (chunks st) (spans st live)
  /\ Forall (hdr_ok (mem st)) live.

(** Chunks in list order, each starting above [lim] and above the end of
    the one before. *)
Fixpoint gapped (lim : Z) (cs : list (Z * Z)) : Prop :=
  match cs with
  | [] => True
  | c :: cs' => lim < fst c /\ gapped (fst c + snd c) cs'
  end.

(** The end of the last chunk, [lim] for no chunk. *)
Fixpoint last_end (lim : Z) (cs : list (Z * Z)) : Z :=
  match cs with
  | [] => lim
  | c :: cs' => last_end (fst c + snd c) cs'
  end.

(** An operation of a run whose requests do not wrap: an [op_alloc] has a
    bad alignment (and is turned down at once) or asks for a size that
    normalizes without wrap-around. *)
Definition op_fits (o : op) : Prop :=
  match o with
  | op_alloc size alignment =>
      bad_alignment alignment = true \/ request_fits size alignment
  | op_free _ => True
  end.

(** ** Sample heaps *)

(** A heap of 1 MiB in the upper half of the address space, as [heap_init]
    leaves it. *)
Definition high_heap : state :=
  mkstate (mkheap 0x80100000 0x100000 [0x80100000])
          (store zero_memory (field 0x80100000 off_len) 0x100000).

(** ** Runs from heap_init *)

Definition run_from (_end _end_of_ram : Z) (m : memory) (ops : list op)
  : option (state * list Z) :=
  match heap_init _end _end_of_ram m with
  | Some st => run st [] ops
  | None => None
  end.

(** What can be seen of a heap and its client: the free chunks, the
    pointers held and the spans their headers record. *)
Definition observe (r : option (state * list Z))
  : option (list (Z * Z) * list Z * list (Z * Z)) :=
  match r with
  | Some (st, live) => Some (chunks st, live, spans st live)
  | None => None
  end.

(** ** Frames *)

(** [m'] differs from [m] at most at addresses in [lo, hi). *)
Definition unchanged_outside (lo hi : Z) (m m' : memory) : Prop :=
  forall x, x < lo \/ hi <= x -> load m' x = load m x.

(** A span that lies wholly outside [lo, hi). *)
Definition outside (lo hi : Z) (s : Z * Z) : Prop :=
  fst s + snd s <= lo \/ hi <= fst s.

(** The user pointer of a span [(S, size)] for a request of [n] bytes. *)
Definition ptr_in_span (n p : Z) (s : Z * Z) : Prop :=
  fst s + sizeof_alloc_struct_begin <= p /\ p + n <= fst s + snd s.

(** ** Coalescing

    What [heap_insert_free_chunk] makes of the free chunks [cs] and a span
    [s] that overlaps none of them: [s] goes between the chunks below it and
    the chunks above it, absorbs the chunk that ends where it starts, and
    then the chunk that starts where it ends. *)
Definition coalesced (cs : list (Z * Z)) (s : Z * Z)
           (cpre' : list (Z * Z)) (s2 : Z * Z) (cpost' : list (Z * Z)) : Prop :=
  exists cpre cpost s1,
    cs = cpre ++ cpost
    /\ Forall (fun c => fst c + snd c <= fst s) cpre
    /\ Forall (fun c => fst s + snd s <= fst c) cpost
    /\ ((cpre' = cpre /\ s1 = s
         /\ forall cpre0 P, cpre = cpre0 ++ [P] -> fst P + snd P <> fst s)
        \/ (exists P, cpre = cpre' ++ [P] /\ fst P + snd P = fst s
                      /\ s1 = (fst P, snd P + snd s)))
    /\ ((cpost' = cpost /\ s2 = s1
         /\ forall N cpost0, cpost = N :: cpost0 -> fst s1 + snd s1 <> fst N)
        \/ (exists N, cpost = N :: cpost' /\ fst s1 + snd s1 = fst N
                      /\ s2 = (fst s1, snd s1 + snd N))).

(** The two linker symbols [heap_init] reads: [_end] lies after the image,
    both are word aligned, the region between them holds at least one free
    chunk header. *)
Definition symbols_ok (_end _end_of_ram : Z) : Prop :=
  sizeof_heap <= _end /\ _end mod sizeof_ptr = 0 /\ _end_of_ram mod sizeof_ptr = 0
  /\ _end + sizeof_free_heap_chunk <= _end_of_ram /\ _end_of_ram < modulus.

(** ** Points and blocks *)

(** The address [x] lies in one of the spans [ss]. *)
Definition covers (ss : list (Z * Z)) (x : Z) : Prop :=
  Exists (fun s => fst s <= x < fst s + snd s) ss.

(** No word of the span that the header of [q] records differs between [m]
    and [m']. *)
Definition block_untouched (m m' : memory) (q : Z) : Prop :=
  forall x, hdr_ptr m q <= x < hdr_ptr m q + hdr_size m q -> load m' x = load m x.

(** The pointers an array of pointers holds: its slots that are not NULL. *)
Definition live_of (ptr : list Z) : list Z := filter (fun p => negb (p =? 0)) ptr.

(** ** Sample runs *)

(** The heap a run ends with, and the pointers its client then holds. *)
Definition state_of (r : option (state * list Z)) : state :=
  match r with
  | Some (st, _) => st
  | None => fresh_heap
  end.

Definition held_of (r : option (state * list Z)) : list Z :=
  match r with
  | Some (_, live) => live
  | None => []
  end.

(** [heap_init] over [0x100008, 0x101008), then [heap_alloc(8, 0)], which
    returns 0x100014, and [heap_alloc(32, 16)], which returns 0x100030. *)
Definition two_blocks : option (state * list Z) :=
  run_from 0x100008 0x101008 zero_memory [op_alloc 8 0; op_alloc 32 16].

(** Three blocks of 20 bytes at 0x100008, 0x10001C and 0x100030, of which
    the first and the third are given back: the block in the middle lies
    between two free chunks. *)
Definition hole_filled : option (state * list Z) :=
  run_from 0x100008 0x101008 zero_memory
    [op_alloc 8 0; op_alloc 8 0; op_alloc 8 0; op_free 0; op_free 1].

(** ** Headers and list nodes *)

(** The allocation header in front of [p], the words of [p - 12, p), lies
    on no link word of a chunk of the free list, the words of [c, c + 8).
    The stores of lines 273-275 then change no list node, and the list of
    the model is the list of the code. *)
Definition header_off_nodes (st : state) (p : Z) : bool :=
  forallb (fun c => (p <=? c)
                    || (c + sizeof_list_node <=? p - sizeof_alloc_struct_begin))
          (flist st).
(** * Properties *)

(** ** Arithmetic of the 32-bit operations *)

Lemma modulus_eq : modulus = 4294967296.
Proof. reflexivity. Qed.

Ltac unfold_sizes :=
  unfold sizeof_heap, sizeof_alloc_struct_begin, sizeof_free_heap_chunk, off_len,
    off_magic, off_ptr, off_size, sizeof_list_node, sizeof_ptr in *.

Ltac word_arith :=
  unfold_sizes; unfold round_up_to_multiple, in_range, wrap in *;
  rewrite ?modulus_eq in *; Z.to_euclidean_division_equations; lia.

Lemma wrap_small (x : Z) : in_range x -> wrap x = x.
Proof. unfold in_range, wrap. intros H. apply Z.mod_small. exact H. Qed.

Lemma wrap_range (x : Z) : in_range (wrap x).
Proof. unfold in_range, wrap. apply Z.mod_pos_bound. reflexivity. Qed.

Lemma wrap_add_l (x y : Z) : wrap (wrap x + y) = wrap (x + y).
Proof. unfold wrap. apply Zplus_mod_idemp_l. Qed.

Lemma wrap_add_r (x y : Z) : wrap (x + wrap y) = wrap (x + y).
Proof. unfold wrap. apply Zplus_mod_idemp_r. Qed.

Lemma pow2_range (k : Z) : 0 <= k < 32 -> 1 <= 2 ^ k /\ 2 ^ k <= 2 ^ 31.
Proof.
  intros Hk. split.
  - assert (0 < 2 ^ k) by (apply Z.pow_pos_nonneg; lia). lia.
  - apply Z.pow_le_mono_r; lia.
Qed.

(** Masking with [~(2^k - 1)] clears the low [k] bits. *)
Lemma land_not32_ones (x k : Z) :
  in_range x -> 0 <= k <= 32 ->
  Z.land x (not32 (2 ^ k - 1)) = x / 2 ^ k * 2 ^ k.
Proof.
  intros Hx Hk. unfold not32, wrap, modulus.
  rewrite <- Z.land_ones by lia.
  rewrite Z.land_assoc.
  replace (Z.land x (Z.lnot (2 ^ k - 1))) with (Z.ldiff x (Z.ones k)).
  - rewrite Z.ldiff_ones_r by lia.
    rewrite Z.shiftl_mul_pow2, Z.shiftr_div_pow2 by lia.
    rewrite Z.land_ones by lia.
    apply Z.mod_small.
    assert (0 < 2 ^ k) by (apply Z.pow_pos_nonneg; lia).
    unfold in_range, modulus in Hx.
    pose proof (Z.mul_div_le x (2 ^ k) ltac:(lia)).
    assert (0 <= x / 2 ^ k) by (apply Z.div_pos; lia).
    nia.
  - rewrite Z.ldiff_land. f_equal. f_equal.
    rewrite Z.ones_equiv. lia.
Qed.

Lemma ROUNDUP_pow2 (a k : Z) :
  0 <= k < 32 ->
  ROUNDUP a (2 ^ k) = wrap (a + 2 ^ k - 1) / 2 ^ k * 2 ^ k.
Proof.
  intros Hk. unfold ROUNDUP.
  pose proof (pow2_range k Hk) as [H1 H2].
  assert (Hs : wrap (2 ^ k - 1) = 2 ^ k - 1).
  { apply wrap_small. unfold in_range, modulus.
    change (2 ^ 31) with 2147483648 in H2. change (2 ^ 32) with 4294967296. lia. }
  rewrite Hs, land_not32_ones by (auto using wrap_range; lia).
  do 2 f_equal. f_equal. lia.
Qed.

Lemma ROUNDUP_divide (a k : Z) :
  0 <= k < 32 -> ROUNDUP a (2 ^ k) mod 2 ^ k = 0.
Proof.
  intros Hk. rewrite ROUNDUP_pow2 by exact Hk.
  apply Z.mod_mul. pose proof (pow2_range k Hk). lia.
Qed.

(** Without wrap-around [ROUNDUP] is the least multiple of [2^k] that is at
    least [a]. *)
Lemma ROUNDUP_bounds (a k : Z) :
  0 <= k < 32 -> 0 <= a -> a + 2 ^ k - 1 < modulus ->
  a <= ROUNDUP a (2 ^ k) <= a + 2 ^ k - 1.
Proof.
  intros Hk Ha Hlt. rewrite ROUNDUP_pow2 by exact Hk.
  pose proof (pow2_range k Hk) as [H1 _].
  rewrite wrap_small by (unfold in_range; lia).
  pose proof (Z.mul_div_le (a + 2 ^ k - 1) (2 ^ k) ltac:(lia)).
  pose proof (Z.mul_succ_div_gt (a + 2 ^ k - 1) (2 ^ k) ltac:(lia)).
  nia.
Qed.

Lemma land_range (x y : Z) : in_range x -> in_range (Z.land x y).
Proof.
  intros Hx.
  assert (E : Z.land x y = wrap (Z.land x y)).
  { unfold wrap, modulus. rewrite <- Z.land_ones by lia.
    rewrite <- Z.land_assoc, (Z.land_comm y), Z.land_assoc.
    rewrite (Z.land_ones x) by lia.
    rewrite Z.mod_small by exact Hx. reflexivity. }
  rewrite E. apply wrap_range.
Qed.

Lemma ROUNDUP_range (a b : Z) : in_range (ROUNDUP a b).
Proof. unfold ROUNDUP. apply land_range, wrap_range. Qed.

(** [alignment & (alignment - 1)] is zero exactly for zero and the powers
    of two. *)
Lemma bad_alignment_pow2 (k : Z) : 0 <= k < 32 -> bad_alignment (2 ^ k) = false.
Proof.
  intros Hk. unfold bad_alignment.
  pose proof (pow2_range k Hk) as [H1 H2].
  change (2 ^ 31) with 2147483648 in H2.
  rewrite wrap_small by (unfold in_range; rewrite modulus_eq; lia).
  replace (2 ^ k - 1) with (Z.ones k) by (rewrite Z.ones_equiv; lia).
  rewrite Z.land_ones by lia.
  rewrite Z.mod_same by lia. reflexivity.
Qed.

Lemma bad_alignment_zero : bad_alignment 0 = false.
Proof. reflexivity. Qed.

Lemma bad_alignment_false (a : Z) :
  in_range a -> bad_alignment a = false ->
  a = 0 \/ exists k, 0 <= k < 32 /\ a = 2 ^ k.
Proof.
  intros Ha Hb. destruct (Z.eq_dec a 0) as [->|Hnz]; [left; reflexivity|right].
  unfold in_range in Ha. rewrite modulus_eq in Ha.
  exists (Z.log2 a).
  assert (Hpos : 0 < a) by lia.
  pose proof (Z.log2_spec a Hpos) as [Hlo Hhi].
  assert (Hk : 0 <= Z.log2 a < 32).
  { split; [apply Z.log2_nonneg|].
    apply Z.log2_lt_pow2; [lia|]. change (2 ^ 32) with 4294967296. lia. }
  split; [exact Hk|].
  destruct (Z.eq_dec a (2 ^ Z.log2 a)) as [E|NE]; [exact E|exfalso].
  unfold bad_alignment in Hb. apply negb_false_iff, Z.eqb_eq in Hb.
  rewrite wrap_small in Hb by (unfold in_range; rewrite modulus_eq; lia).
  assert (Hbit : Z.testbit (Z.land a (a - 1)) (Z.log2 a) = true).
  { rewrite Z.land_spec, Z.bit_log2 by lia. simpl.
    assert (Hl : Z.log2 (a - 1) = Z.log2 a).
    { apply Z.log2_unique; lia. }
    rewrite <- Hl. apply Z.bit_log2. lia. }
  rewrite Hb, Z.bits_0 in Hbit. discriminate.
Qed.

(** ** Normalization of the request *)

Lemma ROUNDUP_ptr (x : Z) :
  in_range x -> ROUNDUP x sizeof_ptr = wrap (round_up_to_multiple x sizeof_ptr).
Proof.
  intros Hx. change sizeof_ptr with (2 ^ 2) at 1.
  rewrite ROUNDUP_pow2 by lia. change (2 ^ 2) with 4. word_arith.
Qed.

Lemma normalize_eq (size alignment : Z) :
  in_range alignment ->
  normalize size alignment = (normalized_size size alignment, clamped_alignment alignment).
Proof.
  intros Ha. unfold normalize, normalized_size, clamped_alignment.
  set (added := wrap (size + sizeof_alloc_struct_begin)).
  assert (Hadd : in_range added) by apply wrap_range.
  clearbody added.
  assert (Hraised : (if added <? sizeof_free_heap_chunk
                     then sizeof_free_heap_chunk else added)
                    = Z.max added sizeof_free_heap_chunk).
  { destruct (Z.ltb_spec added sizeof_free_heap_chunk); unfold_sizes; lia. }
  rewrite Hraised.
  rewrite ROUNDUP_ptr by (clear Hraised; unfold in_range in *; rewrite modulus_eq in *; unfold_sizes; lia).
  unfold in_range in Ha.
  destruct (Z.eqb_spec alignment 0) as [->|Hnz]; [reflexivity|].
  destruct (Z.gtb_spec alignment 0); [|lia].
  destruct (Z.ltb_spec alignment 16).
  - rewrite (Z.max_r alignment 16) by lia. reflexivity.
  - rewrite (Z.max_l alignment 16) by lia. reflexivity.
Qed.

Lemma normalized_size_exact (size alignment : Z) :
  request_fits size alignment ->
  normalized_size size alignment = exact_size size alignment.
Proof.
  unfold request_fits, normalized_size, exact_size, clamped_alignment.
  intros (Hs & Ha & Hfit).
  destruct (Z.eqb_spec alignment 0) as [->|Hnz]; word_arith.
Qed.

Lemma exact_size_lower (size alignment : Z) :
  0 <= size -> 0 <= alignment ->
  size + sizeof_alloc_struct_begin + clamped_alignment alignment <= exact_size size alignment
  /\ sizeof_free_heap_chunk + clamped_alignment alignment <= exact_size size alignment
  /\ exact_size size alignment mod sizeof_ptr = clamped_alignment alignment mod sizeof_ptr.
Proof.
  intros Hs Ha. unfold exact_size.
  set (c := clamped_alignment alignment). clearbody c.
  repeat split; word_arith.
Qed.

Lemma clamped_alignment_pow2 (alignment : Z) :
  in_range alignment -> bad_alignment alignment = false ->
  clamped_alignment alignment = 0 /\ alignment = 0
  \/ exists k, 4 <= k < 32 /\ clamped_alignment alignment = 2 ^ k.
Proof.
  intros Ha Hb. unfold clamped_alignment.
  destruct (bad_alignment_false alignment Ha Hb) as [->|(k & Hk & ->)]; [left; auto|right].
  pose proof (pow2_range k Hk) as [H1 _].
  destruct (Z.eqb_spec (2 ^ k) 0); [lia|].
  destruct (Z_lt_le_dec k 4).
  - exists 4. split; [lia|].
    assert (2 ^ k <= 2 ^ 4) by (apply Z.pow_le_mono_r; lia).
    change (2 ^ 4) with 16 in *. lia.
  - exists k. split; [lia|].
    assert (2 ^ 4 <= 2 ^ k) by (apply Z.pow_le_mono_r; lia).
    change (2 ^ 4) with 16 in *. lia.
Qed.

Lemma normalized_size_range (size alignment : Z) :
  in_range (normalized_size size alignment).
Proof.
  unfold normalized_size. destruct (alignment =? 0); apply wrap_range.
Qed.

Lemma normalized_size_mod (size alignment : Z) :
  in_range alignment -> bad_alignment alignment = false ->
  normalized_size size alignment mod sizeof_ptr = 0.
Proof.
  intros Ha Hb. unfold normalized_size.
  set (r := round_up_to_multiple _ _).
  assert (Hr : wrap r mod sizeof_ptr = 0) by (subst r; word_arith).
  destruct (clamped_alignment_pow2 alignment Ha Hb) as [[_ ->]|(k & Hk & Hc)].
  - exact Hr.
  - unfold clamped_alignment in Hc.
    destruct (Z.eqb_spec alignment 0); [exfalso; pose proof (pow2_range k ltac:(lia)); lia|].
    rewrite Hc.
    assert (Hk4 : 2 ^ k mod 4 = 0).
    { replace k with (2 + (k - 2)) by lia. rewrite Z.pow_add_r by lia.
      change (2 ^ 2) with 4. rewrite Z.mul_comm. apply Z.mod_mul. lia. }
    pose proof (pow2_range k ltac:(lia)) as [? ?].
    change (2 ^ 31) with 2147483648 in *.
    clearbody r. revert Hr Hk4. generalize (2 ^ k). intros. word_arith.
Qed.

(** ** The store *)

Lemma load_store_same (m : memory) (a v : Z) : load (store m a v) a = v.
Proof. unfold load, store. rewrite Z.eqb_refl. reflexivity. Qed.

Lemma load_store_other (m : memory) (a b v : Z) :
  a <> b -> load (store m a v) b = load m b.
Proof.
  intros Hne. unfold load, store.
  destruct (Z.eqb_spec b a); [congruence|reflexivity].
Qed.

Lemma field_distinct (p off1 off2 : Z) :
  in_range off1 -> in_range off2 -> off1 <> off2 -> field p off1 <> field p off2.
Proof. unfold field. intros H1 H2 Hne. word_arith. Qed.

(** ** The walk of heap_alloc *)

Lemma alloc_finish_ptr (st : state) (size alignment chunk : Z) :
  fst (alloc_finish st size alignment chunk) = user_ptr alignment chunk.
Proof. reflexivity. Qed.

Lemma alloc_finish_heap (st : state) (size alignment chunk : Z) :
  theheap (snd (alloc_finish st size alignment chunk)) = theheap st.
Proof. reflexivity. Qed.

Lemma alloc_finish_header (st : state) (size alignment chunk : Z) :
  let r := alloc_finish st size alignment chunk in
  hdr_magic (mem (snd r)) (fst r) = HEAP_MAGIC
  /\ hdr_ptr (mem (snd r)) (fst r) = chunk
  /\ hdr_size (mem (snd r)) (fst r) = size.
Proof.
  cbv zeta. unfold hdr_magic, hdr_ptr, hdr_size.
  rewrite alloc_finish_ptr. unfold alloc_finish. fold (user_ptr alignment chunk).
  cbn [snd mem set_mem].
  set (a := wrap (user_ptr alignment chunk - sizeof_alloc_struct_begin)).
  assert (H01 : field a off_magic <> field a off_ptr)
    by (apply field_distinct; unfold in_range; rewrite ?modulus_eq; unfold_sizes; lia).
  assert (H02 : field a off_magic <> field a off_size)
    by (apply field_distinct; unfold in_range; rewrite ?modulus_eq; unfold_sizes; lia).
  assert (H12 : field a off_ptr <> field a off_size)
    by (apply field_distinct; unfold in_range; rewrite ?modulus_eq; unfold_sizes; lia).
  repeat split.
  - rewrite !load_store_other by congruence. apply load_store_same.
  - rewrite load_store_other by congruence. apply load_store_same.
  - apply load_store_same.
Qed.

Lemma alloc_walk_no_fit (st : state) (size alignment : Z) (l : list Z) :
  Forall (too_small st size) l -> alloc_walk st size alignment l = Some (0, st).
Proof.
  induction 1 as [|c l [Hmod Hlt] _ IH]; [reflexivity|].
  cbn [alloc_walk]. rewrite Hmod. cbn.
  destruct (Z.leb_spec size (chunk_len (mem st) c)); [lia|exact IH].
Qed.

Lemma alloc_walk_first_fit (st : state) (size alignment : Z) (pre post : list Z) (K : Z) :
  Forall (too_small st size) pre ->
  chunk_len (mem st) K mod sizeof_ptr = 0 ->
  size <= chunk_len (mem st) K ->
  alloc_walk st size alignment (pre ++ K :: post) = alloc_take st size alignment K.
Proof.
  intros Hpre Hmod Hfit.
  induction Hpre as [|c l [Hcmod Hlt] _ IH]; cbn [alloc_walk app].
  - rewrite Hmod. cbn.
    destruct (Z.leb_spec size (chunk_len (mem st) K)); [reflexivity|lia].
  - rewrite Hcmod. cbn.
    destruct (Z.leb_spec size (chunk_len (mem st) c)); [lia|exact IH].
Qed.

Lemma alloc_walk_inv (st : state) (size alignment : Z) (l : list Z) (p : Z) (st' : state) :
  alloc_walk st size alignment l = Some (p, st') ->
  (Forall (too_small st size) l /\ p = 0 /\ st' = st)
  \/ exists pre K post,
       l = pre ++ K :: post /\ Forall (too_small st size) pre
       /\ chunk_len (mem st) K mod sizeof_ptr = 0
       /\ size <= chunk_len (mem st) K
       /\ alloc_take st size alignment K = Some (p, st').
Proof.
  induction l as [|c l IH]; cbn [alloc_walk].
  - intros [= <- <-]. left. auto.
  - destruct (Z.eqb_spec (chunk_len (mem st) c mod sizeof_ptr) 0) as [Hmod|]; [|discriminate].
    destruct (Z.leb_spec size (chunk_len (mem st) c)) as [Hfit|Hlt].
    + intros Htake. right. exists [], c, l. auto.
    + intros Hwalk. destruct (IH Hwalk) as [(Hall & -> & ->)|(pre & K & post & -> & Hpre & HK)].
      * left. split; [constructor; [split|]; assumption|auto].
      * right. exists (c :: pre), K, post. split; [reflexivity|].
        split; [constructor; [split|]; assumption|exact HK].
Qed.

Lemma alloc_take_ptr (st : state) (size alignment chunk p : Z) (st' : state) :
  alloc_take st size alignment chunk = Some (p, st') -> p = user_ptr alignment chunk.
Proof.
  unfold alloc_take. destruct (alloc_split st size chunk) as [[size' st1]|]; [|discriminate].
  intros [= <- _]. reflexivity.
Qed.

(** ** The list operations at a known position *)

Lemma list_next_at (pre post : list Z) (x : Z) :
  ~ In x pre -> list_next (pre ++ x :: post) x = hd_error post.
Proof.
  induction pre as [|y pre IH]; cbn [app list_next In]; intros Hnin.
  - rewrite Z.eqb_refl. reflexivity.
  - destruct (Z.eqb_spec y x); [tauto|]. apply IH. tauto.
Qed.

Lemma list_delete_at (pre post : list Z) (x : Z) :
  ~ In x pre -> list_delete (pre ++ x :: post) x = pre ++ post.
Proof.
  induction pre as [|y pre IH]; cbn [app list_delete In]; intros Hnin.
  - rewrite Z.eqb_refl. reflexivity.
  - destruct (Z.eqb_spec y x); [tauto|]. f_equal. apply IH. tauto.
Qed.

Lemma list_add_before_at (pre post : list Z) (entry item : Z) :
  ~ In entry pre ->
  list_add_before (pre ++ entry :: post) entry item = pre ++ item :: entry :: post.
Proof.
  induction pre as [|y pre IH]; cbn [app list_add_before In]; intros Hnin.
  - rewrite Z.eqb_refl. reflexivity.
  - destruct (Z.eqb_spec y entry); [tauto|]. f_equal. apply IH. tauto.
Qed.

Lemma list_prev_from_at (before : option Z) (pre post : list Z) (x : Z) :
  ~ In x pre ->
  list_prev_from before (pre ++ x :: post) x
  = match rev pre with [] => before | y :: _ => Some y end.
Proof.
  revert before. induction pre as [|y pre IH]; cbn [app list_prev_from In rev]; intros before Hnin.
  - rewrite Z.eqb_refl. reflexivity.
  - destruct (Z.eqb_spec y x); [tauto|]. rewrite IH by tauto.
    destruct (rev pre); reflexivity.
Qed.

Lemma list_prev_first (post : list Z) (x : Z) : list_prev (x :: post) x = None.
Proof. unfold list_prev. cbn. rewrite Z.eqb_refl. reflexivity. Qed.

Lemma list_prev_after (pre post : list Z) (y x : Z) :
  ~ In x pre -> y <> x -> list_prev (pre ++ y :: x :: post) x = Some y.
Proof.
  intros Hnin Hne. unfold list_prev.
  replace (pre ++ y :: x :: post) with ((pre ++ [y]) ++ x :: post)
    by (rewrite <- app_assoc; reflexivity).
  rewrite list_prev_from_at.
  - rewrite rev_app_distr. reflexivity.
  - rewrite in_app_iff. cbn. intuition congruence.
Qed.

Lemma NoDup_app_mid (pre post : list Z) (x : Z) :
  NoDup (pre ++ x :: post) -> ~ In x pre /\ ~ In x post /\ NoDup (pre ++ post).
Proof.
  intros H. pose proof (NoDup_remove_1 _ _ _ H). pose proof (NoDup_remove_2 _ _ _ H) as Hn.
  rewrite in_app_iff in Hn. tauto.
Qed.

(** ** The split of heap_alloc *)

Lemma alloc_split_consume (st : state) (size : Z) (pre post : list Z) (K : Z) :
  flist st = pre ++ K :: post -> ~ In K pre ->
  chunk_len (mem st) K <= wrap (size + sizeof_free_heap_chunk) ->
  size <= chunk_len (mem st) K ->
  alloc_split st size K = Some (chunk_len (mem st) K, set_free_list st (pre ++ post)).
Proof.
  intros Hl Hnin Hsmall Hfit. unfold alloc_split.
  rewrite Hl, list_delete_at by exact Hnin. cbn [mem set_free_list].
  destruct (Z.gtb_spec (chunk_len (mem st) K) (wrap (size + sizeof_free_heap_chunk))); [lia|].
  cbn [mem set_free_list].
  destruct (Z.leb_spec size (chunk_len (mem st) K)); [reflexivity|lia].
Qed.

Lemma alloc_split_carve (st : state) (size : Z) (pre post : list Z) (K : Z) :
  flist st = pre ++ K :: post -> NoDup (flist st) ->
  let lenK := chunk_len (mem st) K in
  in_range size -> size mod sizeof_ptr = 0 -> lenK mod sizeof_ptr = 0 ->
  size + sizeof_free_heap_chunk < lenK ->
  0 < K -> K + lenK <= modulus ->
  alloc_split st size K
  = Some (size,
          set_free_list
            (set_chunk_len (set_chunk_len (set_free_list st (pre ++ post))
                              (K + size) (lenK - size)) K size)
            (pre ++ (K + size) :: post)).
Proof.
  intros Hl Hnd lenK Hsize Hsmod HKmod Hbig HK Hend.
  rewrite Hl in Hnd. destruct (NoDup_app_mid _ _ _ Hnd) as (Hpre & Hpost & Hnd').
  assert (HlenK : in_range lenK) by (unfold in_range in *; rewrite modulus_eq in *; unfold_sizes; lia).
  unfold alloc_split.
  rewrite Hl, list_delete_at, list_next_at by exact Hpre.
  cbn [mem set_free_list]. fold lenK.
  rewrite (wrap_small (size + sizeof_free_heap_chunk))
    by (unfold in_range in *; rewrite modulus_eq in *; unfold_sizes; lia).
  destruct (Z.gtb_spec lenK (size + sizeof_free_heap_chunk)); [|lia].
  rewrite (wrap_small (K + size)), (wrap_small (lenK - size))
    by (unfold in_range in *; rewrite modulus_eq in *; unfold_sizes; lia).
  unfold heap_create_free_chunk.
  assert (Hmod : (lenK - size) mod sizeof_ptr = 0) by word_arith.
  rewrite Hmod. cbn [Z.eqb].
  set (st2 := set_chunk_len _ (K + size) (lenK - size)).
  assert (Hlen2 : chunk_len (mem st2) K = lenK).
  { subst st2. unfold chunk_len at 1. cbn [set_chunk_len set_mem mem set_free_list].
    destruct (Z.eq_dec size 0) as [->|Hnz].
    - rewrite Z.add_0_r, Z.sub_0_r. apply load_store_same.
    - rewrite load_store_other; [reflexivity|].
      unfold field.
      assert (in_range (K + size + off_len) /\ in_range (K + off_len)) as [H1 H2]
        by (unfold in_range in *; rewrite modulus_eq in *; unfold_sizes; lia).
      rewrite !wrap_small by assumption. lia. }
  rewrite Hlen2.
  rewrite (wrap_small (lenK - size))
    by (unfold in_range in *; rewrite modulus_eq in *; unfold_sizes; lia).
  replace (lenK - (lenK - size)) with size by lia.
  rewrite (wrap_small size) by exact Hsize.
  set (st3 := set_chunk_len st2 K size).
  assert (Hlen3 : chunk_len (mem st3) K = size).
  { subst st3. unfold chunk_len. cbn [set_chunk_len set_mem mem]. apply load_store_same. }
  assert (Hfl3 : flist st3 = pre ++ post) by reflexivity.
  destruct post as [|n post'].
  - cbn [hd_error]. cbn [mem set_free_list]. rewrite Hlen3, Z.leb_refl.
    rewrite Hfl3. unfold list_add_tail. rewrite app_nil_r. reflexivity.
  - cbn [hd_error]. cbn [mem set_free_list]. rewrite Hlen3, Z.leb_refl.
    rewrite Hfl3, list_add_before_at; [reflexivity|].
    apply NoDup_remove_2 in Hnd'. rewrite in_app_iff in Hnd'. tauto.
Qed.


(** ** Well-formed free lists *)

Lemma chunks_app (st : state) (pre post : list Z) (K : Z) :
  flist st = pre ++ K :: post ->
  chunks st
  = map (fun c => (c, chunk_len (mem st) c)) pre
    ++ (K, chunk_len (mem st) K) :: map (fun c => (c, chunk_len (mem st) c)) post.
Proof. intros Hl. unfold chunks. rewrite Hl, map_app. reflexivity. Qed.

Lemma chunks_fst (st : state) : map fst (chunks st) = flist st.
Proof.
  unfold chunks. rewrite map_map. cbn. apply map_id.
Qed.

Lemma chunk_in_chunks (st : state) (K : Z) :
  In K (flist st) -> In (K, chunk_len (mem st) K) (chunks st).
Proof.
  intros Hin. unfold chunks.
  apply (in_map (fun c => (c, chunk_len (mem st) c))). exact Hin.
Qed.

(** In an ascending list every chunk lies wholly below every later one. *)
Lemma ascending_apart_head (c : Z * Z) (cs : list (Z * Z)) :
  Forall (fun d => 0 <= snd d) cs ->
  ascending_apart (c :: cs) ->
  Forall (fun d => fst c < fst d /\ fst c + snd c < fst d) cs.
Proof.
  revert c. induction cs as [|d cs IH]; intros c Hpos Hasc; [constructor|].
  cbn [ascending_apart] in Hasc. destruct Hasc as (Hlt & Hgap & Hrest).
  inversion Hpos as [|? ? Hd Hpos']; subst.
  constructor; [split; assumption|].
  specialize (IH d Hpos' Hrest).
  eapply Forall_impl; [|exact IH]. cbn. intros e [H1 H2]. lia.
Qed.

Lemma ascending_apart_tail (c : Z * Z) (cs : list (Z * Z)) :
  ascending_apart (c :: cs) -> ascending_apart cs.
Proof. destruct cs as [|d cs]; cbn; tauto. Qed.

Lemma ascending_apart_app (pre post : list (Z * Z)) :
  ascending_apart (pre ++ post) -> ascending_apart pre /\ ascending_apart post.
Proof.
  induction pre as [|c pre IH]; cbn [app]; intros Hasc; [cbn; tauto|].
  pose proof (ascending_apart_tail _ _ Hasc) as Ht. destruct (IH Ht) as [Hp Hq].
  split; [|exact Hq].
  destruct pre as [|d pre]; [exact I|].
  cbn [app ascending_apart] in Hasc |- *. tauto.
Qed.

Lemma ascending_apart_mid (pre post : list (Z * Z)) (k : Z * Z) :
  Forall (fun d => 0 <= snd d) (pre ++ k :: post) ->
  ascending_apart (pre ++ k :: post) ->
  Forall (fun c => fst c < fst k /\ fst c + snd c < fst k) pre
  /\ Forall (fun d => fst k < fst d /\ fst k + snd k < fst d) post.
Proof.
  induction pre as [|c pre IH]; cbn [app]; intros Hpos Hasc.
  - split; [constructor|]. inversion Hpos; subst. apply ascending_apart_head; assumption.
  - inversion Hpos as [|? ? Hc Hpos']; subst.
    destruct (IH Hpos' (ascending_apart_tail _ _ Hasc)) as [Hp Hq].
    split; [|exact Hq]. constructor; [|exact Hp].
    pose proof (ascending_apart_head _ _ Hpos' Hasc) as Hall.
    rewrite Forall_app in Hall. destruct Hall as [_ Hall].
    inversion Hall; subst. assumption.
Qed.

Lemma span_ok_nonneg (h : heap) (cs : list (Z * Z)) :
  Forall (span_ok h) cs -> Forall (fun d => 0 <= snd d) cs.
Proof.
  apply Forall_impl. intros d (_ & _ & H & _). unfold_sizes. lia.
Qed.

Lemma ascending_fst_NoDup (cs : list (Z * Z)) :
  Forall (fun d => 0 <= snd d) cs -> ascending_apart cs -> NoDup (map fst cs).
Proof.
  induction cs as [|c cs IH]; intros Hpos Hasc; [constructor|].
  inversion Hpos as [|? ? Hc Hpos']; subst. cbn [map]. constructor.
  - intros Hin. apply in_map_iff in Hin. destruct Hin as (d & Heq & Hin).
    pose proof (ascending_apart_head _ _ Hpos' Hasc) as Hall.
    rewrite Forall_forall in Hall. specialize (Hall d Hin). lia.
  - apply IH; [exact Hpos'|]. apply ascending_apart_tail with c. exact Hasc.
Qed.

Lemma free_list_NoDup (st : state) : free_list_ok st -> NoDup (flist st).
Proof.
  intros (_ & Hok & Hasc). rewrite <- chunks_fst.
  apply ascending_fst_NoDup; [|exact Hasc]. eapply span_ok_nonneg. exact Hok.
Qed.

Lemma free_list_chunk (st : state) (K : Z) :
  free_list_ok st -> In K (flist st) ->
  region_ok (theheap st) /\ span_ok (theheap st) (K, chunk_len (mem st) K).
Proof.
  intros (Hreg & Hok & _) Hin. split; [exact Hreg|].
  rewrite Forall_forall in Hok. apply Hok, chunk_in_chunks, Hin.
Qed.

Lemma free_list_lens (st : state) :
  free_list_ok st -> Forall (fun c => chunk_len (mem st) c mod sizeof_ptr = 0) (flist st).
Proof.
  intros Hok. apply Forall_forall. intros c Hin.
  destruct (free_list_chunk st c Hok Hin) as (_ & _ & H & _). exact H.
Qed.

(** ** First fit *)

Lemma first_fit_exists (st : state) (size : Z) (l : list Z) (K : Z) :
  Forall (fun c => chunk_len (mem st) c mod sizeof_ptr = 0) l ->
  In K l -> size <= chunk_len (mem st) K ->
  exists pre K' post,
    l = pre ++ K' :: post /\ Forall (too_small st size) pre
    /\ size <= chunk_len (mem st) K'.
Proof.
  induction 1 as [|c l Hc Hall IH]; intros Hin Hfit; [destruct Hin|].
  destruct (Z_le_gt_dec size (chunk_len (mem st) c)) as [Hle|Hgt].
  - exists [], c, l. repeat split; [constructor|exact Hle].
  - destruct Hin as [->|Hin]; [lia|].
    destruct (IH Hin Hfit) as (pre & K' & post & -> & Hpre & HK').
    exists (c :: pre), K', post. repeat split; [|exact HK'].
    constructor; [split; [exact Hc|lia]|exact Hpre].
Qed.

Lemma no_fit_too_small (st : state) (size : Z) :
  free_list_ok st ->
  Forall (fun c => chunk_len (mem st) c < size) (flist st) ->
  Forall (too_small st size) (flist st).
Proof.
  intros Hok Hsmall. pose proof (free_list_lens st Hok) as Hmod.
  rewrite Forall_forall in *. intros c Hin. split; auto.
Qed.

(** With a well-formed free list the split of the chosen chunk goes through. *)
Lemma alloc_split_total (st : state) (size : Z) (pre post : list Z) (K : Z) :
  free_list_ok st -> flist st = pre ++ K :: post ->
  in_range size -> size mod sizeof_ptr = 0 ->
  size <= chunk_len (mem st) K ->
  let lenK := chunk_len (mem st) K in
  alloc_split st size K
  = Some (if lenK >? size + sizeof_free_heap_chunk
          then (size,
                set_free_list
                  (set_chunk_len (set_chunk_len (set_free_list st (pre ++ post))
                                    (K + size) (lenK - size)) K size)
                  (pre ++ (K + size) :: post))
          else (lenK, set_free_list st (pre ++ post))).
Proof.
  intros Hok Hl Hsize Hsmod Hfit lenK.
  assert (Hin : In K (flist st)) by (rewrite Hl; apply in_elt).
  destruct (free_list_chunk st K Hok Hin) as ((Hb & _ & _ & _ & Hend) & (_ & HKmod & Hmin & Hlo & Hhi)).
  cbn [fst snd] in *. fold lenK in HKmod, Hmin, Hhi, Hfit.
  pose proof (free_list_NoDup st Hok) as Hnd.
  destruct (Z.gtb_spec lenK (size + sizeof_free_heap_chunk)) as [Hbig|Hsmall].
  - apply alloc_split_carve; try assumption; unfold_sizes; lia.
  - rewrite Hl in Hnd. destruct (NoDup_app_mid _ _ _ Hnd) as (Hpre & _ & _).
    apply alloc_split_consume; try assumption. fold lenK.
    rewrite wrap_small; [exact Hsmall|].
    unfold in_range in *. rewrite modulus_eq in *. unfold_sizes. lia.
Qed.


(** * The allocation path, claim by claim *)

Example heap_init_fresh : heap_init 0x100008 0x101008 zero_memory = Some fresh_heap.
Proof. reflexivity. Qed.

Example heap_init_high : heap_init 0x80100000 0x80200000 zero_memory = Some high_heap.
Proof. reflexivity. Qed.

Lemma fresh_heap_ok : free_list_ok fresh_heap.
Proof.
  unfold free_list_ok, region_ok, span_ok. rewrite modulus_eq.
  repeat split; try (vm_compute; (reflexivity || discriminate)).
  repeat constructor; vm_compute; (reflexivity || discriminate).
Qed.

(** On a well-formed free list no assertion of [heap_alloc] fails, whatever
    the request: the call returns. *)
Lemma heap_alloc_returns (st : state) (n a : Z) :
  free_list_ok st -> in_range a ->
  exists p st', heap_alloc st n a = Some (p, st').
Proof.
  intros Hok Ha. unfold heap_alloc. destruct (bad_alignment a) eqn:Hbad; [eauto|].
  rewrite normalize_eq by exact Ha. cbv beta iota.
  set (size := normalized_size n a).
  destruct (Forall_Exists_dec (fun c => chunk_len (mem st) c < size)
              (fun c => Z_lt_dec (chunk_len (mem st) c) size) (flist st))
    as [Hsmall|Hfit].
  - exists 0, st. apply alloc_walk_no_fit, no_fit_too_small; assumption.
  - apply Exists_exists in Hfit. destruct Hfit as (K0 & Hin0 & HK0).
    destruct (first_fit_exists st size (flist st) K0 (free_list_lens st Hok) Hin0
                ltac:(lia)) as (pre & K & post & Hl & Hpre & HK).
    assert (HKmod : chunk_len (mem st) K mod sizeof_ptr = 0).
    { pose proof (free_list_lens st Hok) as Hm. rewrite Forall_forall in Hm.
      apply Hm. rewrite Hl. apply in_elt. }
    rewrite Hl, alloc_walk_first_fit by assumption.
    unfold alloc_take.
    rewrite (alloc_split_total st size pre post K Hok Hl
               (normalized_size_range n a) (normalized_size_mod n a Ha Hbad) HK).
    destruct (chunk_len (mem st) K >? size + sizeof_free_heap_chunk);
      eexists; eexists; apply f_equal, surjective_pairing.
Qed.

(** The two ways [heap_alloc] is written to decline, for any size: a bad
    alignment, or a free list without a chunk of the normalized size.  It
    returns NULL and the state it was given. *)
Lemma heap_alloc_declines (st : state) (n a : Z) :
  free_list_ok st -> in_range a ->
  bad_alignment a = true
  \/ Forall (fun c => chunk_len (mem st) c < normalized_size n a) (flist st) ->
  heap_alloc st n a = Some (0, st).
Proof.
  intros Hok Ha Hwhy. unfold heap_alloc.
  destruct (bad_alignment a) eqn:Hbad; [reflexivity|].
  destruct Hwhy as [Hb|Hsmall]; [discriminate|].
  rewrite normalize_eq by exact Ha. cbv beta iota.
  apply alloc_walk_no_fit, no_fit_too_small; assumption.
Qed.

(** C4.  For every size and every alignment among 1, 2, 4, ..., 128,
    whatever [heap_alloc] returns is NULL or a multiple of the larger of the
    alignment and 16; and on a well-formed free list it does return. *)
Theorem heap_alloc_aligned (st : state) (n a : Z) :
  In a [1; 2; 4; 8; 16; 32; 64; 128] ->
  (forall p st', heap_alloc st n a = Some (p, st') -> p = 0 \/ p mod Z.max a 16 = 0)
  /\ (free_list_ok st -> exists p st', heap_alloc st n a = Some (p, st')).
Proof.
  intros Ha.
  assert (Hk : exists k, 4 <= k < 32 /\ Z.max a 16 = 2 ^ k
                          /\ bad_alignment a = false /\ in_range a /\ a <> 0).
  { unfold in_range. rewrite modulus_eq. cbn [In] in Ha.
    destruct Ha as [<-|[<-|[<-|[<-|[<-|[<-|[<-|[<-|[]]]]]]]]];
      [exists 4|exists 4|exists 4|exists 4|exists 4|exists 5|exists 6|exists 7];
      repeat split; try reflexivity; lia. }
  destruct Hk as (k & Hk & Hmax & Hbad & Hrange & Hnz).
  split; [|intros Hok; apply heap_alloc_returns; assumption].
  intros p st' Halloc.
  unfold heap_alloc in Halloc. rewrite Hbad, normalize_eq in Halloc by exact Hrange.
  apply alloc_walk_inv in Halloc.
  destruct Halloc as [(_ & -> & _)|(pre & K & post & _ & _ & _ & _ & Htake)]; [left; reflexivity|].
  right. apply alloc_take_ptr in Htake. subst p.
  unfold user_ptr, clamped_alignment.
  destruct (Z.eqb_spec a 0); [contradiction|].
  rewrite Hmax. pose proof (pow2_range k ltac:(lia)) as [H1 _].
  destruct (Z.gtb_spec (2 ^ k) 0); [|lia].
  apply ROUNDUP_divide. lia.
Qed.

Lemma heap_alloc_aligned_witness :
  exists p st', heap_alloc fresh_heap 1 128 = Some (p, st')
                /\ p <> 0 /\ p mod Z.max 128 16 = 0.
Proof.
  destruct (heap_alloc_aligned fresh_heap 1 128 ltac:(cbn; tauto)) as [Hal Hret].
  destruct (Hret fresh_heap_ok) as (p & st' & Halloc).
  exists p, st'. split; [exact Halloc|].
  assert (Hp : p = 0x100080) by (vm_compute in Halloc; congruence).
  split; [rewrite Hp; discriminate|].
  destruct (Hal p st' Halloc) as [H|H]; [rewrite Hp in H; discriminate H|exact H].
Defined.



(** C6.  When [heap_alloc] takes a chunk [K] for a normalized size [size]:
    if [K]'s [len] exceeds [size] plus the size of a free chunk header, a
    new free chunk of length [len - size] is created at [K + size] and put
    where [K] was in the list, [K] is cut down to [size] and the span
    recorded in the allocation header has length [size]; otherwise [K] just
    leaves the list and the recorded span length is [K]'s whole [len]. *)
Theorem alloc_split_policy (st : state) (size alignment : Z) (pre post : list Z) (K : Z) :
  flist st = pre ++ K :: post -> NoDup (flist st) ->
  in_range size -> size mod sizeof_ptr = 0 ->
  chunk_len (mem st) K mod sizeof_ptr = 0 ->
  size <= chunk_len (mem st) K ->
  sizeof_heap <= K -> K + chunk_len (mem st) K <= modulus ->
  let lenK := chunk_len (mem st) K in
  let unlinked := set_free_list st (pre ++ post) in
  if lenK >? size + sizeof_free_heap_chunk then
    let created := set_chunk_len unlinked (K + size) (lenK - size) in
    heap_create_free_chunk unlinked (K + size) (lenK - size) = Some (K + size, created)
    /\ chunk_len (mem created) (K + size) = lenK - size
    /\ alloc_split st size K
       = Some (size, set_free_list (set_chunk_len created K size)
                       (pre ++ (K + size) :: post))
    /\ exists p st', alloc_take st size alignment K = Some (p, st')
         /\ flist st' = pre ++ (K + size) :: post
         /\ hdr_ptr (mem st') p = K /\ hdr_size (mem st') p = size
  else
    alloc_split st size K = Some (lenK, unlinked)
    /\ exists p st', alloc_take st size alignment K = Some (p, st')
         /\ flist st' = pre ++ post
         /\ hdr_ptr (mem st') p = K /\ hdr_size (mem st') p = lenK.
Proof.
  intros Hl Hnd Hsize Hsmod HKmod Hfit HK Hend lenK unlinked.
  assert (Hwrap : wrap (size + sizeof_free_heap_chunk) = size + sizeof_free_heap_chunk).
  { apply wrap_small. fold lenK in Hfit, Hend.
    unfold in_range in *. rewrite modulus_eq in *. unfold_sizes. lia. }
  destruct (Z.gtb_spec lenK (size + sizeof_free_heap_chunk)) as [Hbig|Hsmall].
  - pose proof (alloc_split_carve st size pre post K Hl Hnd Hsize Hsmod HKmod
                  Hbig ltac:(unfold_sizes; lia) Hend) as Hsplit.
    fold lenK unlinked in Hsplit.
    intros created. repeat split.
    + unfold heap_create_free_chunk.
      replace ((lenK - size) mod sizeof_ptr) with 0; [reflexivity|].
      fold lenK in HKmod. symmetry. word_arith.
    + unfold chunk_len. apply load_store_same.
    + exact Hsplit.
    + unfold alloc_take. rewrite Hsplit.
      eexists. eexists. split; [apply f_equal, surjective_pairing|].
      split; [reflexivity|].
      pose proof (alloc_finish_header
                    (set_free_list (set_chunk_len created K size) (pre ++ (K + size) :: post))
                    size alignment K) as (_ & Hp & Hs).
      split; assumption.
  - rewrite Hl in Hnd. destruct (NoDup_app_mid _ _ _ Hnd) as (Hpre & _ & _).
    pose proof (alloc_split_consume st size pre post K Hl Hpre
                  ltac:(rewrite Hwrap; exact Hsmall) Hfit) as Hsplit.
    fold lenK unlinked in Hsplit.
    split; [exact Hsplit|].
    unfold alloc_take. rewrite Hsplit.
    eexists. eexists. split; [apply f_equal, surjective_pairing|].
    split; [reflexivity|].
    pose proof (alloc_finish_header unlinked lenK alignment K) as (_ & Hp & Hs).
    split; assumption.
Qed.

Lemma alloc_split_policy_witness :
  alloc_split fresh_heap 24 0x100008
  = Some (24, set_free_list
                (set_chunk_len
                   (set_chunk_len (set_free_list fresh_heap []) (0x100008 + 24) (0x1000 - 24))
                   0x100008 24)
                [0x100008 + 24])
  /\ alloc_split two_chunk_heap 12 0x100008
     = Some (16, set_free_list two_chunk_heap [0x100100]).
Proof.
  split.
  - refine (proj1 (proj2 (proj2
      (alloc_split_policy fresh_heap 24 0 [] [] 0x100008 eq_refl _ _ eq_refl eq_refl _ _ _)))).
    + repeat constructor; cbn; tauto.
    + unfold in_range. rewrite modulus_eq. lia.
    + vm_compute. discriminate.
    + vm_compute. discriminate.
    + vm_compute. discriminate.
  - refine (proj1
      (alloc_split_policy two_chunk_heap 12 0 [] [0x100100] 0x100008 eq_refl _ _ eq_refl eq_refl _ _ _)).
    + repeat constructor; cbn; intuition discriminate.
    + unfold in_range. rewrite modulus_eq. lia.
    + vm_compute. discriminate.
    + vm_compute. discriminate.
    + vm_compute. discriminate.
Defined.
(** C9.  On a heap with a well-formed free list that holds a chunk large
    enough for the normalized size of a zero-byte request,
    [heap_alloc(0, 0)] returns a pointer that is not NULL. *)
Theorem heap_alloc_zero_size (st : state) (K : Z) :
  free_list_ok st -> In K (flist st) ->
  normalized_size 0 0 <= chunk_len (mem st) K ->
  exists p st', heap_alloc st 0 0 = Some (p, st') /\ p <> 0.
Proof.
  intros Hok Hin Hfit.
  destruct (first_fit_exists st (normalized_size 0 0) (flist st) K
              (free_list_lens st Hok) Hin Hfit) as (pre & K' & post & Hl & Hpre & HK').
  assert (Hin' : In K' (flist st)) by (rewrite Hl; apply in_elt).
  destruct (free_list_chunk st K' Hok Hin') as ((Hb & _ & _ & _ & Hend) & (_ & HKmod & Hmin & Hlo & Hhi)).
  cbn [fst snd] in *.
  unfold heap_alloc. rewrite bad_alignment_zero. cbn [normalize].
  change (normalize 0 0) with (normalized_size 0 0, 0).
  rewrite Hl, alloc_walk_first_fit by assumption.
  unfold alloc_take.
  rewrite (alloc_split_total st (normalized_size 0 0) pre post K' Hok Hl)
    by (try exact HK'; try reflexivity; apply normalized_size_range).
  destruct (chunk_len (mem st) K' >? normalized_size 0 0 + sizeof_free_heap_chunk);
    (eexists; eexists; split; [apply f_equal, surjective_pairing|]);
    rewrite alloc_finish_ptr; unfold user_ptr; cbn [Z.gtb Z.compare];
    rewrite wrap_small by (unfold in_range in *; rewrite modulus_eq in *; unfold_sizes; lia);
    unfold_sizes; lia.
Qed.

Lemma heap_alloc_zero_size_witness :
  exists p st', heap_alloc fresh_heap 0 0 = Some (p, st') /\ p <> 0.
Proof.
  apply (heap_alloc_zero_size fresh_heap 0x100008 fresh_heap_ok).
  - left. reflexivity.
  - vm_compute. discriminate.
Defined.

(** * Requests whose size wraps around

    [heap_alloc] adds the header size, the rounding and the alignment to
    the requested size in [size_t] and never checks for wrap-around.  A
    huge request therefore becomes a small normalized size and is served
    from a small span. *)

Example wrapped_sizes :
  normalized_size 0xFFFFFFFC 0 = 12
  /\ normalized_size 0xFFFFFFF0 16 = 12
  /\ normalized_size 0x80000000 0x80000000 = 12.
Proof. repeat split; reflexivity. Qed.

(** C1.  The free list is not strictly ascending with gaps after every run
    of operations.  After [heap_init] over [0x100008, 0x101008): two 12-byte
    spans are handed out, the first is freed, and a request of 0xFFFFFFF0 bytes
    aligned to 16 is served from that first span; its pointer is the
    pointer of the second allocation, whose header it overwrites.  When the
    client frees both pointers the span at 0x100008 enters the free list
    twice: the list is not strictly ascending. *)
Theorem wrapped_request_breaks_order :
  observe (run_from 0x100008 0x101008 zero_memory
             [op_alloc 0 0; op_alloc 0 0; op_free 0; op_alloc 0xFFFFFFF0 16])
  = Some ([(0x100020, 0xFE8)], [0x100020; 0x100020], [(0x100008, 12); (0x100008, 12)])
  /\ observe (run_from 0x100008 0x101008 zero_memory
                [op_alloc 0 0; op_alloc 0 0; op_free 0; op_alloc 0xFFFFFFF0 16;
                 op_free 0; op_free 0])
     = Some ([(0x100008, 12); (0x100008, 12); (0x100020, 0xFE8)], [], [])
  /\ ~ ascending_apart [(0x100008, 12); (0x100008, 12); (0x100020, 0xFE8)].
Proof.
  split; [vm_compute; reflexivity|]. split; [vm_compute; reflexivity|].
  cbn. lia.
Qed.

(** C2.  The lengths of the free chunks and the span sizes in the headers
    of the pointers held do not always add up to the length of the region.
    Same region: a 12-byte span and a 112-byte span are handed out,
    the first is freed and then reused for a request of 0xFFFFFFF0 bytes
    aligned to 16, whose header replaces the header of the 112-byte
    allocation.  The free chunks sum to 0xF84 and the headers of the two
    pointers held record 12 bytes each: 0xF9C in all, not the 0x1000 bytes
    of the region. *)
Theorem wrapped_request_breaks_sum :
  match run_from 0x100008 0x101008 zero_memory
          [op_alloc 0 0; op_alloc 100 0; op_free 0; op_alloc 0xFFFFFFF0 16] with
  | Some (st, live) =>
      len (theheap st) = 0x1000
      /\ chunks st = [(0x100084, 0xF84)]
      /\ spans st live = [(0x100008, 12); (0x100008, 12)]
      /\ total (chunks st) + total (spans st live) = 0xF9C
  | None => False
  end.
Proof. vm_compute. repeat split; reflexivity. Qed.

(** C3.  Allocating from the untouched heap and freeing the pointer does
    not always restore the one chunk.  On the heap [heap_init] makes over
    [0x100000, 0x101000) a request of 0xFFFFFFE0 bytes aligned to 32
    normalizes to 12 bytes: the chunk is split at 0x10000C and the pointer
    returned is 0x100020, not NULL.  The header in front of it starts at
    0x100014, past the list node of the chunk just carved at 0x10000C, and
    its magic word replaces that chunk's [len].  [heap_free] of the pointer
    merges the span with that chunk: the free list is one chunk at the base
    of the region again, but its length is 12 plus the magic word, not the
    0x1000 bytes it was. *)
Theorem wrapped_request_breaks_round_trip :
  normalized_size 0xFFFFFFE0 32 = 12
  /\ observe (run_from 0x100000 0x101000 zero_memory []) = Some ([(0x100000, 0x1000)], [], [])
  /\ match run_from 0x100000 0x101000 zero_memory [op_alloc 0xFFFFFFE0 32] with
     | Some (st, live) =>
         live = [0x100020]
         /\ spans st live = [(0x100000, 12)]
         /\ chunks st = [(0x10000C, HEAP_MAGIC)]
         /\ header_off_nodes st 0x100020 = true
     | None => False
     end
  /\ observe (run_from 0x100000 0x101000 zero_memory [op_alloc 0xFFFFFFE0 32; op_free 0])
     = Some ([(0x100000, 12 + HEAP_MAGIC)], [], [])
  /\ 12 + HEAP_MAGIC <> 0x1000.
Proof.
  split; [reflexivity|]. split; [vm_compute; reflexivity|].
  split; [vm_compute; repeat split; reflexivity|].
  split; [vm_compute; reflexivity|]. vm_compute. discriminate.
Qed.


(** C8.  The requested bytes at the user pointer do not always lie inside
    the recorded span.  On the untouched heap over [0x100008, 0x101008) a
    request of 0xFFFFFFFC bytes succeeds with the pointer 0x100014 and a
    recorded span of 12 bytes at 0x100008: the span ends at the pointer, far
    below pointer + size. *)
Theorem wrapped_request_overruns_span :
  match heap_alloc fresh_heap 0xFFFFFFFC 0 with
  | Some (p, st') =>
      p = 0x100014 /\ span_of (mem st') p = (0x100008, 12)
      /\ ~ (p + 0xFFFFFFFC <= hdr_ptr (mem st') p + hdr_size (mem st') p)
  | None => False
  end.
Proof.
  vm_compute. split; [reflexivity|]. split; [reflexivity|].
  intros H. apply H. reflexivity.
Qed.

(** C10.  A call that returns NULL can leave the heap changed.  The call of
    C7 returns NULL after it has unlinked the chunk at 0x80100000 and put
    the rest of it back: the free list is no longer the one the call started
    with. *)
Theorem wrapped_request_null_changes_heap :
  match heap_alloc high_heap 0x80000000 0x80000000 with
  | Some (p, st') =>
      p = 0 /\ chunks high_heap = [(0x80100000, 0x100000)]
      /\ chunks st' = [(0x8010000C, 0xFFFF4)]
  | None => False
  end.
Proof. vm_compute. repeat split; reflexivity. Qed.

(** * Requests that do not wrap around

    From here on the requests satisfy [request_fits]: the normalized size is
    the exact one.  The allocator then keeps its heap well formed, and the
    properties that fail for wrapped sizes hold. *)

(** ** Ascending lists of spans *)

Lemma gapped_weaken (lim lim' : Z) (cs : list (Z * Z)) :
  lim' <= lim -> gapped lim cs -> gapped lim' cs.
Proof. destruct cs as [|c cs]; cbn; [tauto|]. intros H [H1 H2]. split; [lia|exact H2]. Qed.

Lemma gapped_app (lim : Z) (xs ys : list (Z * Z)) :
  gapped lim (xs ++ ys) <-> gapped lim xs /\ gapped (last_end lim xs) ys.
Proof.
  revert lim. induction xs as [|x xs IH]; intros lim; cbn [app gapped last_end].
  - tauto.
  - rewrite IH. tauto.
Qed.

Lemma last_end_app (lim : Z) (xs ys : list (Z * Z)) :
  last_end lim (xs ++ ys) = last_end (last_end lim xs) ys.
Proof. revert lim. induction xs as [|x xs IH]; intros lim; cbn; [reflexivity|apply IH]. Qed.

Lemma gapped_ascending (lim : Z) (cs : list (Z * Z)) :
  Forall (fun d => 0 <= snd d) cs -> gapped lim cs -> ascending_apart cs.
Proof.
  revert lim. induction cs as [|c cs IH]; intros lim Hpos Hg; [exact I|].
  inversion Hpos as [|? ? Hc Hpos']; subst. destruct Hg as [_ Hg].
  destruct cs as [|d cs]; [exact I|].
  cbn [ascending_apart]. pose proof Hg as [Hlt _].
  repeat split; [lia|lia|]. apply (IH (fst c + snd c)); assumption.
Qed.

Lemma ascending_gapped (lim : Z) (cs : list (Z * Z)) :
  Forall (fun d => lim < fst d) cs -> ascending_apart cs -> gapped lim cs.
Proof.
  revert lim. induction cs as [|c cs IH]; intros lim Hlo Hasc; [exact I|].
  inversion Hlo as [|? ? Hc Hlo']; subst. split; [exact Hc|].
  destruct cs as [|d cs]; [exact I|].
  cbn [ascending_apart] in Hasc. destruct Hasc as (_ & Hgap & Hrest).
  inversion Hlo' as [|? ? Hd Hlo'']; subst.
  pose proof (IH (fst d - 1)) as IH'.
  split; [exact Hgap|].
  assert (Hg : gapped (fst d - 1) (d :: cs)).
  { apply IH'; [|exact Hrest]. constructor; [lia|].
    destruct cs as [|e cs]; [constructor|].
    clear - Hrest. revert d e Hrest. induction cs as [|f cs IHc]; intros d e Hrest.
    - cbn in Hrest. constructor; [lia|constructor].
    - cbn [ascending_apart] in Hrest. destruct Hrest as (H1 & _ & H2).
      specialize (IHc e f H2). inversion IHc; subst.
      constructor; [lia|]. constructor; [lia|].
      eapply Forall_impl; [|eassumption]. cbn. intros. lia. }
  apply Hg.
Qed.

Lemma span_ok_above (h : heap) (cs : list (Z * Z)) :
  Forall (span_ok h) cs -> Forall (fun d => base h - 1 < fst d) cs.
Proof. apply Forall_impl. intros d (_ & _ & _ & H & _). lia. Qed.

Lemma ascending_iff_gapped (h : heap) (cs : list (Z * Z)) :
  Forall (span_ok h) cs -> (ascending_apart cs <-> gapped (base h - 1) cs).
Proof.
  intros Hok. split.
  - apply ascending_gapped, (span_ok_above h), Hok.
  - apply gapped_ascending. eapply span_ok_nonneg. exact Hok.
Qed.

(** Every chunk of a gapped list ends at or before the end of the last. *)
Lemma gapped_ends (lim : Z) (cs : list (Z * Z)) :
  Forall (fun d => 0 <= snd d) cs -> gapped lim cs ->
  lim <= last_end lim cs
  /\ Forall (fun c => lim < fst c /\ fst c + snd c <= last_end lim cs) cs.
Proof.
  revert lim. induction cs as [|c cs IH]; intros lim Hpos Hg; cbn [last_end].
  - split; [lia|constructor].
  - inversion Hpos as [|? ? Hc Hpos']; subst. destruct Hg as [Hlt Hg].
    destruct (IH _ Hpos' Hg) as [Hle Hall]. split; [lia|].
    constructor; [lia|]. eapply Forall_impl; [|exact Hall]. cbn. intros d. lia.
Qed.

Lemma gapped_starts (lim : Z) (cs : list (Z * Z)) :
  Forall (fun d => 0 <= snd d) cs -> gapped lim cs -> Forall (fun c => lim < fst c) cs.
Proof.
  intros Hpos Hg. destruct (gapped_ends lim cs Hpos Hg) as [_ H].
  eapply Forall_impl; [|exact H]. cbn. tauto.
Qed.

(** ** Sums *)

Lemma total_app (xs ys : list (Z * Z)) : total (xs ++ ys) = total xs + total ys.
Proof. induction xs as [|x xs IH]; cbn [app total]; lia. Qed.

(** ** Pairwise disjoint spans *)

Lemma FOP_app_one {A : Type} (R : A -> A -> Prop) (l : list A) (x : A) :
  ForallOrdPairs R l -> Forall (fun y => R y x) l -> ForallOrdPairs R (l ++ [x]).
Proof.
  induction 1 as [|y l Hy Hl IH]; intros Hall; cbn [app].
  - constructor; constructor.
  - inversion Hall; subst. constructor; [|apply IH; assumption].
    rewrite Forall_app. split; [exact Hy|]. constructor; [assumption|constructor].
Qed.

Lemma FOP_remove_mid {A : Type} (R : A -> A -> Prop) (l1 l2 : list A) (x : A) :
  ForallOrdPairs R (l1 ++ x :: l2) ->
  ForallOrdPairs R (l1 ++ l2)
  /\ Forall (fun y => R y x) l1 /\ Forall (R x) l2.
Proof.
  induction l1 as [|y l1 IH]; cbn [app]; intros H.
  - inversion H; subst. repeat split; [assumption|constructor|assumption].
  - inversion H as [|? ? Hy Hrest]; subst.
    destruct (IH Hrest) as (H1 & H2 & H3).
    rewrite Forall_app in Hy. destruct Hy as [Hy1 Hy2]. inversion Hy2; subst.
    repeat split; [|constructor; assumption|assumption].
    constructor; [|exact H1]. rewrite Forall_app. split; assumption.
Qed.

Lemma disjoint_sym (s t : Z * Z) : disjoint s t -> disjoint t s.
Proof. unfold disjoint. tauto. Qed.

(** ** Addresses of fields *)

Lemma field_small (p off : Z) : in_range (p + off) -> field p off = p + off.
Proof. apply wrap_small. Qed.

Lemma chunk_len_at (m : memory) (c : Z) :
  0 <= c -> c + sizeof_free_heap_chunk <= modulus ->
  chunk_len m c = load m (c + off_len).
Proof.
  intros H0 H1. unfold chunk_len. rewrite field_small; [reflexivity|].
  unfold in_range. rewrite modulus_eq in *. unfold_sizes. lia.
Qed.

Lemma hdr_at (m : memory) (p : Z) :
  sizeof_alloc_struct_begin <= p -> p < modulus ->
  hdr_magic m p = load m (p - 12)
  /\ hdr_ptr m p = load m (p - 8)
  /\ hdr_size m p = load m (p - 4).
Proof.
  intros H0 H1. unfold hdr_magic, hdr_ptr, hdr_size.
  rewrite modulus_eq in H1. unfold_sizes.
  rewrite (wrap_small (p - (4 + 4 + 4))) by (unfold in_range; rewrite modulus_eq; lia).
  rewrite !field_small by (unfold in_range; rewrite modulus_eq; lia).
  repeat split; f_equal; lia.
Qed.

Lemma unchanged_outside_refl (lo hi : Z) (m : memory) : unchanged_outside lo hi m m.
Proof. intros x _. reflexivity. Qed.

Lemma unchanged_outside_store (lo hi : Z) (m m' : memory) (a v : Z) :
  unchanged_outside lo hi m m' -> lo <= a < hi ->
  unchanged_outside lo hi m (store m' a v).
Proof.
  intros H Ha x Hx. rewrite load_store_other by lia. apply H. exact Hx.
Qed.

Lemma unchanged_outside_widen (lo hi lo' hi' : Z) (m m' : memory) :
  unchanged_outside lo hi m m' -> lo' <= lo -> hi <= hi' ->
  unchanged_outside lo' hi' m m'.
Proof. intros H Hlo Hhi x Hx. apply H. lia. Qed.

Lemma unchanged_outside_trans (lo hi : Z) (m1 m2 m3 : memory) :
  unchanged_outside lo hi m1 m2 -> unchanged_outside lo hi m2 m3 ->
  unchanged_outside lo hi m1 m3.
Proof. intros H12 H23 x Hx. rewrite H23, H12 by exact Hx. reflexivity. Qed.

(** A free chunk outside the written range keeps its [len]. *)
Lemma chunk_len_frame (lo hi : Z) (m m' : memory) (c l : Z) :
  unchanged_outside lo hi m m' ->
  0 <= c -> c + l < modulus -> sizeof_free_heap_chunk <= l ->
  c + l <= lo \/ hi <= c ->
  chunk_len m' c = chunk_len m c.
Proof.
  intros H H0 H1 Hl Hd.
  rewrite !chunk_len_at by (unfold_sizes; lia).
  apply H. unfold_sizes. lia.
Qed.

(** An allocation whose span lies outside the written range keeps its
    header. *)
Lemma hdr_frame (lo hi : Z) (m m' : memory) (p b l : Z) :
  unchanged_outside lo hi m m' ->
  0 <= b -> b + sizeof_alloc_struct_begin <= p -> p <= b + l -> b + l < modulus ->
  b + l <= lo \/ hi <= b ->
  hdr_magic m' p = hdr_magic m p /\ hdr_ptr m' p = hdr_ptr m p
  /\ hdr_size m' p = hdr_size m p.
Proof.
  intros H H0 H1 H2 H3 Hd.
  destruct (hdr_at m p) as (-> & -> & ->); [unfold_sizes; lia..|].
  destruct (hdr_at m' p) as (-> & -> & ->); [unfold_sizes; lia..|].
  unfold_sizes. repeat split; apply H; lia.
Qed.

(** ** The user pointer *)

Lemma pow2_mod4 (x k : Z) : 2 <= k -> x mod 2 ^ k = 0 -> x mod sizeof_ptr = 0.
Proof.
  intros Hk Hx. apply Z.mod_divide in Hx; [|apply Z.pow_nonzero; lia].
  apply Z.mod_divide; [unfold_sizes; lia|].
  apply Z.divide_trans with (2 ^ k); [|exact Hx].
  exists (2 ^ (k - 2)). change sizeof_ptr with (2 ^ 2).
  rewrite <- Z.pow_add_r by lia. f_equal. lia.
Qed.

Lemma user_ptr_bounds (n a K room : Z) :
  request_fits n a -> bad_alignment a = false ->
  0 <= K -> K mod sizeof_ptr = 0 ->
  exact_size n a <= room -> K + room < modulus ->
  let p := user_ptr (clamped_alignment a) K in
  K + sizeof_alloc_struct_begin <= p
  /\ p + n <= K + exact_size n a
  /\ p mod sizeof_ptr = 0
  /\ (a <> 0 -> p mod clamped_alignment a = 0).
Proof.
  intros (Hn & Ha & Hfit) Hbad HK HKmod Hroom Hend p.
  assert (Hn0 : 0 <= n) by apply Hn.
  assert (Ha0 : 0 <= a) by apply Ha.
  destruct (exact_size_lower n a Hn0 Ha0) as (Hlow & _ & _).
  subst p. unfold user_ptr.
  destruct (clamped_alignment_pow2 a Ha Hbad) as [[Hc ->]|(k & Hk & Hc)].
  - rewrite Hc in *. cbn [Z.gtb Z.compare].
    rewrite wrap_small by (unfold in_range in *; rewrite modulus_eq in *; unfold_sizes; lia).
    repeat split; [lia|unfold_sizes; lia| |congruence].
    revert HKmod. unfold_sizes. intros. Z.to_euclidean_division_equations. lia.
  - rewrite Hc in *. pose proof (pow2_range k ltac:(lia)) as [Hp1 Hp2].
    destruct (Z.gtb_spec (2 ^ k) 0); [|lia].
    rewrite (wrap_small (K + sizeof_alloc_struct_begin))
      by (unfold in_range in *; rewrite modulus_eq in *; unfold_sizes; lia).
    pose proof (ROUNDUP_bounds (K + sizeof_alloc_struct_begin) k ltac:(lia)
                  ltac:(unfold_sizes; lia) ltac:(unfold_sizes; lia)) as [Hlo Hhi].
    pose proof (ROUNDUP_divide (K + sizeof_alloc_struct_begin) k ltac:(lia)) as Hdiv.
    repeat split; [lia|lia| |intros _; exact Hdiv].
    apply pow2_mod4 with k; [lia|exact Hdiv].
Qed.

(** ** What a fitting request does to the heap *)

Lemma alloc_finish_frame (st : state) (size alignment K hi : Z) :
  let p := user_ptr alignment K in
  K + sizeof_alloc_struct_begin <= p -> p <= hi -> p < modulus -> 0 <= K ->
  unchanged_outside K hi (mem st) (mem (snd (alloc_finish st size alignment K)))
  /\ forall x, p <= x ->
       load (mem (snd (alloc_finish st size alignment K))) x = load (mem st) x.
Proof.
  intros p Hlo Hhi Hmod HK. unfold alloc_finish. fold (user_ptr alignment K). fold p.
  cbn [snd mem set_mem]. rewrite modulus_eq in Hmod. revert Hlo. unfold_sizes. intros Hlo.
  rewrite (wrap_small (p - (4 + 4 + 4))) by (unfold in_range; rewrite modulus_eq; lia).
  rewrite !field_small by (unfold in_range; rewrite modulus_eq; lia).
  split.
  - repeat apply unchanged_outside_store; try lia. apply unchanged_outside_refl.
  - intros x Hx. rewrite !load_store_other by lia. reflexivity.
Qed.

Lemma alloc_take_effect (st : state) (n a : Z) (pre post : list Z) (K : Z) :
  free_list_ok st -> flist st = pre ++ K :: post ->
  request_fits n a -> bad_alignment a = false ->
  exact_size n a <= chunk_len (mem st) K ->
  let size := exact_size n a in
  let lenK := chunk_len (mem st) K in
  let carve := lenK >? size + sizeof_free_heap_chunk in
  exists p st',
    alloc_take st size (clamped_alignment a) K = Some (p, st')
    /\ theheap st'
       = mkheap (base (theheap st)) (len (theheap st))
           (if carve then pre ++ (K + size) :: post else pre ++ post)
    /\ p = user_ptr (clamped_alignment a) K
    /\ hdr_magic (mem st') p = HEAP_MAGIC
    /\ span_of (mem st') p = (K, if carve then size else lenK)
    /\ unchanged_outside K (K + lenK) (mem st) (mem st')
    /\ (carve = true -> chunk_len (mem st') (K + size) = lenK - size).
Proof.
  intros Hok Hl Hreq Hbad Hfit size lenK carve.
  assert (Hin : In K (flist st)) by (rewrite Hl; apply in_elt).
  destruct (free_list_chunk st K Hok Hin)
    as ((Hb & _ & _ & _ & Hend) & (HKmod & HlenKmod & Hmin & Hlo & Hhi)).
  cbn [fst snd] in *. fold lenK in HlenKmod, Hmin, Hhi, Hfit. fold size in Hfit.
  assert (HK0 : 0 <= K) by (unfold_sizes; lia).
  destruct (user_ptr_bounds n a K lenK Hreq Hbad HK0 HKmod Hfit ltac:(lia))
    as (Hp1 & Hp2 & Hp3 & _).
  fold size in Hp2.
  assert (Hn0 : 0 <= n) by apply Hreq.
  assert (Ha0 : 0 <= a) by (destruct Hreq as (_ & Ha & _); apply Ha).
  destruct (exact_size_lower n a Hn0 Ha0) as (_ & Hsz12 & Hszmod).
  fold size in Hsz12, Hszmod.
  assert (Hcl0 : 0 <= clamped_alignment a)
    by (unfold clamped_alignment; destruct (a =? 0); lia).
  assert (Hsizer : in_range size).
  { unfold in_range. split; [unfold_sizes; lia|]. apply Hreq. }
  assert (Hsizemod : size mod sizeof_ptr = 0).
  { unfold size. rewrite <- (normalized_size_exact n a Hreq).
    apply normalized_size_mod; [apply Hreq|exact Hbad]. }
  pose proof (alloc_split_total st size pre post K Hok Hl Hsizer Hsizemod Hfit) as Hsplit.
  cbv zeta in Hsplit. fold lenK in Hsplit. fold carve in Hsplit.
  unfold alloc_take. rewrite Hsplit.
  set (p := user_ptr (clamped_alignment a) K) in *.
  destruct carve eqn:Hcarve.
  - (* split *)
    set (st1 := set_free_list _ (pre ++ (K + size) :: post)).
    pose proof (alloc_finish_header st1 size (clamped_alignment a) K) as (Hm & Hp & Hs).
    rewrite alloc_finish_ptr in Hm, Hp, Hs. fold p in Hm, Hp, Hs.
    destruct (alloc_finish_frame st1 size (clamped_alignment a) K (K + lenK))
      as [Hframe Habove];
      [fold p; lia..|]. fold p in Habove.
    exists p, (snd (alloc_finish st1 size (clamped_alignment a) K)).
    assert (Hbig : size + sizeof_free_heap_chunk < lenK)
      by (subst carve; destruct (Z.gtb_spec lenK (size + sizeof_free_heap_chunk)); [lia|discriminate]).
    assert (Hf1 : field (K + size) off_len = K + size + off_len)
      by (apply field_small; unfold in_range; rewrite modulus_eq in *; unfold_sizes; lia).
    assert (Hf2 : field K off_len = K + off_len)
      by (apply field_small; unfold in_range; rewrite modulus_eq in *; unfold_sizes; lia).
    split; [apply f_equal, surjective_pairing|].
    split; [reflexivity|]. split; [reflexivity|]. split; [exact Hm|].
    split; [unfold span_of; rewrite Hp, Hs; reflexivity|].
    split.
    + eapply unchanged_outside_trans; [|exact Hframe].
      subst st1. cbn [mem set_free_list set_chunk_len set_mem].
      rewrite Hf1, Hf2.
      repeat apply unchanged_outside_store; try (unfold_sizes; lia).
      apply unchanged_outside_refl.
    + intros _. rewrite chunk_len_at by (rewrite ?modulus_eq in *; unfold_sizes; lia).
      rewrite Habove by (unfold_sizes; lia).
      subst st1. cbn [mem set_free_list set_chunk_len set_mem].
      rewrite Hf1, Hf2.
      rewrite load_store_other by (unfold_sizes; lia).
      apply load_store_same.
  - (* the whole chunk *)
    set (st1 := set_free_list st (pre ++ post)).
    pose proof (alloc_finish_header st1 lenK (clamped_alignment a) K) as (Hm & Hp & Hs).
    rewrite alloc_finish_ptr in Hm, Hp, Hs. fold p in Hm, Hp, Hs.
    destruct (alloc_finish_frame st1 lenK (clamped_alignment a) K (K + lenK))
      as [Hframe _];
      [fold p; lia..|].
    exists p, (snd (alloc_finish st1 lenK (clamped_alignment a) K)).
    split; [apply f_equal, surjective_pairing|].
    split; [reflexivity|]. split; [reflexivity|]. split; [exact Hm|].
    split; [unfold span_of; rewrite Hp, Hs; reflexivity|].
    split; [exact Hframe|discriminate].
Qed.

(** ** Frames over lists *)

Lemma chunks_frame (lo hi : Z) (m m' : memory) (h : heap) (l : list Z) :
  unchanged_outside lo hi m m' -> region_ok h ->
  Forall (span_ok h) (map (fun c => (c, chunk_len m c)) l) ->
  Forall (outside lo hi) (map (fun c => (c, chunk_len m c)) l) ->
  map (fun c => (c, chunk_len m' c)) l = map (fun c => (c, chunk_len m c)) l.
Proof.
  intros Hfr (Hb & _ & _ & _ & Hend) Hok Hout.
  rewrite Forall_map in Hok, Hout. rewrite Forall_forall in Hok, Hout.
  apply map_ext_in. intros c Hin. f_equal.
  destruct (Hok c Hin) as (_ & _ & Hmin & Hlo & Hhi). specialize (Hout c Hin).
  unfold outside in Hout. cbn [fst snd] in *.
  apply (chunk_len_frame lo hi) with (l := chunk_len m c); try assumption;
    unfold_sizes; lia.
Qed.

Lemma spans_frame (lo hi : Z) (m m' : memory) (h : heap) (live : list Z) :
  unchanged_outside lo hi m m' -> region_ok h ->
  Forall (span_ok h) (map (span_of m) live) ->
  Forall (hdr_ok m) live ->
  Forall (outside lo hi) (map (span_of m) live) ->
  map (span_of m') live = map (span_of m) live /\ Forall (hdr_ok m') live.
Proof.
  intros Hfr (Hb & _ & _ & _ & Hend) Hok Hhdr Hout.
  rewrite Forall_map in Hok, Hout. rewrite Forall_forall in Hok, Hhdr, Hout.
  assert (Hall : forall p, In p live ->
            hdr_magic m' p = hdr_magic m p /\ hdr_ptr m' p = hdr_ptr m p
            /\ hdr_size m' p = hdr_size m p).
  { intros p Hin.
    destruct (Hok p Hin) as (_ & _ & Hmin & Hlo & Hhi).
    destruct (Hhdr p Hin) as (_ & _ & Hp1 & Hp2). specialize (Hout p Hin).
    unfold outside, span_of in *. cbn [fst snd] in *.
    apply (hdr_frame lo hi) with (b := hdr_ptr m p) (l := hdr_size m p);
      try assumption; unfold_sizes; lia. }
  split.
  - apply map_ext_in. intros p Hin. unfold span_of.
    destruct (Hall p Hin) as (_ & -> & ->). reflexivity.
  - apply Forall_forall. intros p Hin.
    destruct (Hall p Hin) as (Hm & Hp & Hs). destruct (Hhdr p Hin) as (H1 & H2 & H3 & H4).
    unfold hdr_ok. rewrite Hm, Hp, Hs. auto.
Qed.

(** ** Taking a span out of a free chunk *)

Lemma tiling_alloc (h : heap) (cpre cpost ls : list (Z * Z)) (k : Z * Z) (size : Z) :
  tiling_ok h (cpre ++ k :: cpost) ls ->
  sizeof_free_heap_chunk <= size -> size mod sizeof_ptr = 0 -> size <= snd k ->
  tiling_ok h (cpre ++ cpost) (ls ++ [k])
  /\ (size + sizeof_free_heap_chunk < snd k ->
      tiling_ok h (cpre ++ (fst k + size, snd k - size) :: cpost) (ls ++ [(fst k, size)])).
Proof.
  intros (Hreg & Hcs & Hasc & Hls & Hdis & Hfop & Htot) Hmin Hmod Hfit.
  assert (Hs0 : 0 < size) by (unfold_sizes; lia).
  rewrite (ascending_iff_gapped h _ Hcs) in Hasc.
  pose proof (span_ok_nonneg h _ Hcs) as Hpos.
  rewrite Forall_app in Hcs, Hdis, Hpos.
  destruct Hcs as [Hcpre Hcs]. inversion Hcs as [|? ? Hk Hcpost]; subst.
  destruct Hdis as [Hdpre Hdis]. inversion Hdis as [|? ? Hdk Hdpost]; subst.
  destruct Hpos as [Hppre Hpos]. inversion Hpos as [|? ? Hpk Hppost]; subst.
  rewrite gapped_app in Hasc. destruct Hasc as (Hgpre & Hlast & Hgpost).
  cbn [gapped] in Hgpost.
  destruct (gapped_ends _ _ Hppre Hgpre) as [Hle Hends].
  pose proof (gapped_starts _ _ Hppost Hgpost) as Hstarts.
  rewrite total_app in Htot. cbn [total] in Htot.
  destruct Hk as (Hk1 & Hk2 & Hk3 & Hk4 & Hk5).
  split.
  - (* the whole chunk *)
    unfold tiling_ok. split; [exact Hreg|].
    assert (Hcs' : Forall (span_ok h) (cpre ++ cpost))
      by (rewrite Forall_app; split; assumption).
    split; [exact Hcs'|].
    split.
    { rewrite (ascending_iff_gapped h _ Hcs'), gapped_app. split; [exact Hgpre|].
      apply gapped_weaken with (fst k + snd k); [lia|exact Hgpost]. }
    split; [rewrite Forall_app; split; [exact Hls|repeat constructor; assumption]|].
    split.
    { rewrite Forall_app. split.
      - rewrite Forall_forall in Hdpre, Hends |- *. intros c Hin.
        rewrite Forall_app. split; [apply Hdpre, Hin|].
        constructor; [|constructor]. left. specialize (Hends c Hin). lia.
      - rewrite Forall_forall in Hdpost, Hstarts |- *. intros c Hin.
        rewrite Forall_app. split; [apply Hdpost, Hin|].
        constructor; [|constructor]. right. specialize (Hstarts c Hin). lia. }
    split.
    { apply FOP_app_one; [exact Hfop|].
      eapply Forall_impl; [|exact Hdk]. intros s. apply disjoint_sym. }
    rewrite !total_app. cbn [total]. lia.
  - (* split *)
    intros Hbig. unfold tiling_ok. split; [exact Hreg|].
    assert (Hk' : span_ok h (fst k + size, snd k - size)).
    { unfold span_ok. cbn [fst snd]. repeat split; try lia; revert Hk1 Hk2 Hmod;
        unfold_sizes; intros; Z.to_euclidean_division_equations; lia. }
    assert (Ht : span_ok h (fst k, size)).
    { unfold span_ok. cbn [fst snd]. repeat split; try lia; assumption. }
    assert (Hcs' : Forall (span_ok h) (cpre ++ (fst k + size, snd k - size) :: cpost))
      by (rewrite Forall_app; split; [|constructor]; assumption).
    split; [exact Hcs'|].
    split.
    { rewrite (ascending_iff_gapped h _ Hcs'), gapped_app. split; [exact Hgpre|].
      cbn [gapped fst snd]. split; [unfold_sizes; lia|].
      replace (fst k + size + (snd k - size)) with (fst k + snd k) by lia. exact Hgpost. }
    split; [rewrite Forall_app; split; [exact Hls|constructor; [exact Ht|constructor]]|].
    split.
    { rewrite Forall_app. split; [|constructor].
      - rewrite Forall_forall in Hdpre, Hends |- *. intros c Hin.
        rewrite Forall_app. split; [apply Hdpre, Hin|].
        constructor; [|constructor]. left. specialize (Hends c Hin). cbn [fst snd]. lia.
      - rewrite Forall_app. split.
        + eapply Forall_impl; [|exact Hdk]. unfold disjoint. cbn [fst snd]. intros s. lia.
        + constructor; [|constructor]. right. cbn [fst snd]. lia.
      - rewrite Forall_forall in Hdpost, Hstarts |- *. intros c Hin.
        rewrite Forall_app. split; [apply Hdpost, Hin|].
        constructor; [|constructor]. right. specialize (Hstarts c Hin). cbn [fst snd]. lia. }
    split.
    { apply FOP_app_one; [exact Hfop|].
      eapply Forall_impl; [|exact Hdk]. unfold disjoint. cbn [fst snd]. intros s. lia. }
    rewrite !total_app. cbn [total fst snd]. lia.
Qed.

Lemma heap_inv_free_list (st : state) (live : list Z) : heap_inv st live -> free_list_ok st.
Proof. intros ((Hreg & Hcs & Hasc & _) & _). split; [|split]; assumption. Qed.

(** A fitting request served from the chunk [K] keeps the heap well formed
    and hands out a span of [K] that holds the header and the [n] bytes. *)
Lemma heap_alloc_fit_inv (st : state) (live : list Z) (n a : Z)
      (pre post : list Z) (K : Z) :
  heap_inv st live -> request_fits n a -> bad_alignment a = false ->
  flist st = pre ++ K :: post -> exact_size n a <= chunk_len (mem st) K ->
  exists p st' eff,
    alloc_take st (exact_size n a) (clamped_alignment a) K = Some (p, st')
    /\ p <> 0
    /\ span_of (mem st') p = (K, eff)
    /\ ptr_in_span n p (K, eff)
    /\ (a <> 0 -> p mod clamped_alignment a = 0)
    /\ base (theheap st') = base (theheap st) /\ len (theheap st') = len (theheap st)
    /\ heap_inv st' (live ++ [p])
    /\ eff = (if chunk_len (mem st) K >? exact_size n a + sizeof_free_heap_chunk
              then exact_size n a else chunk_len (mem st) K)
    /\ chunks st'
       = map (fun c => (c, chunk_len (mem st) c)) pre
         ++ (if chunk_len (mem st) K >? exact_size n a + sizeof_free_heap_chunk
             then [(K + exact_size n a, chunk_len (mem st) K - exact_size n a)]
             else [])
         ++ map (fun c => (c, chunk_len (mem st) c)) post
    /\ spans st' live = spans st live
    /\ unchanged_outside K (K + chunk_len (mem st) K) (mem st) (mem st')
    /\ p = user_ptr (clamped_alignment a) K.
Proof.
  intros Hinv Hreq Hbad Hl Hfit.
  pose proof (heap_inv_free_list st live Hinv) as Hok.
  destruct Hinv as [Htile Hhdr].
  destruct (alloc_take_effect st n a pre post K Hok Hl Hreq Hbad Hfit)
    as (p & st' & Htake & Hheap & Hp & Hmagic & Hspan & Hframe & Hcarve).
  set (size := exact_size n a) in *. set (lenK := chunk_len (mem st) K) in *.
  assert (Hin : In K (flist st)) by (rewrite Hl; apply in_elt).
  destruct (free_list_chunk st K Hok Hin)
    as ((Hb & Hbmod & Hlen0 & Hlenmod & Hend) & (HKmod & HlenKmod & Hmin & Hlo & Hhi)).
  cbn [fst snd] in *. fold lenK in HlenKmod, Hmin, Hhi.
  assert (HK0 : 0 <= K) by (unfold_sizes; lia).
  destruct (user_ptr_bounds n a K lenK Hreq Hbad HK0 HKmod Hfit ltac:(lia))
    as (Hp1 & Hp2 & Hp3 & Hp4).
  rewrite <- Hp in Hp1, Hp2, Hp3, Hp4. fold size in Hp2.
  assert (Hptr : True /\ p = user_ptr (clamped_alignment a) K) by (split; [exact I|exact Hp]).
  clear Hp.
  assert (Hn0 : 0 <= n) by apply Hreq.
  assert (Ha0 : 0 <= a) by (destruct Hreq as (_ & Ha & _); apply Ha).
  destruct (exact_size_lower n a Hn0 Ha0) as (_ & Hsz12 & _). fold size in Hsz12.
  assert (Hcl0 : 0 <= clamped_alignment a)
    by (unfold clamped_alignment; destruct (a =? 0); lia).
  assert (Hsizemod : size mod sizeof_ptr = 0).
  { unfold size. rewrite <- (normalized_size_exact n a Hreq).
    apply normalized_size_mod; [apply Hreq|exact Hbad]. }
  (* the chunks before and after [K] and the spans handed out lie outside [K] *)
  pose proof (chunks_app st pre post K Hl) as Hchunks. fold lenK in Hchunks.
  set (cpre := map (fun c => (c, chunk_len (mem st) c)) pre) in *.
  set (cpost := map (fun c => (c, chunk_len (mem st) c)) post) in *.
  rewrite Hchunks in Htile.
  pose proof Htile as (Hreg & Hcs & Hasc & Hls & Hdis & Hfop & Htot).
  rewrite (ascending_iff_gapped _ _ Hcs) in Hasc.
  pose proof (span_ok_nonneg _ _ Hcs) as Hpos.
  rewrite Forall_app in Hcs, Hdis, Hpos.
  destruct Hcs as [Hcpre Hcs]. inversion Hcs as [|? ? Hk Hcpost]; subst.
  destruct Hdis as [_ Hdis]. inversion Hdis as [|? ? Hdk _]; subst.
  destruct Hpos as [Hppre Hpos]. inversion Hpos as [|? ? _ Hppost]; subst.
  rewrite gapped_app in Hasc. destruct Hasc as (Hgpre & Hlast & Hgpost).
  cbn [gapped fst snd] in Hlast, Hgpost.
  destruct (gapped_ends _ _ Hppre Hgpre) as [_ Hends].
  pose proof (gapped_starts _ _ Hppost Hgpost) as Hstarts.
  assert (Hopre : Forall (outside K (K + lenK)) cpre).
  { eapply Forall_impl; [|exact Hends]. unfold outside. intros c. lia. }
  assert (Hopost : Forall (outside K (K + lenK)) cpost).
  { eapply Forall_impl; [|exact Hstarts]. unfold outside. intros c. lia. }
  assert (Holive : Forall (outside K (K + lenK)) (spans st live)).
  { eapply Forall_impl; [|exact Hdk]. unfold outside, disjoint. cbn [fst snd]. intros s. lia. }
  pose proof (chunks_frame K (K + lenK) (mem st) (mem st') (theheap st) pre
                Hframe Hreg Hcpre Hopre) as Hfpre.
  pose proof (chunks_frame K (K + lenK) (mem st) (mem st') (theheap st) post
                Hframe Hreg Hcpost Hopost) as Hfpost.
  destruct (spans_frame K (K + lenK) (mem st) (mem st') (theheap st) live
              Hframe Hreg Hls Hhdr Holive) as [Hspans Hhdr'].
  fold cpre in Hfpre. fold cpost in Hfpost.
  set (carve := lenK >? size + sizeof_free_heap_chunk) in *.
  set (eff := if carve then size else lenK) in *.
  assert (Heff : size <= eff /\ eff <= lenK) by (subst eff; destruct carve; lia).
  exists p, st', eff.
  split; [exact Htake|]. split; [unfold_sizes; lia|]. split; [exact Hspan|].
  split; [unfold ptr_in_span; cbn [fst snd]; lia|]. split; [exact Hp4|].
  split; [rewrite Hheap; reflexivity|]. split; [rewrite Hheap; reflexivity|].
  assert (Hspans' : spans st' (live ++ [p]) = spans st live ++ [(K, eff)]).
  { unfold spans. rewrite map_app. cbn [map]. rewrite Hspan. f_equal. exact Hspans. }
  assert (Hhdrp : hdr_ok (mem st') p).
  { unfold hdr_ok. unfold span_of in Hspan. injection Hspan as -> ->.
    repeat split; [exact Hmagic|exact Hp3|lia|lia]. }
  destruct (tiling_alloc (theheap st) cpre cpost (spans st live) (K, lenK) size
              Htile ltac:(lia) Hsizemod Hfit) as [Hwhole Hsplit].
  cbn [fst snd] in Hsplit.
  split.
  { split; [|rewrite Forall_app; split; [exact Hhdr'|constructor; [exact Hhdrp|constructor]]].
    rewrite Hspans'.
    unfold chunks, flist. rewrite Hheap. cbn [free_list].
    subst eff. destruct carve eqn:Hc.
    - assert (Hbig : size + sizeof_free_heap_chunk < lenK)
        by (subst carve; destruct (Z.gtb_spec lenK (size + sizeof_free_heap_chunk)); [lia|discriminate]).
      rewrite map_app. cbn [map]. rewrite Hfpre, Hfpost, (Hcarve eq_refl).
      specialize (Hsplit Hbig).
      destruct Hsplit as (H1 & H2 & H3 & H4 & H5 & H6 & H7).
      repeat split; assumption.
    - rewrite map_app, Hfpre, Hfpost.
      destruct Hwhole as (H1 & H2 & H3 & H4 & H5 & H6 & H7).
      repeat split; assumption. }
  split; [reflexivity|].
  split; [|split; [exact Hspans|split; [exact Hframe|apply Hptr]]].
  unfold chunks, flist. rewrite Hheap. cbn [free_list].
  destruct carve eqn:Hc.
  - rewrite map_app. cbn [map app]. rewrite Hfpre, Hfpost, (Hcarve eq_refl). reflexivity.
  - rewrite map_app, Hfpre, Hfpost. reflexivity.
Qed.

(** [heap_alloc] on a well-formed heap, for a request that does not wrap:
    it returns, either NULL with the heap untouched because no chunk fits,
    or a pointer into a span that holds the request, with the heap well
    formed again. *)
Lemma heap_alloc_spec (st : state) (live : list Z) (n a : Z) :
  heap_inv st live -> request_fits n a -> bad_alignment a = false ->
  exists p st',
    heap_alloc st n a = Some (p, st')
    /\ ((p = 0 /\ st' = st
         /\ Forall (fun c => chunk_len (mem st) c < normalized_size n a) (flist st))
        \/ (p <> 0
            /\ Exists (fun c => normalized_size n a <= chunk_len (mem st) c) (flist st)
            /\ ptr_in_span n p (span_of (mem st') p)
            /\ (a <> 0 -> p mod clamped_alignment a = 0)
            /\ base (theheap st') = base (theheap st)
            /\ len (theheap st') = len (theheap st)
            /\ heap_inv st' (live ++ [p]))).
Proof.
  intros Hinv Hreq Hbad.
  pose proof (heap_inv_free_list st live Hinv) as Hok.
  assert (Ha : in_range a) by apply Hreq.
  unfold heap_alloc. rewrite Hbad, normalize_eq by exact Ha. cbv beta iota.
  set (size := normalized_size n a).
  destruct (Forall_Exists_dec (fun c => chunk_len (mem st) c < size)
              (fun c => Z_lt_dec (chunk_len (mem st) c) size) (flist st))
    as [Hsmall|Hfit].
  - exists 0, st. split; [|left; auto].
    apply alloc_walk_no_fit, no_fit_too_small; assumption.
  - apply Exists_exists in Hfit. destruct Hfit as (K0 & Hin0 & HK0).
    destruct (first_fit_exists st size (flist st) K0 (free_list_lens st Hok) Hin0
                ltac:(lia)) as (pre & K & post & Hl & Hpre & HK).
    assert (HKmod : chunk_len (mem st) K mod sizeof_ptr = 0).
    { pose proof (free_list_lens st Hok) as Hm. rewrite Forall_forall in Hm.
      apply Hm. rewrite Hl. apply in_elt. }
    assert (Hwalk : alloc_walk st size (clamped_alignment a) (flist st)
                    = alloc_take st size (clamped_alignment a) K)
      by (rewrite Hl; apply alloc_walk_first_fit; assumption).
    rewrite Hwalk. clear Hwalk.
    subst size. rewrite (normalized_size_exact n a Hreq) in *.
    destruct (heap_alloc_fit_inv st live n a pre post K Hinv Hreq Hbad Hl HK)
      as (p & st' & eff & Htake & Hp & Hspan & Hin & Hal & Hbase & Hlen & Hinv' & _).
    exists p, st'. split; [exact Htake|right].
    split; [exact Hp|]. split.
    { apply Exists_exists. exists K. split; [rewrite Hl; apply in_elt|exact HK]. }
    rewrite Hspan. auto.
Qed.

(** ** Returning a span to the free chunks *)

Lemma snoc_cases {A : Type} (l : list A) : l = [] \/ exists l0 x, l = l0 ++ [x].
Proof.
  destruct l as [|a l]; [left; reflexivity|right].
  destruct (exists_last (l := a :: l) ltac:(discriminate)) as (l0 & x & E).
  exists l0, x. exact E.
Qed.

Lemma last_end_snoc (lim : Z) (cs : list (Z * Z)) (c : Z * Z) :
  last_end lim (cs ++ [c]) = fst c + snd c.
Proof. rewrite last_end_app. reflexivity. Qed.

Lemma Forall_snoc {A : Type} (P : A -> Prop) (l : list A) (x : A) :
  Forall P (l ++ [x]) <-> Forall P l /\ P x.
Proof.
  rewrite Forall_app. split.
  - intros [H1 H2]. inversion H2; subst. tauto.
  - intros [H1 H2]. split; [exact H1|constructor; [exact H2|constructor]].
Qed.

Lemma tiling_free (h : heap) (cs cpre' cpost' : list (Z * Z)) (s s2 : Z * Z) :
  region_ok h -> Forall (span_ok h) cs -> ascending_apart cs -> span_ok h s ->
  coalesced cs s cpre' s2 cpost' ->
  Forall (span_ok h) (cpre' ++ s2 :: cpost')
  /\ ascending_apart (cpre' ++ s2 :: cpost')
  /\ total (cpre' ++ s2 :: cpost') = total cs + snd s
  /\ fst s2 <= fst s
  /\ forall t, 0 < snd t -> disjoint s t -> Forall (fun c => disjoint c t) cs ->
       Forall (fun c => disjoint c t) (cpre' ++ s2 :: cpost')
       /\ outside (fst s2) (fst s + snd s) t.
Proof.
  intros Hreg Hcs Hasc Hs (cpre & cpost & s1 & -> & Hbelow & Habove & Hprev & Hnext).
  rewrite (ascending_iff_gapped h _ Hcs) in Hasc.
  pose proof (span_ok_nonneg h _ Hcs) as Hpos.
  rewrite Forall_app in Hcs, Hpos. destruct Hcs as [Hcpre Hcpost]. destruct Hpos as [Hppre Hppost].
  rewrite gapped_app in Hasc. destruct Hasc as [Hgpre Hgpost].
  destruct Hs as (Hs1 & Hs2 & Hs3 & Hs4 & Hs5).
  assert (Hsz : 0 < snd s) by (unfold_sizes; lia).
  (* after the merge with the chunk before *)
  assert (Hmid : exists lim,
            Forall (span_ok h) cpre' /\ gapped (base h - 1) cpre'
            /\ lim = last_end (base h - 1) cpre' /\ lim < fst s1
            /\ span_ok h s1 /\ fst s1 + snd s1 = fst s + snd s /\ fst s1 <= fst s
            /\ total cpre' + snd s1 = total cpre + snd s
            /\ Forall (fun c => fst c + snd c <= fst s1) cpre'
            /\ (forall t, 0 < snd t -> disjoint s t -> Forall (fun c => disjoint c t) cpre ->
                  Forall (fun c => disjoint c t) cpre' /\ disjoint s1 t)).
  { destruct Hprev as [(-> & -> & Hne)|(P & -> & HP & ->)].
    - exists (last_end (base h - 1) cpre).
      split; [exact Hcpre|]. split; [exact Hgpre|]. split; [reflexivity|].
      split.
      { destruct (snoc_cases cpre) as [->|(cpre0 & P & ->)]; [cbn; lia|].
        rewrite last_end_snoc. apply Forall_snoc in Hbelow. destruct Hbelow as [_ HP].
        specialize (Hne cpre0 P eq_refl). lia. }
      unfold span_ok. repeat split; try assumption; try lia.
    - apply Forall_snoc in Hcpre, Hbelow, Hppre.
      destruct Hcpre as [Hcpre (HP1 & HP2 & HP3 & HP4 & HP5)].
      destruct Hbelow as [Hbelow _]. destruct Hppre as [Hppre HPpos].
      rewrite gapped_app in Hgpre. destruct Hgpre as [Hgpre [HgP _]].
      exists (last_end (base h - 1) cpre').
      split; [exact Hcpre|]. split; [exact Hgpre|]. split; [reflexivity|].
      cbn [fst snd]. split; [exact HgP|].
      split.
      { unfold span_ok. cbn [fst snd]. repeat split; try lia; try assumption.
        revert HP2 Hs2. unfold_sizes. intros. Z.to_euclidean_division_equations. lia. }
      split; [lia|]. split; [lia|].
      split; [rewrite total_app; cbn [total]; lia|].
      split.
      { destruct (gapped_ends _ _ Hppre Hgpre) as [_ Hends].
        eapply Forall_impl; [|exact Hends]. cbn. intros c. lia. }
      intros t Ht Hst Hall. apply Forall_snoc in Hall. destruct Hall as [Hall HPt].
      split; [exact Hall|]. unfold disjoint in *. cbn [fst snd]. lia. }
  destruct Hmid as (lim & Hcpre' & Hgpre' & -> & Hlim & Hs1ok & Hend1 & Hfst1 & Htot1 & Hbelow1 & Hdis1).
  destruct Hs1ok as (Hs11 & Hs12 & Hs13 & Hs14 & Hs15).
  assert (Hprefix : total (cpre ++ cpost) = total cpre + total cpost) by apply total_app.
  destruct Hnext as [(-> & -> & Hne)|(N & -> & HN & ->)].
  - assert (Hgp : gapped (fst s1 + snd s1) cpost).
    { destruct cpost as [|N cpost0]; [exact I|].
      inversion Habove; subst. cbn [gapped] in Hgpost |- *.
      specialize (Hne N cpost0 eq_refl). split; [lia|tauto]. }
    assert (Hall : Forall (span_ok h) (cpre' ++ s1 :: cpost)).
    { rewrite Forall_app. split; [exact Hcpre'|]. constructor; [|exact Hcpost].
      unfold span_ok. tauto. }
    split; [exact Hall|].
    split; [rewrite (ascending_iff_gapped h _ Hall), gapped_app; cbn [gapped]; tauto|].
    split; [rewrite !total_app; cbn [total]; lia|]. split; [exact Hfst1|].
    intros t Ht Hst Hcs. rewrite Forall_app in Hcs. destruct Hcs as [Hc1 Hc2].
    destruct (Hdis1 t Ht Hst Hc1) as [Hd1 Hd2].
    split.
    + rewrite Forall_app. split; [exact Hd1|]. constructor; assumption.
    + unfold outside, disjoint in *. lia.
  - inversion Hcpost as [|? ? (HN1 & HN2 & HN3 & HN4 & HN5) Hcpost']; subst.
    inversion Hppost as [|? ? HNpos Hppost']; subst.
    inversion Habove as [|? ? HNab Habove']; subst.
    cbn [gapped] in Hgpost. destruct Hgpost as [_ Hgpost].
    assert (Hall : Forall (span_ok h) (cpre' ++ (fst s1, snd s1 + snd N) :: cpost')).
    { rewrite Forall_app. split; [exact Hcpre'|]. constructor; [|exact Hcpost'].
      unfold span_ok. cbn [fst snd]. repeat split; try lia; try assumption.
      revert HN2 Hs12. unfold_sizes. intros. Z.to_euclidean_division_equations. lia. }
    split; [exact Hall|].
    split.
    { rewrite (ascending_iff_gapped h _ Hall), gapped_app. cbn [gapped fst snd].
      split; [exact Hgpre'|]. split; [exact Hlim|].
      replace (fst s1 + (snd s1 + snd N)) with (fst N + snd N) by lia. exact Hgpost. }
    split; [rewrite !total_app; cbn [total fst snd]; lia|]. split; [exact Hfst1|].
    intros t Ht Hst Hcs. rewrite Forall_app in Hcs. destruct Hcs as [Hc1 Hc2].
    inversion Hc2 as [|? ? HNt Hc2']; subst.
    destruct (Hdis1 t Ht Hst Hc1) as [Hd1 Hd2].
    split.
    + rewrite Forall_app. split; [exact Hd1|]. constructor; [|exact Hc2'].
      unfold disjoint in *. cbn [fst snd]. lia.
    + unfold outside, disjoint in *. cbn [fst snd]. lia.
Qed.

(** ** heap_insert_free_chunk, step by step *)

Lemma find_insert_before_split (l : list Z) (S : Z) :
  exists pre post,
    l = pre ++ post /\ Forall (fun c => c <= S) pre
    /\ find_insert_before l S = hd_error post
    /\ forall n, hd_error post = Some n -> S < n.
Proof.
  induction l as [|c l (pre & post & -> & Hpre & Hfind & Hhd)].
  - exists [], []. repeat split; [constructor|discriminate].
  - cbn [find_insert_before]. destruct (Z.ltb_spec S c) as [Hlt|Hge].
    + exists [], (c :: pre ++ post). repeat split; [constructor|].
      intros n [= <-]. exact Hlt.
    + exists (c :: pre), post. repeat split; [constructor; assumption|exact Hfind|exact Hhd].
Qed.

Lemma merge_prev_effect (st : state) (pre post : list Z) (S : Z) :
  flist st = pre ++ S :: post -> ~ In S pre ->
  Forall (fun c => 0 <= c /\ sizeof_free_heap_chunk <= chunk_len (mem st) c
                   /\ c + chunk_len (mem st) c <= S) pre ->
  0 <= chunk_len (mem st) S -> S + chunk_len (mem st) S < modulus ->
  (merge_prev st S = (S, st)
   /\ forall pre0 P, pre = pre0 ++ [P] -> P + chunk_len (mem st) P <> S)
  \/ exists pre0 P,
       pre = pre0 ++ [P] /\ P + chunk_len (mem st) P = S
       /\ field P off_len = P + off_len
       /\ merge_prev st S
          = (P, set_free_list
                  (set_chunk_len st P (chunk_len (mem st) P + chunk_len (mem st) S))
                  (pre0 ++ P :: post)).
Proof.
  intros Hl Hnin Hpre HS0 HSend. unfold merge_prev. rewrite Hl.
  destruct (snoc_cases pre) as [->|(pre0 & P & ->)].
  - left. cbn [app]. rewrite list_prev_first. split; [reflexivity|].
    intros pre0 P E. destruct pre0; discriminate.
  - apply Forall_snoc in Hpre. destruct Hpre as [_ (HP0 & HPmin & HPend)].
    rewrite in_app_iff in Hnin. cbn [In] in Hnin.
    rewrite <- app_assoc. cbn [app].
    rewrite list_prev_after by intuition congruence.
    rewrite modulus_eq in HSend.
    rewrite (wrap_small (P + chunk_len (mem st) P))
      by (unfold in_range; rewrite modulus_eq; unfold_sizes; lia).
    destruct (Z.eqb_spec (P + chunk_len (mem st) P) S) as [Heq|Hne].
    + right. exists pre0, P. split; [reflexivity|]. split; [exact Heq|].
      split; [apply field_small; unfold in_range; rewrite modulus_eq; unfold_sizes; lia|].
      rewrite (wrap_small (chunk_len (mem st) P + chunk_len (mem st) S))
        by (unfold in_range; rewrite modulus_eq; unfold_sizes; lia).
      f_equal. f_equal.
      change (flist (set_chunk_len st P (chunk_len (mem st) P + chunk_len (mem st) S)))
        with (flist st).
      rewrite Hl, <- app_assoc. cbn [app].
      replace (pre0 ++ P :: S :: post) with ((pre0 ++ [P]) ++ S :: post)
        by (rewrite <- app_assoc; reflexivity).
      rewrite list_delete_at by (rewrite in_app_iff; cbn; intuition congruence).
      rewrite <- app_assoc. reflexivity.
    + left. split; [reflexivity|].
      intros pre1 P1 E. apply app_inj_tail in E. destruct E as [_ <-]. exact Hne.
Qed.

Lemma merge_next_effect (st : state) (pre post : list Z) (C : Z) :
  flist st = pre ++ C :: post -> NoDup (flist st) ->
  0 <= C -> 0 <= chunk_len (mem st) C ->
  (forall N post0, post = N :: post0 ->
     C + chunk_len (mem st) C <= N /\ 0 <= chunk_len (mem st) N
     /\ N + chunk_len (mem st) N < modulus) ->
  (merge_next st C (hd_error post) = st
   /\ forall N post0, post = N :: post0 -> C + chunk_len (mem st) C <> N)
  \/ exists N post0,
       post = N :: post0 /\ C + chunk_len (mem st) C = N
       /\ merge_next st C (hd_error post)
          = set_free_list
              (set_chunk_len st C (chunk_len (mem st) C + chunk_len (mem st) N))
              (pre ++ C :: post0).
Proof.
  intros Hl Hnd HC0 HlenC HN. unfold merge_next.
  destruct post as [|N post0]; cbn [hd_error].
  - left. split; [reflexivity|]. intros N post0 E. discriminate.
  - destruct (HN N post0 eq_refl) as (HCN & HlenN & HNend).
    rewrite modulus_eq in HNend.
    rewrite (wrap_small (C + chunk_len (mem st) C))
      by (unfold in_range; rewrite modulus_eq; lia).
    destruct (Z.eqb_spec (C + chunk_len (mem st) C) N) as [Heq|Hne].
    + right. exists N, post0. split; [reflexivity|]. split; [exact Heq|].
      rewrite (wrap_small (chunk_len (mem st) C + chunk_len (mem st) N))
        by (unfold in_range; rewrite modulus_eq; lia).
      f_equal.
      change (flist (set_chunk_len st C (chunk_len (mem st) C + chunk_len (mem st) N)))
        with (flist st).
      rewrite Hl in Hnd |- *.
      replace (pre ++ C :: N :: post0) with ((pre ++ [C]) ++ N :: post0) in Hnd |- *
        by (rewrite <- app_assoc; reflexivity).
      destruct (NoDup_app_mid _ _ _ Hnd) as (HNpre & _ & _).
      rewrite list_delete_at by exact HNpre.
      rewrite <- app_assoc. reflexivity.
    + left. split; [reflexivity|]. intros N1 post1 [= <- <-]. exact Hne.
Qed.

Lemma chunk_len_set_same (st : state) (c v : Z) :
  chunk_len (mem (set_chunk_len st c v)) c = v.
Proof. unfold chunk_len. cbn [set_chunk_len set_mem mem]. apply load_store_same. Qed.

Lemma set_chunk_len_frame (st : state) (c v lo hi : Z) :
  lo <= field c off_len < hi ->
  unchanged_outside lo hi (mem st) (mem (set_chunk_len st c v)).
Proof.
  intros H. cbn [set_chunk_len set_mem mem].
  apply unchanged_outside_store; [apply unchanged_outside_refl|exact H].
Qed.

(** The free chunks once the walk has found the place of a span. *)
Lemma insert_place (st : state) (S sz : Z) :
  region_ok (theheap st) ->
  Forall (span_ok (theheap st)) (chunks st) -> ascending_apart (chunks st) ->
  span_ok (theheap st) (S, sz) ->
  Forall (fun c => disjoint c (S, sz)) (chunks st) ->
  exists pre post,
    flist st = pre ++ post
    /\ find_insert_before (flist st) S = hd_error post
    /\ NoDup (pre ++ S :: post)
    /\ Forall (fun c => fst c + snd c <= S)
         (map (fun c => (c, chunk_len (mem st) c)) pre)
    /\ Forall (fun c => S + sz <= fst c)
         (map (fun c => (c, chunk_len (mem st) c)) post).
Proof.
  intros Hreg Hcs Hasc Hs Hdis.
  destruct (find_insert_before_split (flist st) S) as (pre & post & Hl & Hle & Hfind & Hhd).
  exists pre, post. split; [exact Hl|]. split; [exact Hfind|].
  pose proof (ascending_fst_NoDup _ (span_ok_nonneg _ _ Hcs) Hasc) as Hnd.
  rewrite chunks_fst, Hl in Hnd.
  rewrite (ascending_iff_gapped _ _ Hcs) in Hasc.
  pose proof (span_ok_nonneg _ _ Hcs) as Hpos.
  unfold chunks in Hcs, Hasc, Hdis, Hpos. rewrite Hl, map_app in Hcs, Hasc, Hdis, Hpos.
  set (f := fun c => (c, chunk_len (mem st) c)) in *.
  rewrite Forall_app in Hcs, Hdis, Hpos.
  destruct Hcs as [Hcpre Hcpost]. destruct Hdis as [Hdpre Hdpost].
  destruct Hpos as [Hppre Hppost].
  rewrite gapped_app in Hasc. destruct Hasc as [Hgpre Hgpost].
  destruct Hs as (_ & _ & Hsz & _). cbn [fst snd] in Hsz.
  assert (Hsz0 : 0 < sz) by (unfold_sizes; lia).
  assert (Hbelow : Forall (fun c => fst c + snd c <= S) (map f pre)).
  { rewrite Forall_map in *. rewrite Forall_forall in *. intros c Hin.
    specialize (Hle c Hin). specialize (Hdpre c Hin). destruct (Hcpre c Hin) as (_ & _ & Hc & _).
    unfold disjoint in Hdpre. subst f. cbn [fst snd] in *. unfold_sizes. lia. }
  assert (Hgt : Forall (fun c => S < fst c) (map f post)).
  { destruct post as [|n post0]; [constructor|]. cbn [map] in *.
    specialize (Hhd n eq_refl). constructor; [exact Hhd|].
    destruct Hgpost as [_ Hg]. inversion Hppost as [|? ? Hn Hppost0]; subst.
    pose proof (gapped_starts _ _ Hppost0 Hg) as Hst.
    eapply Forall_impl; [|exact Hst]. subst f. cbn [fst snd] in *. intros c. lia. }
  assert (Habove : Forall (fun c => S + sz <= fst c) (map f post)).
  { rewrite Forall_forall in *. intros c Hin.
    specialize (Hgt c Hin). specialize (Hdpost c Hin). specialize (Hppost c Hin).
    unfold disjoint in Hdpost. cbn [fst snd] in *. lia. }
  split; [|split; assumption].
  (* the span is not in the list *)
  assert (HnS : ~ In S (pre ++ post)).
  { rewrite in_app_iff. intros [Hin|Hin].
    - rewrite Forall_map, Forall_forall in Hbelow, Hcpre.
      specialize (Hbelow S Hin). destruct (Hcpre S Hin) as (_ & _ & Hc & _).
      subst f. cbn [fst snd] in *. unfold_sizes. lia.
    - rewrite Forall_map, Forall_forall in Hgt. specialize (Hgt S Hin).
      subst f. cbn [fst snd] in Hgt. lia. }
  apply (Permutation_NoDup (l := S :: pre ++ post)).
  - apply Permutation_middle.
  - constructor; assumption.
Qed.

Lemma map_snoc_inv {A B : Type} (f : A -> B) (l : list A) (l0 : list B) (x : B) :
  map f l = l0 ++ [x] -> exists l1 y, l = l1 ++ [y] /\ map f l1 = l0 /\ f y = x.
Proof.
  intros E. destruct (snoc_cases l) as [->|(l1 & y & ->)].
  - destruct l0; discriminate.
  - rewrite map_app in E. cbn [map] in E. apply app_inj_tail in E.
    destruct E as [E1 E2]. exists l1, y. auto.
Qed.

Lemma chunks_after (st st2 : state) (pre' post' : list Z) (lo hi : Z) :
  region_ok (theheap st) -> flist st2 = pre' ++ lo :: post' ->
  unchanged_outside lo hi (mem st) (mem st2) ->
  Forall (span_ok (theheap st)) (map (fun c => (c, chunk_len (mem st) c)) pre') ->
  Forall (outside lo hi) (map (fun c => (c, chunk_len (mem st) c)) pre') ->
  Forall (span_ok (theheap st)) (map (fun c => (c, chunk_len (mem st) c)) post') ->
  Forall (outside lo hi) (map (fun c => (c, chunk_len (mem st) c)) post') ->
  chunks st2
  = map (fun c => (c, chunk_len (mem st) c)) pre'
    ++ (lo, chunk_len (mem st2) lo) :: map (fun c => (c, chunk_len (mem st) c)) post'.
Proof.
  intros Hreg Hl Hfr Hs1 Ho1 Hs2 Ho2. unfold chunks. rewrite Hl, map_app. cbn [map].
  rewrite (chunks_frame lo hi (mem st) (mem st2) (theheap st) pre' Hfr Hreg Hs1 Ho1).
  rewrite (chunks_frame lo hi (mem st) (mem st2) (theheap st) post' Hfr Hreg Hs2 Ho2).
  reflexivity.
Qed.

(** What the walk and the insertion of [heap_insert_free_chunk] leave for the
    two merges. *)
Lemma insert_walk (st : state) (S sz : Z) (pre post : list Z) :
  flist st = pre ++ post ->
  find_insert_before (flist st) S = hd_error post ->
  NoDup (pre ++ S :: post) ->
  chunk_len (mem st) S = sz -> in_range (S + sz) ->
  Forall (fun c => S + sz <= fst c) (map (fun c => (c, chunk_len (mem st) c)) post) ->
  heap_insert_free_chunk st S
  = (let '(chunk', st2) := merge_prev (set_free_list st (pre ++ S :: post)) S in
     Some (chunk', merge_next st2 chunk' (hd_error post))).
Proof.
  intros Hl Hfind Hnd Hlen Hrange Habove.
  unfold heap_insert_free_chunk. rewrite Hlen, Hfind, wrap_small by exact Hrange.
  destruct post as [|n post0]; cbn [hd_error].
  - unfold list_add_tail. rewrite Hl, app_nil_r. reflexivity.
  - inversion Habove as [|? ? Hn _]; subst. cbn [fst] in Hn.
    destruct (Z.leb_spec (S + chunk_len (mem st) S) n); [|lia].
    rewrite Hl, list_add_before_at; [reflexivity|].
    destruct (NoDup_app_mid _ _ _ Hnd) as (_ & _ & Hnd0).
    destruct (NoDup_app_mid _ _ _ Hnd0) as (Hn' & _). exact Hn'.
Qed.

(** The merge with the next chunk, from the state the merge with the
    previous chunk left: the chunk at [lo] now covers [lo, S + sz). *)
Lemma merge_next_finish (st stp : state) (S sz lo len1 : Z) (pre' post : list Z) :
  let f := fun c => (c, chunk_len (mem st) c) in
  region_ok (theheap st) ->
  Forall (span_ok (theheap st)) (map f pre') -> Forall (outside lo (S + sz)) (map f pre') ->
  Forall (span_ok (theheap st)) (map f post) ->
  Forall (fun c => S + sz <= fst c) (map f post) ->
  theheap stp = mkheap (base (theheap st)) (len (theheap st)) (pre' ++ lo :: post) ->
  NoDup (pre' ++ lo :: post) ->
  unchanged_outside lo (S + sz) (mem st) (mem stp) ->
  chunk_len (mem stp) lo = len1 -> lo + len1 = S + sz ->
  0 <= lo -> sizeof_free_heap_chunk <= len1 ->
  exists st2 post' flen,
    merge_next stp lo (hd_error post) = st2
    /\ base (theheap st2) = base (theheap st) /\ len (theheap st2) = len (theheap st)
    /\ chunks st2 = map f pre' ++ (lo, flen) :: map f post'
    /\ unchanged_outside lo (S + sz) (mem st) (mem st2)
    /\ ((post' = post /\ flen = len1
         /\ forall N cpost0, map f post = N :: cpost0 -> lo + len1 <> fst N)
        \/ (exists N, map f post = N :: map f post' /\ lo + len1 = fst N
                      /\ flen = len1 + snd N)).
Proof.
  intros f Hreg Hspre Hopre Hspost Habove Hheap Hnd Hfr Hlen Hcover Hlo Hmin.
  pose proof Hreg as (Hb & _ & _ & _ & Hend).
  assert (Hopost : Forall (outside lo (S + sz)) (map f post)).
  { eapply Forall_impl; [|exact Habove]. unfold outside. intros c. lia. }
  assert (Hflist : flist stp = pre' ++ lo :: post) by (unfold flist; rewrite Hheap; reflexivity).
  assert (HlenN : forall N, In N post ->
            chunk_len (mem stp) N = chunk_len (mem st) N
            /\ S + sz <= N /\ 0 <= chunk_len (mem st) N
            /\ N + chunk_len (mem st) N < modulus).
  { intros N Hin. rewrite Forall_map, Forall_forall in Hspost, Habove.
    destruct (Hspost N Hin) as (_ & _ & HN3 & HN4 & HN5). specialize (Habove N Hin).
    subst f. cbn [fst snd] in *. split; [|unfold_sizes; lia].
    apply (chunk_len_frame lo (S + sz)) with (l := chunk_len (mem st) N);
      try assumption; unfold_sizes; lia. }
  destruct (merge_next_effect stp pre' post lo Hflist ltac:(rewrite Hflist; exact Hnd) Hlo
              ltac:(rewrite Hlen; unfold_sizes; lia)) as [[Hmn Hne]|(N & post0 & -> & HN & Hmn)].
  { intros N post0 ->. destruct (HlenN N ltac:(left; reflexivity)) as (-> & H1 & H2 & H3).
    rewrite Hlen. repeat split; lia. }
  - exists stp, post, len1. split; [exact Hmn|].
    split; [rewrite Hheap; reflexivity|]. split; [rewrite Hheap; reflexivity|].
    split.
    { rewrite <- Hlen. apply (chunks_after st stp pre' post lo (S + sz)); assumption. }
    split; [exact Hfr|]. left. split; [reflexivity|]. split; [reflexivity|].
    intros N cpost0 E. destruct post as [|N0 post0]; [discriminate|].
    cbn [map] in E. injection E as <- _. subst f. cbn [fst].
    specialize (Hne N0 post0 eq_refl). rewrite Hlen in Hne. exact Hne.
  - destruct (HlenN N ltac:(left; reflexivity)) as (HNlen & H1 & H2 & H3).
    rewrite HNlen, Hlen in Hmn. rewrite Hlen in HN.
    set (st2 := set_free_list _ (pre' ++ lo :: post0)) in Hmn.
    exists st2, post0, (len1 + chunk_len (mem st) N). split; [exact Hmn|].
    split; [subst st2; cbn; rewrite Hheap; reflexivity|].
    split; [subst st2; cbn; rewrite Hheap; reflexivity|].
    assert (Hfield : field lo off_len = lo + off_len)
      by (apply field_small; unfold in_range; rewrite modulus_eq in *; unfold_sizes; lia).
    assert (Hfr2 : unchanged_outside lo (S + sz) (mem st) (mem st2)).
    { eapply unchanged_outside_trans; [exact Hfr|]. subst st2. cbn [set_free_list mem].
      apply set_chunk_len_frame. rewrite Hfield. unfold_sizes. lia. }
    pose proof (Forall_inv_tail Hspost) as Hspost0.
    pose proof (Forall_inv_tail Hopost) as Hopost0.
    split.
    { replace (len1 + chunk_len (mem st) N) with (chunk_len (mem st2) lo)
        by (subst st2; cbn [set_free_list mem]; apply chunk_len_set_same).
      apply (chunks_after st st2 pre' post0 lo (S + sz)); try assumption. reflexivity. }
    split; [exact Hfr2|]. right. exists (f N). subst f. cbn [map fst snd].
    repeat split. exact HN.
Qed.

(** [heap_insert_free_chunk] on a span that overlaps no free chunk: the
    assertion of line 146 holds and the free list becomes the coalesced
    one; memory changes only inside the resulting chunk, below the end of
    the span. *)
Lemma heap_insert_effect (st : state) (S sz : Z) :
  region_ok (theheap st) ->
  Forall (span_ok (theheap st)) (chunks st) -> ascending_apart (chunks st) ->
  span_ok (theheap st) (S, sz) -> chunk_len (mem st) S = sz ->
  Forall (fun c => disjoint c (S, sz)) (chunks st) ->
  exists st2 cpre' s2 cpost',
    heap_insert_free_chunk st S = Some (fst s2, st2)
    /\ base (theheap st2) = base (theheap st) /\ len (theheap st2) = len (theheap st)
    /\ chunks st2 = cpre' ++ s2 :: cpost'
    /\ unchanged_outside (fst s2) (S + sz) (mem st) (mem st2)
    /\ coalesced (chunks st) (S, sz) cpre' s2 cpost'.
Proof.
  intros Hreg Hcs Hasc Hs Hlen Hdis.
  destruct (insert_place st S sz Hreg Hcs Hasc Hs Hdis)
    as (pre & post & Hl & Hfind & Hnd & Hbelow & Habove).
  set (f := fun c => (c, chunk_len (mem st) c)) in *.
  assert (Hchunks : chunks st = map f pre ++ map f post)
    by (unfold chunks; rewrite Hl, map_app; reflexivity).
  pose proof Hreg as (Hb & _ & _ & _ & Hend).
  pose proof Hs as (HSmod & Hszmod & Hszmin & HSlo & HShi). cbn [fst snd] in *.
  rewrite (ascending_iff_gapped _ _ Hcs) in Hasc.
  pose proof (span_ok_nonneg _ _ Hcs) as Hpos.
  rewrite Hchunks in Hcs, Hasc, Hpos.
  rewrite Forall_app in Hcs, Hpos. destruct Hcs as [Hcpre Hcpost]. destruct Hpos as [Hppre _].
  rewrite gapped_app in Hasc. destruct Hasc as [Hgpre _].
  destruct (NoDup_app_mid _ _ _ Hnd) as (HSpre & _ & Hnd0).
  assert (Hrange : in_range (S + sz))
    by (unfold in_range; rewrite modulus_eq in *; unfold_sizes; lia).
  rewrite (insert_walk st S sz pre post Hl Hfind Hnd Hlen Hrange Habove).
  set (sti := set_free_list st (pre ++ S :: post)).
  assert (Hprev : Forall (fun c => 0 <= c /\ sizeof_free_heap_chunk <= chunk_len (mem sti) c
                                   /\ c + chunk_len (mem sti) c <= S) pre).
  { rewrite Forall_map in Hcpre, Hbelow. rewrite Forall_forall in *. intros c Hin.
    destruct (Hcpre c Hin) as (_ & _ & H3 & H4 & _). specialize (Hbelow c Hin).
    subst f. cbn [fst snd] in *. cbn [sti set_free_list mem]. unfold_sizes. lia. }
  destruct (merge_prev_effect sti pre post S eq_refl HSpre Hprev
              ltac:(cbn [sti set_free_list mem]; rewrite Hlen; unfold_sizes; lia)
              ltac:(cbn [sti set_free_list mem]; rewrite Hlen; apply Hrange))
    as [[Hmp Hne]|(pre0 & P & -> & HP & HfP & Hmp)].
  - (* the previous chunk, if any, ends below the span *)
    rewrite Hmp.
    assert (Hopre : Forall (outside S (S + sz)) (map f pre)).
    { eapply Forall_impl; [|exact Hbelow]. unfold outside. intros c. lia. }
    destruct (merge_next_finish st sti S sz S sz pre post Hreg Hcpre Hopre Hcpost Habove
                eq_refl Hnd (unchanged_outside_refl _ _ _) Hlen eq_refl
                ltac:(unfold_sizes; lia) Hszmin)
      as (st2 & post' & flen & Hmn & Hbase & Hlen2 & Hch2 & Hfr2 & Hnext).
    fold f in Hch2, Hnext.
    exists st2, (map f pre), (S, flen), (map f post'). cbn [fst].
    split; [rewrite Hmn; reflexivity|]. split; [exact Hbase|]. split; [exact Hlen2|].
    split; [exact Hch2|]. split; [exact Hfr2|].
    rewrite Hchunks. exists (map f pre), (map f post), (S, sz). cbn [fst snd].
    split; [reflexivity|]. split; [exact Hbelow|]. split; [exact Habove|].
    split.
    + left. split; [reflexivity|]. split; [reflexivity|].
      intros cpre0 Pp E. apply map_snoc_inv in E. destruct E as (pre1 & P & -> & _ & <-).
      subst f. cbn [fst snd]. apply (Hne pre1 P eq_refl).
    + destruct Hnext as [(-> & -> & Hnn)|(N & HN1 & HN2 & ->)].
      * left. auto.
      * right. exists N. auto.
  - (* the previous chunk ends where the span starts *)
    cbn [sti set_free_list mem] in HP, Hmp. rewrite Hlen in Hmp.
    set (lenP := chunk_len (mem st) P) in *.
    rewrite Hmp.
    set (stp := set_free_list _ (pre0 ++ P :: post)) in *.
    rewrite map_app in Hcpre, Hbelow, Hppre, Hgpre. cbn [map] in Hcpre, Hbelow, Hppre, Hgpre.
    apply Forall_snoc in Hcpre, Hppre. destruct Hcpre as [Hcpre0 HPok]. destruct Hppre as [Hppre0 _].
    rewrite gapped_app in Hgpre. destruct Hgpre as [Hgpre0 [HgP _]].
    destruct HPok as (HP1 & HP2 & HP3 & HP4 & HP5). subst f. cbn [fst snd] in *.
    set (f := fun c => (c, chunk_len (mem st) c)) in *. fold lenP in HP2, HP3, HP5.
    assert (Hopre0 : Forall (outside P (S + sz)) (map f pre0)).
    { destruct (gapped_ends _ _ Hppre0 Hgpre0) as [_ Hends].
      eapply Forall_impl; [|exact Hends]. unfold outside. cbn. intros c. lia. }
    assert (Hfrp : unchanged_outside P (S + sz) (mem st) (mem stp)).
    { subst stp. cbn [set_free_list set_chunk_len set_mem mem sti].
      apply unchanged_outside_store; [apply unchanged_outside_refl|].
      rewrite HfP. unfold_sizes. lia. }
    assert (Hndp : NoDup (pre0 ++ P :: post)).
    { rewrite <- app_assoc in Hnd0. exact Hnd0. }
    destruct (merge_next_finish st stp S sz P (lenP + sz) pre0 post Hreg Hcpre0 Hopre0
                Hcpost Habove eq_refl Hndp Hfrp
                ltac:(subst stp; cbn [set_free_list mem]; apply chunk_len_set_same)
                ltac:(lia) ltac:(unfold_sizes; lia) ltac:(unfold_sizes; lia))
      as (st2 & post' & flen & Hmn & Hbase & Hlen2 & Hch2 & Hfr2 & Hnext).
    fold f in Hch2, Hnext.
    exists st2, (map f pre0), (P, flen), (map f post'). cbn [fst].
    split; [rewrite Hmn; reflexivity|]. split; [exact Hbase|]. split; [exact Hlen2|].
    split; [exact Hch2|]. split; [exact Hfr2|].
    rewrite Hchunks. exists (map f (pre0 ++ [P])), (map f post), (P, lenP + sz). cbn [fst snd].
    split; [reflexivity|].
    split; [rewrite map_app; exact Hbelow|]. split; [exact Habove|].
    split.
    + right. exists (f P). rewrite map_app. subst f. cbn [map fst snd]. auto.
    + destruct Hnext as [(-> & -> & Hnn)|(N & HN1 & HN2 & ->)].
      * left. auto.
      * right. exists N. auto.
Qed.

(** ** heap_free on a well-formed heap *)

Lemma nth_error_remove {A : Type} (l : list A) (i : nat) (x : A) :
  nth_error l i = Some x ->
  exists l1 l2, l = l1 ++ x :: l2 /\ remove_nth i l = l1 ++ l2.
Proof.
  revert i. induction l as [|y l IH]; intros [|i] H; cbn in H; try discriminate.
  - injection H as ->. exists [], l. auto.
  - destruct (IH i H) as (l1 & l2 & -> & E). exists (y :: l1), l2.
    cbn [remove_nth app]. rewrite E. auto.
Qed.

Lemma Forall_transpose {A B : Type} (R : A -> B -> Prop) (xs : list A) (ys : list B) :
  Forall (fun x => Forall (R x) ys) xs <-> Forall (fun y => Forall (fun x => R x y) xs) ys.
Proof.
  rewrite !Forall_forall. split; intros H a Ha; rewrite Forall_forall; intros b Hb;
    specialize (H b Hb); rewrite Forall_forall in H; apply H, Ha.
Qed.

Lemma heap_free_spec (st : state) (live : list Z) (i : nat) (p : Z) :
  heap_inv st live -> nth_error live i = Some p ->
  exists st',
    heap_free st p = Some st'
    /\ base (theheap st') = base (theheap st) /\ len (theheap st') = len (theheap st)
    /\ heap_inv st' (remove_nth i live)
    /\ spans st' (remove_nth i live) = spans st (remove_nth i live)
    /\ exists cpre' s2 cpost',
         chunks st' = cpre' ++ s2 :: cpost'
         /\ coalesced (chunks st) (span_of (mem st) p) cpre' s2 cpost'
         /\ unchanged_outside (fst s2) (hdr_ptr (mem st) p + hdr_size (mem st) p)
              (mem st) (mem st')
         /\ Forall (outside (fst s2) (hdr_ptr (mem st) p + hdr_size (mem st) p))
              (spans st (remove_nth i live)).
Proof.
  intros [Htile Hhdr] Hnth.
  destruct (nth_error_remove live i p Hnth) as (l1 & l2 & -> & ->).
  destruct Htile as (Hreg & Hcs & Hasc & Hls & Hdis & Hfop & Htot).
  pose proof Hreg as (Hb & _ & _ & _ & Hend).
  unfold spans in Hls, Hdis, Hfop, Htot. rewrite map_app in Hls, Hdis, Hfop, Htot.
  cbn [map] in Hls, Hdis, Hfop, Htot.
  set (m := mem st) in *. set (S := hdr_ptr m p) in *. set (sz := hdr_size m p) in *.
  assert (Hsp : span_of m p = (S, sz)) by reflexivity. rewrite Hsp in *.
  (* the allocation given back *)
  rewrite Forall_app in Hhdr, Hls. destruct Hhdr as [Hhdr1 Hhdr2]. destruct Hls as [Hls1 Hls2].
  apply Forall_cons_iff in Hhdr2, Hls2.
  destruct Hhdr2 as [(Hmagic & Hpmod & Hp1 & Hp2) Hhdr2]. destruct Hls2 as [Hs Hls2].
  fold S sz in Hp1, Hp2.
  pose proof Hs as (HSmod & Hszmod & Hszmin & HSlo & HShi). cbn [fst snd] in *.
  destruct (FOP_remove_mid _ _ _ _ Hfop) as (Hfop' & Hd1 & Hd2).
  apply Forall_transpose in Hdis. rewrite Forall_app in Hdis. destruct Hdis as [Hdis1 Hdis2].
  apply Forall_cons_iff in Hdis2. destruct Hdis2 as [Hdiss Hdis2].
  rewrite total_app in Htot. cbn [total snd] in Htot.
  (* heap_create_free_chunk *)
  set (st1 := set_chunk_len st S sz).
  assert (HfS : field S off_len = S + off_len)
    by (apply field_small; unfold in_range; rewrite modulus_eq in *; unfold_sizes; lia).
  assert (Hfr1 : unchanged_outside S (S + sz) m (mem st1)).
  { subst st1. apply set_chunk_len_frame. rewrite HfS. unfold_sizes. lia. }
  assert (Hch1 : chunks st1 = chunks st).
  { unfold chunks. change (flist st1) with (flist st).
    apply (chunks_frame S (S + sz) m (mem st1) (theheap st)); assumption. }
  destruct (heap_insert_effect st1 S sz Hreg
              ltac:(rewrite Hch1; exact Hcs) ltac:(rewrite Hch1; exact Hasc) Hs
              ltac:(subst st1; apply chunk_len_set_same)
              ltac:(rewrite Hch1; exact Hdiss))
    as (st2 & cpre' & s2 & cpost' & Hins & Hbase & Hlen & Hch2 & Hfr2 & Hco).
  rewrite Hch1 in Hco.
  destruct (tiling_free _ _ _ _ _ _ Hreg Hcs Hasc Hs Hco)
    as (Hcs2 & Hasc2 & Htot2 & Hlo2 & Hrest).
  cbn [fst snd] in *.
  exists st2. split.
  { unfold heap_free. destruct (Z.eqb_spec p 0); [unfold_sizes; lia|].
    change (load (mem st) (field (wrap (p - sizeof_alloc_struct_begin)) off_magic))
      with (hdr_magic m p).
    change (load (mem st) (field (wrap (p - sizeof_alloc_struct_begin)) off_ptr)) with S.
    change (load (mem st) (field (wrap (p - sizeof_alloc_struct_begin)) off_size)) with sz.
    rewrite Hmagic, Z.eqb_refl. unfold heap_create_free_chunk. rewrite Hszmod. cbn [Z.eqb].
    fold st1. rewrite Hins. reflexivity. }
  split; [exact Hbase|]. split; [exact Hlen|].
  (* the allocations that stay *)
  assert (Hfr : unchanged_outside (fst s2) (S + sz) m (mem st2)).
  { eapply unchanged_outside_trans; [|exact Hfr2].
    eapply unchanged_outside_widen; [exact Hfr1|lia|lia]. }
  assert (Hlive : Forall (fun t => 0 < snd t /\ disjoint (S, sz) t
                                   /\ Forall (fun c => disjoint c t) (chunks st))
                    (map (span_of m) (l1 ++ l2))).
  { rewrite map_app, Forall_app. split; apply Forall_forall; intros t Hin.
    - rewrite Forall_forall in Hls1, Hd1, Hdis1.
      destruct (Hls1 t Hin) as (_ & _ & H3 & _).
      split; [unfold_sizes; lia|]. split; [apply disjoint_sym, Hd1, Hin|apply Hdis1, Hin].
    - rewrite Forall_forall in Hls2, Hd2, Hdis2.
      destruct (Hls2 t Hin) as (_ & _ & H3 & _).
      split; [unfold_sizes; lia|]. split; [apply Hd2, Hin|apply Hdis2, Hin]. }
  assert (Hout : Forall (outside (fst s2) (S + sz)) (map (span_of m) (l1 ++ l2))).
  { eapply Forall_impl; [|exact Hlive]. intros t (Ht & Hst & Hct).
    apply (Hrest t Ht Hst Hct). }
  destruct (spans_frame (fst s2) (S + sz) m (mem st2) (theheap st) (l1 ++ l2) Hfr Hreg
              ltac:(rewrite map_app, Forall_app; split; assumption)
              ltac:(rewrite Forall_app; split; assumption) Hout) as [Hspans Hhdr'].
  split; [|split; [exact Hspans|exists cpre', s2, cpost'; auto]].
  split; [|exact Hhdr'].
  unfold tiling_ok, spans. rewrite Hspans, Hch2.
  assert (Hheap2 : region_ok (theheap st2)
                   /\ forall s, span_ok (theheap st2) s <-> span_ok (theheap st) s).
  { unfold region_ok, span_ok in *. rewrite Hbase, Hlen. split; [exact Hreg|tauto]. }
  destruct Hheap2 as [Hreg2 Hspan2].
  split; [exact Hreg2|].
  split; [eapply Forall_impl; [|exact Hcs2]; intros s; apply Hspan2|].
  split; [exact Hasc2|].
  split.
  { rewrite map_app, Forall_app.
    split; [eapply Forall_impl; [|exact Hls1]|eapply Forall_impl; [|exact Hls2]];
      intros s; apply Hspan2. }
  split.
  { apply Forall_transpose. eapply Forall_impl; [|exact Hlive].
    intros t (Ht & Hst & Hct). apply (Hrest t Ht Hst Hct). }
  split; [rewrite map_app; exact Hfop'|].
  rewrite Htot2, Hlen, map_app, total_app. cbn [snd].
  change (len (theheap st1)) with (len (theheap st)). lia.
Qed.

(** ** heap_init and runs *)

Lemma heap_init_spec (_end _end_of_ram : Z) (m : memory) :
  symbols_ok _end _end_of_ram ->
  exists st,
    heap_init _end _end_of_ram m = Some st
    /\ base (theheap st) = _end /\ len (theheap st) = _end_of_ram - _end
    /\ chunks st = [(_end, _end_of_ram - _end)]
    /\ heap_inv st [].
Proof.
  intros (He & Hemod & Hrmod & Hmin & Hr).
  assert (Hlen : wrap (_end_of_ram - _end) = _end_of_ram - _end)
    by (apply wrap_small; unfold in_range; rewrite modulus_eq in *; unfold_sizes; lia).
  assert (Hmod : (_end_of_ram - _end) mod sizeof_ptr = 0) by word_arith.
  assert (Hf : field _end off_len = _end + off_len)
    by (apply field_small; unfold in_range; rewrite modulus_eq in *; unfold_sizes; lia).
  unfold heap_init. rewrite Hlen. cbn [theheap base len].
  unfold heap_create_free_chunk. rewrite Hmod. cbn [Z.eqb].
  set (st1 := set_chunk_len _ _end (_end_of_ram - _end)).
  assert (Hins : heap_insert_free_chunk st1 _end = Some (_end, set_free_list st1 [_end])).
  { unfold heap_insert_free_chunk. cbn [st1 flist theheap free_list set_chunk_len set_mem
      find_insert_before list_add_tail app].
    unfold merge_prev. cbn [flist theheap free_list set_free_list].
    rewrite list_prev_first. reflexivity. }
  rewrite Hins. eexists. split; [reflexivity|].
  cbn [set_free_list theheap base len st1 set_chunk_len set_mem].
  split; [reflexivity|]. split; [reflexivity|].
  assert (Hch : chunks (set_free_list st1 [_end]) = [(_end, _end_of_ram - _end)]).
  { unfold chunks. cbn [flist set_free_list theheap free_list map mem].
    subst st1. rewrite chunk_len_set_same. reflexivity. }
  split; [exact Hch|]. split; [|constructor].
  unfold tiling_ok. rewrite Hch. cbn [spans map total snd theheap set_free_list base len st1
    set_chunk_len set_mem].
  split; [unfold region_ok; cbn [base len]; repeat split; try assumption;
          unfold_sizes; lia|].
  split; [constructor; [|constructor];
          unfold span_ok; cbn [fst snd base len]; repeat split; try assumption;
          unfold_sizes; lia|].
  split; [exact I|]. split; [constructor|].
  split; [repeat constructor|]. split; [constructor|]. lia.
Qed.

(** Every run of requests that do not wrap goes through (no assertion
    fails) and leaves the heap and the pointers held well formed. *)
Lemma run_inv (ops : list op) (st : state) (live : list Z) :
  heap_inv st live -> Forall op_fits ops ->
  exists st' live',
    run st live ops = Some (st', live')
    /\ base (theheap st') = base (theheap st) /\ len (theheap st') = len (theheap st)
    /\ heap_inv st' live'.
Proof.
  revert st live. induction ops as [|o ops IH]; intros st live Hinv Hfits.
  - exists st, live. auto.
  - inversion Hfits as [|? ? Hfit Hfits']; subst. cbn [run].
    assert (Hstep : exists st1 live1,
              step st live o = Some (st1, live1)
              /\ base (theheap st1) = base (theheap st)
              /\ len (theheap st1) = len (theheap st)
              /\ heap_inv st1 live1).
    { destruct o as [n a|i]; cbn [step].
      - destruct (bad_alignment a) eqn:Hbad.
        { exists st, live. unfold heap_alloc. rewrite Hbad. auto. }
        destruct Hfit as [Hf|Hreq]; [congruence|].
        destruct (heap_alloc_spec st live n a Hinv Hreq Hbad)
          as (p & st1 & -> & [(-> & -> & _)|(Hp & _ & _ & _ & Hb & Hl & Hinv1)]).
        + exists st, live. auto.
        + exists st1, (live ++ [p]). destruct (Z.eqb_spec p 0); [contradiction|]. auto.
      - destruct (nth_error live i) as [p|] eqn:Hnth.
        + destruct (heap_free_spec st live i p Hinv Hnth) as (st1 & -> & Hb & Hl & Hinv1 & _).
          exists st1, (remove_nth i live). auto.
        + exists st, live. auto. }
    destruct Hstep as (st1 & live1 & -> & Hb1 & Hl1 & Hinv1).
    destruct (IH st1 live1 Hinv1 Hfits') as (st' & live' & Hrun & Hb & Hl & Hinv').
    exists st', live'. rewrite Hrun, Hb, Hl. auto.
Qed.

Lemma run_from_inv (_end _end_of_ram : Z) (m : memory) (ops : list op) :
  symbols_ok _end _end_of_ram -> Forall op_fits ops ->
  exists st live,
    run_from _end _end_of_ram m ops = Some (st, live)
    /\ base (theheap st) = _end /\ len (theheap st) = _end_of_ram - _end
    /\ heap_inv st live.
Proof.
  intros Hsym Hfits. unfold run_from.
  destruct (heap_init_spec _end _end_of_ram m Hsym) as (st0 & -> & Hb0 & Hl0 & _ & Hinv0).
  destruct (run_inv ops st0 [] Hinv0 Hfits) as (st & live & Hrun & Hb & Hl & Hinv).
  exists st, live. rewrite Hrun, Hb, Hl. auto.
Qed.

(** The sequence of [heap_test] on a region of 1 MiB: six blocks, freed in
    the order 5, 1, 3, 0, 4, 2, leave the one chunk [heap_init] made. *)
Example heap_test_sequence :
  observe (run_from 0x100000 0x200000 zero_memory
             [op_alloc 8 0; op_alloc 32 0; op_alloc 7 0; op_alloc 0 0;
              op_alloc 98713 0; op_alloc 16 0])
  = Some ([(0x118224, 0xE7DDC)],
          [0x10000C; 0x100020; 0x10004C; 0x100060; 0x10006C; 0x118214],
          [(0x100000, 20); (0x100014, 44); (0x100040, 20); (0x100054, 12);
           (0x100060, 98728); (0x118208, 28)])
  /\ observe (run_from 0x100000 0x200000 zero_memory
                [op_alloc 8 0; op_alloc 32 0; op_alloc 7 0; op_alloc 0 0;
                 op_alloc 98713 0; op_alloc 16 0;
                 op_free 5; op_free 1; op_free 2; op_free 0; op_free 1; op_free 0])
     = Some ([(0x100000, 0x100000)], [], []).
Proof. split; vm_compute; reflexivity. Qed.

(** An aligned block: [heap_alloc(1, 128)] returns a multiple of 128, and
    freeing it gives the one chunk back. *)
Example aligned_round_trip :
  observe (run_from 0x100008 0x101008 zero_memory [op_alloc 1 128])
  = Some ([(0x100098, 0xF70)], [0x100080], [(0x100008, 144)])
  /\ 0x100080 mod 128 = 0
  /\ observe (run_from 0x100008 0x101008 zero_memory [op_alloc 1 128; op_free 0])
     = Some ([(0x100008, 0x1000)], [], []).
Proof. repeat split; vm_compute; reflexivity. Qed.

(** A region of exactly the normalized size plus one free chunk header is
    consumed whole, and the next request is turned down. *)
Example consumed_whole :
  normalized_size 8 0 + sizeof_free_heap_chunk = 0x100028 - 0x100008
  /\ observe (run_from 0x100008 0x100028 zero_memory [op_alloc 8 0])
     = Some ([], [0x100014], [(0x100008, 32)])
  /\ observe (run_from 0x100008 0x100028 zero_memory [op_alloc 8 0; op_alloc 1 0])
     = Some ([], [0x100014], [(0x100008, 32)]).
Proof. repeat split; vm_compute; reflexivity. Qed.

(** ** The properties that wrapped sizes break *)

Lemma gapped_extent (lim : Z) (cs : list (Z * Z)) :
  Forall (fun d => 0 <= snd d) cs -> gapped lim cs ->
  lim + total cs + Z.of_nat (length cs) <= last_end lim cs.
Proof.
  revert lim. induction cs as [|c cs IH]; intros lim Hpos Hg; cbn [total length last_end].
  - lia.
  - inversion Hpos as [|? ? Hc Hpos']; subst. destruct Hg as [Hlt Hg].
    specialize (IH _ Hpos' Hg). lia.
Qed.

Lemma last_end_le (lim hi : Z) (cs : list (Z * Z)) :
  Forall (fun c => fst c + snd c <= hi) cs -> lim <= hi -> last_end lim cs <= hi.
Proof.
  revert lim. induction cs as [|c cs IH]; intros lim Hall Hlim; cbn [last_end]; [exact Hlim|].
  inversion Hall; subst. apply IH; assumption.
Qed.

(** Free chunks that are as long as the region are one chunk: the region. *)
Lemma tiling_single (h : heap) (cs : list (Z * Z)) :
  region_ok h -> Forall (span_ok h) cs -> ascending_apart cs ->
  total cs = len h -> 0 < len h ->
  cs = [(base h, len h)].
Proof.
  intros Hreg Hcs Hasc Htot Hlen.
  rewrite (ascending_iff_gapped h _ Hcs) in Hasc.
  pose proof (gapped_extent _ _ (span_ok_nonneg h _ Hcs) Hasc) as Hext.
  assert (Hle : last_end (base h - 1) cs <= base h + len h).
  { apply last_end_le; [|lia].
    eapply Forall_impl; [|exact Hcs]. intros c (_ & _ & _ & _ & H). exact H. }
  destruct cs as [|c [|d cs]]; cbn [length total] in *; try lia.
  inversion Hcs as [|? ? (_ & _ & _ & Hlo & Hhi) _]; subst.
  destruct c as [b l]. cbn [fst snd] in *. f_equal. f_equal; lia.
Qed.

(** C1 for requests that do not wrap: after every run from [heap_init] the
    free list is strictly ascending with a gap between consecutive chunks. *)
Lemma fitting_runs_keep_order (_end _end_of_ram : Z) (m : memory) (ops : list op) :
  symbols_ok _end _end_of_ram -> Forall op_fits ops ->
  exists st live,
    run_from _end _end_of_ram m ops = Some (st, live) /\ ascending_apart (chunks st).
Proof.
  intros Hsym Hfits.
  destruct (run_from_inv _end _end_of_ram m ops Hsym Hfits)
    as (st & live & Hrun & _ & _ & (_ & _ & Hasc & _) & _).
  exists st, live. auto.
Qed.

(** C2 for requests that do not wrap: free chunks and recorded spans add
    up to the length of the region. *)
Lemma fitting_runs_keep_sum (_end _end_of_ram : Z) (m : memory) (ops : list op) :
  symbols_ok _end _end_of_ram -> Forall op_fits ops ->
  exists st live,
    run_from _end _end_of_ram m ops = Some (st, live)
    /\ total (chunks st) + total (spans st live) = _end_of_ram - _end.
Proof.
  intros Hsym Hfits.
  destruct (run_from_inv _end _end_of_ram m ops Hsym Hfits)
    as (st & live & Hrun & _ & Hlen & (_ & _ & _ & _ & _ & _ & Htot) & _).
  exists st, live. rewrite <- Hlen. auto.
Qed.

(** C3 for requests that do not wrap: allocating from an untouched heap and
    freeing the pointer gives back the one chunk. *)
Lemma fitting_round_trip (st : state) (n a p : Z) (st1 : state) :
  heap_inv st [] -> chunks st <> [] -> request_fits n a ->
  heap_alloc st n a = Some (p, st1) -> p <> 0 ->
  chunks st = [(base (theheap st), len (theheap st))]
  /\ exists st2, heap_free st1 p = Some st2 /\ chunks st2 = chunks st.
Proof.
  intros Hinv Hne Hreq Halloc Hp.
  destruct (bad_alignment a) eqn:Hbad.
  { unfold heap_alloc in Halloc. rewrite Hbad in Halloc. congruence. }
  pose proof Hinv as ((Hreg & Hcs & Hasc & _ & _ & _ & Htot) & _).
  cbn [spans map total] in Htot. rewrite Z.add_0_r in Htot.
  assert (Hlen : 0 < len (theheap st)).
  { destruct (chunks st) as [|c cs]; [contradiction|].
    inversion Hcs as [|? ? (_ & _ & Hc & _) Hcs']; subst. cbn [total] in Htot.
    pose proof (span_ok_nonneg _ _ Hcs') as Hpos.
    assert (0 <= total cs).
    { clear - Hpos. induction Hpos; cbn [total]; lia. }
    unfold_sizes. lia. }
  pose proof (tiling_single _ _ Hreg Hcs Hasc Htot Hlen) as Hone.
  split; [exact Hone|].
  destruct (heap_alloc_spec st [] n a Hinv Hreq Hbad)
    as (p' & st1' & Halloc' & Hcases).
  rewrite Halloc in Halloc'. injection Halloc' as <- <-.
  destruct Hcases as [(-> & _)|(_ & _ & _ & _ & Hb1 & Hl1 & Hinv1)]; [contradiction|].
  cbn [app] in Hinv1.
  destruct (heap_free_spec st1 [p] 0 p Hinv1 eq_refl) as (st2 & Hfree & Hb2 & Hl2 & Hinv2 & _).
  exists st2. split; [exact Hfree|].
  cbn [remove_nth] in Hinv2.
  destruct Hinv2 as ((Hreg2 & Hcs2 & Hasc2 & _ & _ & _ & Htot2) & _).
  cbn [spans map total] in Htot2. rewrite Z.add_0_r in Htot2.
  rewrite (tiling_single _ _ Hreg2 Hcs2 Hasc2 Htot2 ltac:(rewrite Hl2, Hl1; exact Hlen)).
  rewrite Hone, Hb2, Hb1, Hl2, Hl1. reflexivity.
Qed.

(** X20.  C7 for requests that do not wrap: [heap_alloc] returns, and it returns
    NULL exactly when the alignment is bad or no chunk reaches the
    normalized size. *)
Lemma fitting_null_iff (st : state) (live : list Z) (n a : Z) :
  heap_inv st live -> request_fits n a ->
  exists p st',
    heap_alloc st n a = Some (p, st')
    /\ (p = 0 <->
        bad_alignment a = true
        \/ Forall (fun c => chunk_len (mem st) c < normalized_size n a) (flist st)).
Proof.
  intros Hinv Hreq. destruct (bad_alignment a) eqn:Hbad.
  - exists 0, st. unfold heap_alloc. rewrite Hbad. split; [reflexivity|]. tauto.
  - destruct (heap_alloc_spec st live n a Hinv Hreq Hbad)
      as (p & st' & Halloc & [(-> & _ & Hsmall)|(Hp & Hfit & _)]).
    + exists 0, st'. split; [exact Halloc|]. tauto.
    + exists p, st'. split; [exact Halloc|]. split; [contradiction|].
      intros [Hb|Hsmall]; [discriminate|].
      apply Exists_exists in Hfit. destruct Hfit as (K & Hin & HK).
      rewrite Forall_forall in Hsmall. specialize (Hsmall K Hin). lia.
Qed.

(** X21.  C8 for requests that do not wrap: the header and the [n] bytes at the
    user pointer lie inside the recorded span. *)
Lemma fitting_ptr_in_span (st : state) (live : list Z) (n a p : Z) (st' : state) :
  heap_inv st live -> request_fits n a ->
  heap_alloc st n a = Some (p, st') -> p <> 0 ->
  hdr_ptr (mem st') p + sizeof_alloc_struct_begin <= p
  /\ p + n <= hdr_ptr (mem st') p + hdr_size (mem st') p.
Proof.
  intros Hinv Hreq Halloc Hp.
  destruct (bad_alignment a) eqn:Hbad.
  { unfold heap_alloc in Halloc. rewrite Hbad in Halloc. congruence. }
  destruct (heap_alloc_spec st live n a Hinv Hreq Hbad)
    as (p' & st1 & Halloc' & Hcases).
  rewrite Halloc in Halloc'. injection Halloc' as <- <-.
  destruct Hcases as [(-> & _)|(_ & _ & Hin & _)]; [contradiction|].
  exact Hin.
Qed.

(** X22.  C10 for requests that do not wrap: a call that returns NULL leaves the
    state as it was. *)
Lemma fitting_null_unchanged (st : state) (live : list Z) (n a : Z) (st' : state) :
  heap_inv st live -> request_fits n a ->
  heap_alloc st n a = Some (0, st') -> st' = st.
Proof.
  intros Hinv Hreq Halloc.
  destruct (bad_alignment a) eqn:Hbad.
  { unfold heap_alloc in Halloc. rewrite Hbad in Halloc. congruence. }
  destruct (heap_alloc_spec st live n a Hinv Hreq Hbad)
    as (p' & st1 & Halloc' & Hcases).
  rewrite Halloc in Halloc'. injection Halloc' as <- <-.
  destruct Hcases as [(_ & -> & _)|(Hp & _)]; [reflexivity|contradiction].
Qed.

(** ** The free list is determined by the spans handed out *)

Lemma total_filter (f : Z * Z -> bool) (ss : list (Z * Z)) :
  total (filter f ss) + total (filter (fun s => negb (f s)) ss) = total ss.
Proof.
  induction ss as [|s ss IH]; cbn [filter total]; [reflexivity|].
  destruct (f s); cbn [negb total]; lia.
Qed.

Lemma FOP_filter {A : Type} (R : A -> A -> Prop) (f : A -> bool) (l : list A) :
  ForallOrdPairs R l -> ForallOrdPairs R (filter f l).
Proof.
  induction 1 as [|x l Hx Hl IH]; cbn [filter]; [constructor|].
  destruct (f x); [|exact IH]. constructor; [|exact IH].
  apply Forall_forall. intros y Hy. apply filter_In in Hy.
  rewrite Forall_forall in Hx. apply Hx, Hy.
Qed.

Lemma FOP_app {A : Type} (R : A -> A -> Prop) (l1 l2 : list A) :
  ForallOrdPairs R l1 -> ForallOrdPairs R l2 ->
  Forall (fun x => Forall (R x) l2) l1 -> ForallOrdPairs R (l1 ++ l2).
Proof.
  induction 1 as [|x l Hx Hl IH]; intros H2 Hall; cbn [app]; [exact H2|].
  inversion Hall as [|? ? Hx2 Hall']; subst.
  constructor; [rewrite Forall_app; split; assumption|apply IH; assumption].
Qed.

(** Spans inside [lo, hi) that do not overlap are together no longer than
    [hi - lo]. *)
Lemma total_bound (n : nat) (ss : list (Z * Z)) (lo hi : Z) :
  (length ss <= n)%nat -> lo <= hi ->
  Forall (fun s => 0 <= snd s /\ lo <= fst s /\ fst s + snd s <= hi) ss ->
  ForallOrdPairs disjoint ss -> total ss <= hi - lo.
Proof.
  revert ss lo hi. induction n as [|n IH]; intros ss lo hi Hlen Hlh Hin Hdis.
  - destruct ss; [cbn; lia|cbn in Hlen; lia].
  - destruct ss as [|s ss]; [cbn; lia|].
    inversion Hin as [|? ? (Hs0 & Hslo & Hshi) Hin']; subst.
    inversion Hdis as [|? ? Hsd Hdis']; subst.
    cbn [length] in Hlen.
    set (f := fun t : Z * Z => fst t + snd t <=? fst s).
    pose proof (total_filter f ss) as Hsum.
    rewrite Forall_forall in Hin', Hsd.
    assert (Hb : total (filter f ss) <= fst s - lo).
    { apply IH.
      - pose proof (filter_length_le f ss). lia.
      - lia.
      - apply Forall_forall. intros t Ht. apply filter_In in Ht. destruct Ht as [Ht Hf].
        unfold f in Hf. apply Z.leb_le in Hf. destruct (Hin' t Ht) as (? & ? & ?). lia.
      - apply FOP_filter, Hdis'. }
    assert (Ha : total (filter (fun t => negb (f t)) ss) <= hi - (fst s + snd s)).
    { apply IH.
      - pose proof (filter_length_le (fun t => negb (f t)) ss). lia.
      - lia.
      - apply Forall_forall. intros t Ht. apply filter_In in Ht. destruct Ht as [Ht Hf].
        unfold f in Hf. apply negb_true_iff, Z.leb_gt in Hf.
        destruct (Hin' t Ht) as (? & ? & ?). specialize (Hsd t Ht). unfold disjoint in Hsd. lia.
      - apply FOP_filter, Hdis'. }
    cbn [total]. lia.
Qed.

(** Spans that do not overlap and are together as long as [hi - lo] leave
    no address of [lo, hi) out. *)
Lemma tiles_cover (ss : list (Z * Z)) (lo hi x : Z) :
  Forall (fun s => 0 <= snd s /\ lo <= fst s /\ fst s + snd s <= hi) ss ->
  ForallOrdPairs disjoint ss -> total ss = hi - lo -> lo <= x < hi -> covers ss x.
Proof.
  intros Hin Hdis Htot Hx.
  destruct (Exists_dec (fun s : Z * Z => fst s <= x < fst s + snd s) ss) as [H|H];
    [|exact H|].
  { intros s. destruct (Z_le_dec (fst s) x), (Z_lt_dec x (fst s + snd s)); (left; lia) || (right; lia). }
  exfalso. apply Forall_Exists_neg in H.
  set (f := fun t : Z * Z => fst t + snd t <=? x).
  pose proof (total_filter f ss) as Hsum.
  rewrite Forall_forall in Hin, H.
  assert (Hb : total (filter f ss) <= x - lo).
  { apply (total_bound (length ss)).
    - apply filter_length_le.
    - lia.
    - apply Forall_forall. intros t Ht. apply filter_In in Ht. destruct Ht as [Ht Hf].
      unfold f in Hf. apply Z.leb_le in Hf. destruct (Hin t Ht) as (? & ? & ?). lia.
    - apply FOP_filter, Hdis. }
  assert (Ha : total (filter (fun t => negb (f t)) ss) <= hi - (x + 1)).
  { apply (total_bound (length ss)).
    - apply filter_length_le.
    - lia.
    - apply Forall_forall. intros t Ht. apply filter_In in Ht. destruct Ht as [Ht Hf].
      unfold f in Hf. apply negb_true_iff, Z.leb_gt in Hf.
      destruct (Hin t Ht) as (? & ? & ?). specialize (H t Ht). cbn beta in H. lia.
    - apply FOP_filter, Hdis. }
  lia.
Qed.

Lemma gapped_FOP (lim : Z) (cs : list (Z * Z)) :
  Forall (fun d => 0 <= snd d) cs -> gapped lim cs -> ForallOrdPairs disjoint cs.
Proof.
  revert lim. induction cs as [|c cs IH]; intros lim Hpos Hg; [constructor|].
  inversion Hpos as [|? ? Hc Hpos']; subst. destruct Hg as [_ Hg].
  constructor; [|apply (IH _ Hpos' Hg)].
  eapply Forall_impl; [|apply (gapped_starts _ _ Hpos' Hg)].
  unfold disjoint. intros d. cbn beta. lia.
Qed.

(** The addresses of the free chunks are those of the region that no span
    handed out holds. *)
Lemma tiling_covers (h : heap) (cs ls : list (Z * Z)) (x : Z) :
  tiling_ok h cs ls ->
  (covers cs x <-> base h <= x < base h + len h /\ ~ covers ls x).
Proof.
  intros (Hreg & Hcs & Hasc & Hls & Hdis & Hfop & Htot).
  split.
  - intros Hc. apply Exists_exists in Hc. destruct Hc as (c & Hin & Hx).
    rewrite Forall_forall in Hcs, Hdis.
    destruct (Hcs c Hin) as (_ & _ & _ & Hlo & Hhi). split; [lia|].
    intros Hl. apply Exists_exists in Hl. destruct Hl as (l & Hinl & Hxl).
    specialize (Hdis c Hin). rewrite Forall_forall in Hdis. specialize (Hdis l Hinl).
    unfold disjoint in Hdis. lia.
  - intros [Hx Hn].
    assert (Hall : covers (cs ++ ls) x).
    { apply (tiles_cover _ (base h) (base h + len h)).
      - rewrite Forall_app. split; [eapply Forall_impl; [|exact Hcs]|eapply Forall_impl; [|exact Hls]];
          intros s (_ & _ & Hmin & Hlo & Hhi); unfold_sizes; lia.
      - apply FOP_app; [|exact Hfop|exact Hdis].
        rewrite (ascending_iff_gapped h _ Hcs) in Hasc.
        apply (gapped_FOP _ _ (span_ok_nonneg h _ Hcs) Hasc).
      - rewrite total_app. lia.
      - exact Hx. }
    unfold covers in Hall. rewrite Exists_app in Hall. destruct Hall; [assumption|contradiction].
Qed.

(** Two lists of chunks in ascending order with gaps that hold the same
    addresses are the same list. *)
Lemma gapped_unique (cs cs' : list (Z * Z)) (lim lim' : Z) :
  Forall (fun c => 0 < snd c) cs -> Forall (fun c => 0 < snd c) cs' ->
  gapped lim cs -> gapped lim' cs' ->
  (forall x, covers cs x <-> covers cs' x) -> cs = cs'.
Proof.
  revert cs' lim lim'. induction cs as [|c cs IH]; intros cs' lim lim' Hp Hp' Hg Hg' Hsame.
  - destruct cs' as [|c' cs']; [reflexivity|exfalso].
    inversion Hp' as [|? ? Hc' _]; subst.
    assert (H : covers [] (fst c')) by (apply Hsame; constructor; lia).
    inversion H.
  - inversion Hp as [|? ? Hc Hpt]; subst. destruct Hg as [_ Hg].
    assert (Hnn : Forall (fun d : Z * Z => 0 <= snd d) cs)
      by (eapply Forall_impl; [|exact Hpt]; cbn beta; intros; lia).
    pose proof (gapped_starts _ _ Hnn Hg) as Hst. rewrite Forall_forall in Hst.
    destruct cs' as [|c' cs'].
    { exfalso. assert (H : covers [] (fst c)) by (apply Hsame; constructor; lia).
      inversion H. }
    inversion Hp' as [|? ? Hc' Hpt']; subst. destruct Hg' as [_ Hg'].
    assert (Hnn' : Forall (fun d : Z * Z => 0 <= snd d) cs')
      by (eapply Forall_impl; [|exact Hpt']; cbn beta; intros; lia).
    pose proof (gapped_starts _ _ Hnn' Hg') as Hst'. rewrite Forall_forall in Hst'.
    assert (Hin : forall x, covers (c :: cs) x ->
                    fst c <= x /\ (x < fst c + snd c \/ (fst c + snd c < x /\ covers cs x))).
    { intros x Hx. inversion Hx as [? ? H|? ? H]; subst; [lia|].
      pose proof H as H0. apply Exists_exists in H0. destruct H0 as (d & Hd & Hxd).
      specialize (Hst d Hd). cbn beta in Hst. split; [lia|right; split; [lia|exact H]]. }
    assert (Hin' : forall x, covers (c' :: cs') x ->
                    fst c' <= x /\ (x < fst c' + snd c' \/ (fst c' + snd c' < x /\ covers cs' x))).
    { intros x Hx. inversion Hx as [? ? H|? ? H]; subst; [lia|].
      pose proof H as H0. apply Exists_exists in H0. destruct H0 as (d & Hd & Hxd).
      specialize (Hst' d Hd). cbn beta in Hst'. split; [lia|right; split; [lia|exact H]]. }
    assert (Hfst : fst c = fst c').
    { assert (H1 : covers (c' :: cs') (fst c)) by (apply Hsame; constructor; lia).
      assert (H2 : covers (c :: cs) (fst c')) by (apply Hsame; constructor; lia).
      apply Hin' in H1. apply Hin in H2. lia. }
    assert (Hsnd : snd c = snd c').
    { destruct (Z.lt_trichotomy (snd c) (snd c')) as [Hlt|[Heq|Hgt]]; [exfalso|exact Heq|exfalso].
      - assert (H2 : covers (c :: cs) (fst c + snd c)) by (apply Hsame; constructor; lia).
        apply Hin in H2. lia.
      - assert (H1 : covers (c' :: cs') (fst c' + snd c')) by (apply Hsame; constructor; lia).
        apply Hin' in H1. lia. }
    assert (Hcc : c = c') by (destruct c, c'; cbn [fst snd] in *; congruence).
    subst c'. f_equal.
    apply (IH cs' _ _ Hpt Hpt' Hg Hg').
    intros x. split; intros Hx.
    + pose proof Hx as H0. apply Exists_exists in H0. destruct H0 as (d & Hd & Hxd).
      specialize (Hst d Hd). cbn beta in Hst.
      assert (H1 : covers (c :: cs') x) by (apply Hsame; right; exact Hx).
      apply Hin' in H1. destruct H1 as [_ [H1|[_ H1]]]; [lia|exact H1].
    + pose proof Hx as H0. apply Exists_exists in H0. destruct H0 as (d & Hd & Hxd).
      specialize (Hst' d Hd). cbn beta in Hst'.
      assert (H1 : covers (c :: cs) x) by (apply Hsame; right; exact Hx).
      apply Hin in H1. destruct H1 as [_ [H1|[_ H1]]]; [lia|exact H1].
Qed.

(** Two well-formed heaps over one region whose spans handed out hold the
    same addresses have the same free chunks. *)
Lemma free_list_canonical (h : heap) (cs cs' ls ls' : list (Z * Z)) :
  tiling_ok h cs ls -> tiling_ok h cs' ls' ->
  (forall x, covers ls x <-> covers ls' x) -> cs = cs'.
Proof.
  intros Ht Ht' Hsame.
  pose proof Ht as (_ & Hcs & Hasc & _). pose proof Ht' as (_ & Hcs' & Hasc' & _).
  rewrite (ascending_iff_gapped h _ Hcs) in Hasc.
  rewrite (ascending_iff_gapped h _ Hcs') in Hasc'.
  apply (gapped_unique cs cs' (base h - 1) (base h - 1)); try assumption.
  - eapply Forall_impl; [|exact Hcs]. intros s (_ & _ & Hmin & _). unfold_sizes. lia.
  - eapply Forall_impl; [|exact Hcs']. intros s (_ & _ & Hmin & _). unfold_sizes. lia.
  - intros x. rewrite (tiling_covers h cs ls x Ht), (tiling_covers h cs' ls' x Ht'), Hsame.
    reflexivity.
Qed.

(** ** Blocks in a well-formed heap *)

Lemma tiling_ok_region (h h' : heap) (cs ls : list (Z * Z)) :
  base h' = base h -> len h' = len h -> tiling_ok h cs ls -> tiling_ok h' cs ls.
Proof.
  destruct h as [b l f], h' as [b' l' f']. cbn [base len]. intros -> ->.
  unfold tiling_ok, region_ok, span_ok. cbn [base len]. tauto.
Qed.

Lemma total_perm (ls ls' : list (Z * Z)) : Permutation ls ls' -> total ls = total ls'.
Proof. induction 1; cbn [total]; lia. Qed.

Lemma Forall_perm {A : Type} (P : A -> Prop) (l l' : list A) :
  Permutation l l' -> Forall P l -> Forall P l'.
Proof.
  intros Hp H. rewrite Forall_forall in *. intros x Hx.
  apply H. apply (Permutation_in x (Permutation_sym Hp) Hx).
Qed.

Lemma FOP_perm {A : Type} (R : A -> A -> Prop) (l l' : list A) :
  (forall x y, R x y -> R y x) ->
  Permutation l l' -> ForallOrdPairs R l -> ForallOrdPairs R l'.
Proof.
  intros Hsym. induction 1 as [|x l l' Hp IH|x y l|l l' l'' H1 IH1 H2 IH2]; intros H.
  - exact H.
  - inversion H as [|? ? Hx Hl]; subst.
    constructor; [apply (Forall_perm _ _ _ Hp Hx)|apply IH, Hl].
  - inversion H as [|? ? Hy Hl]; subst. inversion Hl as [|? ? Hx Hl']; subst.
    inversion Hy as [|? ? Hyx Hy']; subst.
    constructor; [constructor; [apply Hsym, Hyx|exact Hx]|].
    constructor; assumption.
  - apply IH2, IH1, H.
Qed.

(** The order in which the client holds its pointers does not matter. *)
Lemma heap_inv_perm (st : state) (live live' : list Z) :
  Permutation live live' -> heap_inv st live -> heap_inv st live'.
Proof.
  intros Hp [(Hreg & Hcs & Hasc & Hls & Hdis & Hfop & Htot) Hhdr].
  assert (Hps : Permutation (spans st live) (spans st live'))
    by (apply Permutation_map, Hp).
  split; [|apply (Forall_perm _ _ _ Hp Hhdr)].
  split; [exact Hreg|]. split; [exact Hcs|]. split; [exact Hasc|].
  split; [apply (Forall_perm _ _ _ Hps Hls)|].
  split; [eapply Forall_impl; [|exact Hdis]; intros c; apply (Forall_perm _ _ _ Hps)|].
  split; [apply (FOP_perm _ _ _ disjoint_sym Hps Hfop)|].
  rewrite <- (total_perm _ _ Hps). exact Htot.
Qed.

Lemma untouched_of_frame (lo hi : Z) (m m' : memory) (live : list Z) :
  unchanged_outside lo hi m m' ->
  Forall (outside lo hi) (map (span_of m) live) ->
  Forall (block_untouched m m') live.
Proof.
  intros Hfr Hout. rewrite Forall_map in Hout.
  eapply Forall_impl; [|exact Hout]. intros q Hq x Hx.
  unfold outside, span_of in Hq. cbn [fst snd] in Hq. apply Hfr. lia.
Qed.

(** A fitting request that is served: the chunk it is served from, the
    span it records and what it leaves of the heap. *)
Lemma heap_alloc_detail (st : state) (live : list Z) (n a p : Z) (st' : state) :
  heap_inv st live -> request_fits n a ->
  heap_alloc st n a = Some (p, st') -> p <> 0 ->
  exists pre K post,
    flist st = pre ++ K :: post
    /\ Forall (too_small st (normalized_size n a)) pre
    /\ normalized_size n a <= chunk_len (mem st) K
    /\ span_of (mem st') p
       = (K, if chunk_len (mem st) K >? normalized_size n a + sizeof_free_heap_chunk
             then normalized_size n a else chunk_len (mem st) K)
    /\ p = user_ptr (clamped_alignment a) K
    /\ ptr_in_span n p (span_of (mem st') p)
    /\ chunks st'
       = map (fun c => (c, chunk_len (mem st) c)) pre
         ++ (if chunk_len (mem st) K >? normalized_size n a + sizeof_free_heap_chunk
             then [(K + normalized_size n a, chunk_len (mem st) K - normalized_size n a)]
             else [])
         ++ map (fun c => (c, chunk_len (mem st) c)) post
    /\ base (theheap st') = base (theheap st) /\ len (theheap st') = len (theheap st)
    /\ heap_inv st' (live ++ [p])
    /\ spans st' live = spans st live
    /\ unchanged_outside K (K + chunk_len (mem st) K) (mem st) (mem st').
Proof.
  intros Hinv Hreq Halloc Hp.
  pose proof (heap_inv_free_list st live Hinv) as Hok.
  assert (Ha : in_range a) by apply Hreq.
  destruct (bad_alignment a) eqn:Hbad.
  { unfold heap_alloc in Halloc. rewrite Hbad in Halloc. congruence. }
  unfold heap_alloc in Halloc. rewrite Hbad, normalize_eq in Halloc by exact Ha.
  cbv beta iota in Halloc.
  set (size := normalized_size n a) in *.
  destruct (Forall_Exists_dec (fun c => chunk_len (mem st) c < size)
              (fun c => Z_lt_dec (chunk_len (mem st) c) size) (flist st))
    as [Hsmall|Hfit].
  { rewrite (alloc_walk_no_fit st size _ _ (no_fit_too_small st size Hok Hsmall)) in Halloc.
    congruence. }
  apply Exists_exists in Hfit. destruct Hfit as (K0 & Hin0 & HK0).
  destruct (first_fit_exists st size (flist st) K0 (free_list_lens st Hok) Hin0
              ltac:(lia)) as (pre & K & post & Hl & Hpre & HK).
  assert (HKmod : chunk_len (mem st) K mod sizeof_ptr = 0).
  { pose proof (free_list_lens st Hok) as Hm. rewrite Forall_forall in Hm.
    apply Hm. rewrite Hl. apply in_elt. }
  assert (Hwalk : alloc_walk st size (clamped_alignment a) (flist st)
                  = alloc_take st size (clamped_alignment a) K)
    by (rewrite Hl; apply alloc_walk_first_fit; assumption).
  rewrite Hwalk in Halloc. clear Hwalk.
  subst size. rewrite (normalized_size_exact n a Hreq) in *.
  destruct (heap_alloc_fit_inv st live n a pre post K Hinv Hreq Hbad Hl HK)
    as (p1 & st1 & eff & Htake & _ & Hspan & Hin & _ & Hbase & Hlen & Hinv' & Heff
        & Hch & Hsp & Hfr & Hptr).
  rewrite Htake in Halloc. injection Halloc as <- <-.
  exists pre, K, post.
  split; [exact Hl|]. split; [exact Hpre|]. split; [exact HK|].
  split; [rewrite Hspan, Heff; reflexivity|]. split; [exact Hptr|].
  split; [rewrite Hspan; exact Hin|]. auto 10.
Qed.

(** [heap_free] of a pointer the client holds. *)
Lemma heap_free_value (st : state) (live : list Z) (p : Z) :
  heap_inv st live -> In p live ->
  exists st' live',
    heap_free st p = Some st'
    /\ Permutation live (p :: live')
    /\ (forall q, In q live -> q <> p -> In q live')
    /\ base (theheap st') = base (theheap st) /\ len (theheap st') = len (theheap st)
    /\ heap_inv st' live'
    /\ spans st' live' = spans st live'
    /\ Forall (block_untouched (mem st) (mem st')) live'.
Proof.
  intros Hinv Hin. apply In_nth_error in Hin. destruct Hin as [i Hnth].
  destruct (heap_free_spec st live i p Hinv Hnth)
    as (st' & Hfree & Hb & Hl & Hinv' & Hsp & cpre' & s2 & cpost' & _ & _ & Hfr & Hout).
  destruct (nth_error_remove live i p Hnth) as (l1 & l2 & Hlive & Hrem).
  rewrite Hrem in *. exists st', (l1 ++ l2).
  split; [exact Hfree|].
  split; [rewrite Hlive; symmetry; apply Permutation_middle|].
  split.
  { intros q Hq Hne. rewrite Hlive in Hq. apply in_app_or in Hq. apply in_or_app.
    destruct Hq as [Hq|[Hq|Hq]]; [left; exact Hq|congruence|right; exact Hq]. }
  split; [exact Hb|]. split; [exact Hl|]. split; [exact Hinv'|]. split; [exact Hsp|].
  apply (untouched_of_frame _ _ _ _ _ Hfr Hout).
Qed.

Lemma heap_alloc_null_state (st : state) (live : list Z) (n a : Z) (st' : state) :
  heap_inv st live -> request_fits n a -> heap_alloc st n a = Some (0, st') -> st' = st.
Proof.
  intros Hinv Hreq Halloc.
  destruct (bad_alignment a) eqn:Hbad.
  { unfold heap_alloc in Halloc. rewrite Hbad in Halloc. congruence. }
  destruct (heap_alloc_spec st live n a Hinv Hreq Hbad)
    as (p & st1 & Heq & [(_ & -> & _)|(Hp & _)]); rewrite Heq in Halloc; congruence.
Qed.

(** ** Sample heaps are well formed *)

Lemma small_request_fits (n a : Z) :
  0 <= n <= 1000000 -> 0 <= a <= 128 -> request_fits n a.
Proof.
  intros Hn Ha. unfold request_fits, exact_size, clamped_alignment.
  destruct (a =? 0); word_arith.
Qed.

Ltac sample_fits :=
  repeat (constructor; [first [exact I|right; apply small_request_fits; lia]|]);
  constructor.

Lemma fresh_heap_inv : heap_inv fresh_heap [].
Proof.
  destruct (heap_init_spec 0x100008 0x101008 zero_memory) as (st & Hinit & _ & _ & _ & Hinv).
  { unfold symbols_ok. rewrite modulus_eq. vm_compute. intuition discriminate. }
  rewrite heap_init_fresh in Hinit. injection Hinit as <-. exact Hinv.
Qed.

Lemma sample_run_inv (_end _end_of_ram : Z) (m : memory) (ops : list op) :
  symbols_ok _end _end_of_ram -> Forall op_fits ops ->
  heap_inv (state_of (run_from _end _end_of_ram m ops))
           (held_of (run_from _end _end_of_ram m ops)).
Proof.
  intros Hsym Hfits.
  destruct (run_from_inv _end _end_of_ram m ops Hsym Hfits) as (st & live & -> & _ & _ & Hinv).
  exact Hinv.
Qed.

Lemma sample_symbols : symbols_ok 0x100008 0x101008.
Proof. unfold symbols_ok. rewrite modulus_eq. vm_compute. intuition discriminate. Qed.

Lemma two_blocks_inv : heap_inv (state_of two_blocks) (held_of two_blocks).
Proof.
  apply sample_run_inv; [exact sample_symbols|].
  sample_fits.
Qed.

Lemma two_blocks_held : held_of two_blocks = [0x100014; 0x100030].
Proof. vm_compute. reflexivity. Qed.

Lemma hole_filled_inv : heap_inv (state_of hole_filled) (held_of hole_filled).
Proof.
  apply sample_run_inv; [exact sample_symbols|].
  sample_fits.
Qed.

(** A third request on the heap of [two_blocks]. *)
Lemma two_blocks_alloc :
  exists p st', heap_alloc (state_of two_blocks) 100 0 = Some (p, st') /\ p = 0x100064.
Proof.
  destruct (heap_alloc (state_of two_blocks) 100 0) as [[p st']|] eqn:E.
  - exists p, st'. split; [reflexivity|].
    assert (H : option_map fst (heap_alloc (state_of two_blocks) 100 0) = Some 0x100064)
      by (vm_compute; reflexivity).
    rewrite E in H. cbn in H. congruence.
  - vm_compute in E. discriminate.
Qed.

(** ** What a client can rely on, for requests that do not wrap *)

Lemma covers_perm (ls ls' : list (Z * Z)) (x : Z) :
  Permutation ls ls' -> (covers ls x <-> covers ls' x).
Proof.
  intros Hp. unfold covers. rewrite !Exists_exists.
  split; intros (s & Hs & Hx); exists s; split; try exact Hx.
  - apply (Permutation_in s Hp Hs).
  - apply (Permutation_in s (Permutation_sym Hp) Hs).
Qed.

Lemma same_blocks_same_chunks (s t : state) (ls lt : list Z) :
  heap_inv s ls -> heap_inv t lt ->
  base (theheap t) = base (theheap s) -> len (theheap t) = len (theheap s) ->
  Permutation (spans s ls) (spans t lt) ->
  chunks s = chunks t.
Proof.
  intros [Hs _] [Ht _] Hb Hl Hp.
  apply (free_list_canonical (theheap s) _ _ (spans s ls) (spans t lt)).
  - exact Hs.
  - apply (tiling_ok_region (theheap t)); [symmetry; exact Hb|symmetry; exact Hl|exact Ht].
  - intros x. apply covers_perm, Hp.
Qed.

Lemma spans_pointwise (m m' : memory) (l : list Z) :
  map (span_of m') l = map (span_of m) l ->
  forall q, In q l -> span_of m' q = span_of m q.
Proof. intros H. apply map_ext_in_iff, H. Qed.

Lemma run_free_all (live : list Z) (st : state) :
  heap_inv st live ->
  exists st',
    run st live (repeat (op_free 0) (length live)) = Some (st', [])
    /\ base (theheap st') = base (theheap st) /\ len (theheap st') = len (theheap st)
    /\ heap_inv st' [].
Proof.
  revert st. induction live as [|p live IH]; intros st Hinv; cbn [length repeat run].
  - exists st. auto.
  - cbn [step nth_error].
    destruct (heap_free_spec st (p :: live) 0 p Hinv eq_refl)
      as (st1 & -> & Hb & Hl & Hinv1 & _).
    cbn [remove_nth] in *.
    destruct (IH st1 Hinv1) as (st' & Hrun & Hb' & Hl' & Hinv').
    exists st'. rewrite Hrun, Hb', Hl'. auto.
Qed.

(** X9.  Every run of [heap_alloc] and [heap_free] calls from [heap_init]
    whose requests do not wrap goes through without a failed DEBUG_ASSERT
    and leaves a well-formed heap: free chunks and recorded spans are word
    aligned, inside the region, pairwise disjoint and together as long as
    the region; the free list is ascending with gaps; every pointer held
    has its magic word and lies in its span. *)
Theorem fitting_runs_well_formed (_end _end_of_ram : Z) (m : memory) (ops : list op) :
  symbols_ok _end _end_of_ram -> Forall op_fits ops ->
  exists st live,
    run_from _end _end_of_ram m ops = Some (st, live)
    /\ base (theheap st) = _end /\ len (theheap st) = _end_of_ram - _end
    /\ heap_inv st live.
Proof. apply run_from_inv. Qed.

(** X10.  A block handed out lies inside the region and overlaps no span
    of a block handed out before: the new header and the [n] bytes after the
    pointer start after the end of every older span or end before its
    start. *)
Theorem heap_alloc_fresh_block (st : state) (live : list Z) (n a p : Z) (st' : state) :
  heap_inv st live -> request_fits n a ->
  heap_alloc st n a = Some (p, st') -> p <> 0 ->
  base (theheap st) + sizeof_alloc_struct_begin <= p
  /\ p + n <= base (theheap st) + len (theheap st)
  /\ Forall (fun q => hdr_ptr (mem st) q + hdr_size (mem st) q
                        <= p - sizeof_alloc_struct_begin
                      \/ p + n <= hdr_ptr (mem st) q) live.
Proof.
  intros Hinv Hreq Halloc Hp.
  destruct (heap_alloc_detail st live n a p st' Hinv Hreq Halloc Hp)
    as (pre & K & post & _ & _ & _ & Hspan & _ & Hin & _ & Hb & Hl & Hinv' & Hsp & _).
  destruct Hinv' as [(_ & _ & _ & Hls & _ & Hfop & _) _].
  unfold spans in Hls, Hfop. rewrite map_app in Hls, Hfop. cbn [map] in Hls, Hfop.
  fold (spans st' live) in Hls, Hfop. rewrite Hsp in Hls, Hfop.
  rewrite Hspan in *. set (eff := if _ >? _ then _ else _) in *.
  rewrite Forall_app in Hls. destruct Hls as [_ Hls].
  inversion Hls as [|? ? (_ & _ & _ & Hlo & Hhi) _]; subst.
  destruct Hin as [Hin1 Hin2]. cbn [fst snd] in *. rewrite Hb, Hl in *.
  split; [lia|]. split; [lia|].
  destruct (FOP_remove_mid _ _ _ _ Hfop) as (_ & Hd & _).
  unfold spans in Hd. rewrite Forall_map in Hd.
  eapply Forall_impl; [|exact Hd]. intros q Hq. unfold disjoint, span_of in Hq.
  cbn [fst snd] in Hq. lia.
Qed.

(** X11.  The span recorded for a block is a multiple of the pointer size,
    at least the normalized size and at most a free chunk header longer, and
    the free chunks lose exactly that many bytes. *)
Theorem heap_alloc_span_size (st : state) (live : list Z) (n a p : Z) (st' : state) :
  heap_inv st live -> request_fits n a ->
  heap_alloc st n a = Some (p, st') -> p <> 0 ->
  normalized_size n a <= hdr_size (mem st') p
  /\ hdr_size (mem st') p <= normalized_size n a + sizeof_free_heap_chunk
  /\ hdr_size (mem st') p mod sizeof_ptr = 0
  /\ total (chunks st') = total (chunks st) - hdr_size (mem st') p.
Proof.
  intros Hinv Hreq Halloc Hp.
  destruct (heap_alloc_detail st live n a p st' Hinv Hreq Halloc Hp)
    as (pre & K & post & Hfl & _ & HK & Hspan & _ & _ & Hch & _ & _ & Hinv' & _).
  destruct Hinv' as [(_ & _ & _ & Hls & _) _].
  unfold spans in Hls. rewrite map_app, Forall_app in Hls. destruct Hls as [_ Hls].
  cbn [map] in Hls. inversion Hls as [|? ? (_ & Hmod & _) _]; subst.
  rewrite Hspan in Hmod. cbn [snd] in Hmod.
  assert (Hsz : hdr_size (mem st') p = snd (span_of (mem st') p)) by reflexivity.
  rewrite Hspan in Hsz. cbn [snd] in Hsz. rewrite Hsz, Hch, (chunks_app st pre post K Hfl).
  rewrite !total_app. cbn [total snd].
  destruct (Z.gtb_spec (chunk_len (mem st) K) (normalized_size n a + sizeof_free_heap_chunk));
    cbn [total snd app]; repeat split; try assumption; unfold_sizes; lia.
Qed.

(** X12.  First fit is lowest fit: the block is carved from a free chunk
    that reaches the normalized size, and every free chunk at a lower
    address is too short for the request. *)
Theorem heap_alloc_lowest_fit (st : state) (live : list Z) (n a p : Z) (st' : state) :
  heap_inv st live -> request_fits n a ->
  heap_alloc st n a = Some (p, st') -> p <> 0 ->
  In (hdr_ptr (mem st') p) (flist st)
  /\ normalized_size n a <= chunk_len (mem st) (hdr_ptr (mem st') p)
  /\ forall c, In c (flist st) -> c < hdr_ptr (mem st') p ->
       chunk_len (mem st) c < normalized_size n a.
Proof.
  intros Hinv Hreq Halloc Hp.
  destruct (heap_alloc_detail st live n a p st' Hinv Hreq Halloc Hp)
    as (pre & K & post & Hfl & Hpre & HK & Hspan & _).
  assert (HS : hdr_ptr (mem st') p = K)
    by (change (hdr_ptr (mem st') p) with (fst (span_of (mem st') p)); rewrite Hspan; reflexivity).
  rewrite HS. split; [rewrite Hfl; apply in_elt|]. split; [exact HK|].
  intros c Hc Hlt. rewrite Hfl in Hc. apply in_app_or in Hc.
  destruct Hc as [Hc|[Hc|Hc]].
  - rewrite Forall_forall in Hpre. apply (Hpre c Hc).
  - lia.
  - exfalso. destruct Hinv as [(_ & Hcs & Hasc & _) _].
    rewrite (ascending_iff_gapped _ _ Hcs) in Hasc.
    pose proof (span_ok_nonneg _ _ Hcs) as Hpos.
    rewrite (chunks_app st pre post K Hfl) in Hasc, Hpos.
    rewrite gapped_app in Hasc. destruct Hasc as (_ & _ & Hg).
    rewrite Forall_app in Hpos. destruct Hpos as [_ Hpos].
    inversion Hpos as [|? ? HK0 Hpos']; subst. cbn [fst snd] in *.
    pose proof (gapped_starts _ _ Hpos' Hg) as Hst. rewrite Forall_map in Hst.
    rewrite Forall_forall in Hst. specialize (Hst c Hc). cbn [fst] in Hst. lia.
Qed.

(** X13.  Every pointer handed out is a multiple of the pointer size, and
    for alignment 0 the header starts the span: the pointer is the start of
    the span plus the size of the header. *)
Theorem heap_alloc_word_aligned (st : state) (live : list Z) (n a p : Z) (st' : state) :
  heap_inv st live -> request_fits n a ->
  heap_alloc st n a = Some (p, st') -> p <> 0 ->
  p mod sizeof_ptr = 0
  /\ (a = 0 -> p = hdr_ptr (mem st') p + sizeof_alloc_struct_begin).
Proof.
  intros Hinv Hreq Halloc Hp.
  destruct (heap_alloc_detail st live n a p st' Hinv Hreq Halloc Hp)
    as (pre & K & post & _ & _ & _ & Hspan & Hptr & Hin & _ & _ & _ & Hinv' & _).
  destruct Hinv' as [(Hreg & _ & _ & Hls & _) Hhdr].
  rewrite Forall_app in Hhdr. destruct Hhdr as [_ Hhdr].
  apply Forall_inv in Hhdr. destruct Hhdr as (_ & Hmod & _). split; [exact Hmod|].
  intros Ha.
  unfold spans in Hls. rewrite map_app, Forall_app in Hls. destruct Hls as [_ Hls].
  cbn [map] in Hls. apply Forall_inv in Hls. destruct Hls as (_ & _ & Hmin & Hlo & Hhi).
  assert (HS : hdr_ptr (mem st') p = K)
    by (change (hdr_ptr (mem st') p) with (fst (span_of (mem st') p)); rewrite Hspan; reflexivity).
  rewrite Hspan in Hmin, Hlo, Hhi. cbn [fst snd] in Hmin, Hlo, Hhi.
  destruct Hreg as (Hb & _ & _ & _ & Hend).
  rewrite HS, Hptr, Ha. unfold user_ptr, clamped_alignment. cbn [Z.eqb Z.gtb Z.compare].
  apply wrap_small. unfold in_range. rewrite modulus_eq in *. unfold_sizes. lia.
Qed.

(** X14.  [heap_alloc] leaves the blocks handed out before as they are: no
    word of their spans, header and payload, changes.  (The words written
    are [len] fields of free chunks and the new allocation header; the link
    words of the free list, which are not kept in [memory], lie in free
    chunks and in [theheap].) *)
Theorem heap_alloc_keeps_blocks (st : state) (live : list Z) (n a p : Z) (st' : state) :
  heap_inv st live -> request_fits n a ->
  heap_alloc st n a = Some (p, st') ->
  Forall (fun q => block_untouched (mem st) (mem st') q
                   /\ span_of (mem st') q = span_of (mem st) q) live.
Proof.
  intros Hinv Hreq Halloc.
  destruct (Z.eq_dec p 0) as [->|Hp].
  { rewrite (heap_alloc_null_state st live n a st' Hinv Hreq Halloc).
    apply Forall_forall. intros q _. split; [intros x _; reflexivity|reflexivity]. }
  destruct (heap_alloc_detail st live n a p st' Hinv Hreq Halloc Hp)
    as (pre & K & post & Hfl & _ & _ & _ & _ & _ & _ & _ & _ & _ & Hsp & Hfr).
  destruct Hinv as [(_ & _ & _ & _ & Hdis & _) _].
  rewrite (chunks_app st pre post K Hfl), Forall_app in Hdis. destruct Hdis as [_ Hdis].
  inversion Hdis as [|? ? HK _]; subst.
  assert (Hout : Forall (outside K (K + chunk_len (mem st) K)) (map (span_of (mem st)) live)).
  { eapply Forall_impl; [|exact HK]. unfold outside, disjoint. cbn [fst snd]. intros s. lia. }
  pose proof (untouched_of_frame _ _ _ _ _ Hfr Hout) as Hun.
  rewrite Forall_forall in Hun. apply Forall_forall. intros q Hq.
  split; [apply Hun, Hq|apply (spans_pointwise _ _ _ Hsp q Hq)].
Qed.

(** X15.  [heap_free] of a block the client holds goes through and leaves
    every other block it holds as it is: no word of their spans changes. *)
Theorem heap_free_keeps_blocks (st : state) (live : list Z) (p : Z) :
  heap_inv st live -> In p live ->
  exists st',
    heap_free st p = Some st'
    /\ forall q, In q live -> q <> p ->
         block_untouched (mem st) (mem st') q
         /\ span_of (mem st') q = span_of (mem st) q.
Proof.
  intros Hinv Hin.
  destruct (heap_free_value st live p Hinv Hin)
    as (st' & live' & Hfree & _ & Hrest & _ & _ & _ & Hsp & Hun).
  exists st'. split; [exact Hfree|]. intros q Hq Hne.
  specialize (Hrest q Hq Hne). rewrite Forall_forall in Hun.
  split; [apply Hun, Hrest|apply (spans_pointwise _ _ _ Hsp q Hrest)].
Qed.

(** X16.  Allocating a block and freeing it at once restores the free
    list, chunk for chunk, whatever else is allocated. *)
Theorem alloc_free_restores (st : state) (live : list Z) (n a p : Z) (st1 : state) :
  heap_inv st live -> request_fits n a ->
  heap_alloc st n a = Some (p, st1) -> p <> 0 ->
  exists st2,
    heap_free st1 p = Some st2 /\ chunks st2 = chunks st /\ heap_inv st2 live.
Proof.
  intros Hinv Hreq Halloc Hp.
  destruct (heap_alloc_detail st live n a p st1 Hinv Hreq Halloc Hp)
    as (pre & K & post & _ & _ & _ & _ & _ & _ & _ & Hb1 & Hl1 & Hinv1 & Hsp1 & _).
  assert (Hnth : nth_error (live ++ [p]) (length live) = Some p)
    by (rewrite nth_error_app2, Nat.sub_diag by lia; reflexivity).
  destruct (heap_free_spec st1 (live ++ [p]) (length live) p Hinv1 Hnth)
    as (st2 & Hfree & Hb2 & Hl2 & Hinv2 & Hsp2 & _).
  destruct (nth_error_remove _ _ _ Hnth) as (l1 & l2 & Hsplit & Hrem).
  assert (Hlive : remove_nth (length live) (live ++ [p]) = live).
  { clear -live. induction live as [|x l IH]; cbn [length app remove_nth]; [reflexivity|].
    rewrite IH. reflexivity. }
  rewrite Hlive in Hinv2, Hsp2.
  exists st2. split; [exact Hfree|]. split; [|exact Hinv2].
  apply (same_blocks_same_chunks st2 st live live Hinv2 Hinv); [congruence|congruence|].
  rewrite Hsp2, Hsp1. apply Permutation_refl.
Qed.

(** X17.  Two blocks can be freed in either order: both orders go through
    and leave the same free list. *)
Theorem heap_free_commutes (st : state) (live : list Z) (p q : Z) :
  heap_inv st live -> In p live -> In q live -> p <> q ->
  exists s1 s2 t1 t2,
    heap_free st p = Some s1 /\ heap_free s1 q = Some s2
    /\ heap_free st q = Some t1 /\ heap_free t1 p = Some t2
    /\ chunks s2 = chunks t2.
Proof.
  intros Hinv Hp Hq Hne.
  destruct (heap_free_value st live p Hinv Hp)
    as (s1 & ls1 & Hf1 & Hperm1 & Hrest1 & Hb1 & Hl1 & Hinv1 & Hsp1 & _).
  destruct (heap_free_value s1 ls1 q Hinv1 (Hrest1 q Hq ltac:(congruence)))
    as (s2 & ls2 & Hf2 & Hperm2 & _ & Hb2 & Hl2 & Hinv2 & Hsp2 & _).
  destruct (heap_free_value st live q Hinv Hq)
    as (t1 & lt1 & Hg1 & Hqerm1 & Hsest1 & Hc1 & Hm1 & Hjnv1 & Htp1 & _).
  destruct (heap_free_value t1 lt1 p Hjnv1 (Hsest1 p Hp Hne))
    as (t2 & lt2 & Hg2 & Hqerm2 & _ & Hc2 & Hm2 & Hjnv2 & Htp2 & _).
  exists s1, s2, t1, t2. repeat (split; [assumption|]).
  assert (Hin2 : forall x, In x ls2 -> In x ls1)
    by (intros x Hx; apply (Permutation_in x (Permutation_sym Hperm2)); right; exact Hx).
  assert (Hjn2 : forall x, In x lt2 -> In x lt1)
    by (intros x Hx; apply (Permutation_in x (Permutation_sym Hqerm2)); right; exact Hx).
  assert (Hs : spans s2 ls2 = spans st ls2).
  { rewrite Hsp2. apply map_ext_in. intros x Hx.
    apply (spans_pointwise _ _ _ Hsp1 x (Hin2 x Hx)). }
  assert (Ht : spans t2 lt2 = spans st lt2).
  { rewrite Htp2. apply map_ext_in. intros x Hx.
    apply (spans_pointwise _ _ _ Htp1 x (Hjn2 x Hx)). }
  apply (same_blocks_same_chunks s2 t2 ls2 lt2 Hinv2 Hjnv2); [congruence|congruence|].
  rewrite Hs, Ht. apply Permutation_map.
  apply (Permutation_cons_inv (a := q)), (Permutation_cons_inv (a := p)).
  transitivity (p :: ls1); [apply perm_skip; symmetry; exact Hperm2|].
  transitivity live; [symmetry; exact Hperm1|].
  transitivity (q :: lt1); [exact Hqerm1|].
  transitivity (q :: p :: lt2); [apply perm_skip; exact Hqerm2|apply perm_swap].
Qed.

(** X18.  Whatever a run of requests that do not wrap did, giving back
    every pointer still held leaves the free list as [heap_init] made it:
    one chunk, the whole region. *)
Theorem free_all_restores (_end _end_of_ram : Z) (m : memory) (ops : list op) :
  symbols_ok _end _end_of_ram -> Forall op_fits ops ->
  exists st live st',
    run_from _end _end_of_ram m ops = Some (st, live)
    /\ run st live (repeat (op_free 0) (length live)) = Some (st', [])
    /\ chunks st' = [(_end, _end_of_ram - _end)].
Proof.
  intros Hsym Hfits.
  destruct (run_from_inv _end _end_of_ram m ops Hsym Hfits)
    as (st & live & Hrun & Hb & Hl & Hinv).
  destruct (run_free_all live st Hinv) as (st' & Hfree & Hb' & Hl' & Hinv').
  exists st, live, st'. split; [exact Hrun|]. split; [exact Hfree|].
  destruct Hinv' as [(Hreg & Hcs & Hasc & _ & _ & _ & Htot) _].
  cbn [spans map total] in Htot.
  rewrite <- Hl, <- Hb, <- Hl', <- Hb'.
  apply tiling_single; try assumption; [lia|].
  rewrite Hl', Hl. destruct Hsym as (_ & _ & _ & Hmin & _). unfold_sizes. lia.
Qed.

(** ** heap_insert_free_chunk and heap_init on their own *)

Lemma coalesced_covers (cs : list (Z * Z)) (s : Z * Z) (cpre' : list (Z * Z))
      (s2 : Z * Z) (cpost' : list (Z * Z)) (x : Z) :
  Forall (fun c => 0 <= snd c) cs -> 0 <= snd s ->
  coalesced cs s cpre' s2 cpost' ->
  (covers (cpre' ++ s2 :: cpost') x <-> covers cs x \/ fst s <= x < fst s + snd s).
Proof.
  intros Hpos Hs (cpre & cpost & s1 & -> & _ & _ & Hprev & Hnext).
  rewrite Forall_forall in Hpos. unfold covers.
  destruct Hprev as [(-> & -> & _)|(P & -> & HP & ->)];
    destruct Hnext as [(-> & -> & _)|(N & -> & HN & ->)];
    cbn [fst snd] in *.
  - rewrite !Exists_app, Exists_cons. tauto.
  - assert (HN0 : 0 <= snd N) by (apply Hpos; rewrite in_app_iff; cbn; auto).
    rewrite !Exists_app, !Exists_cons. cbn [fst snd]. intuition lia.
  - assert (HP0 : 0 <= snd P) by (apply Hpos; rewrite !in_app_iff; cbn; auto).
    rewrite !Exists_app, !Exists_cons, Exists_nil. cbn [fst snd]. intuition lia.
  - assert (HP0 : 0 <= snd P) by (apply Hpos; rewrite !in_app_iff; cbn; auto).
    assert (HN0 : 0 <= snd N) by (apply Hpos; rewrite !in_app_iff; cbn; auto).
    rewrite !Exists_app, !Exists_cons, Exists_nil. cbn [fst snd]. intuition lia.
Qed.

Lemma coalesced_holder (cs : list (Z * Z)) (s : Z * Z) (cpre' : list (Z * Z))
      (s2 : Z * Z) (cpost' : list (Z * Z)) :
  Forall (fun c => 0 <= snd c) cs -> 0 <= snd s ->
  coalesced cs s cpre' s2 cpost' ->
  fst s2 <= fst s /\ fst s + snd s <= fst s2 + snd s2.
Proof.
  intros Hpos Hs (cpre & cpost & s1 & -> & _ & _ & Hprev & Hnext).
  rewrite Forall_forall in Hpos.
  destruct Hprev as [(-> & -> & _)|(P & -> & HP & ->)];
    destruct Hnext as [(-> & -> & _)|(N & -> & HN & ->)];
    cbn [fst snd] in *.
  - lia.
  - assert (HN0 : 0 <= snd N) by (apply Hpos; rewrite in_app_iff; cbn; auto). lia.
  - assert (HP0 : 0 <= snd P) by (apply Hpos; rewrite !in_app_iff; cbn; auto). lia.
  - assert (HP0 : 0 <= snd P) by (apply Hpos; rewrite !in_app_iff; cbn; auto).
    assert (HN0 : 0 <= snd N) by (apply Hpos; rewrite !in_app_iff; cbn; auto). lia.
Qed.

Lemma split_unique {A : Type} (P Q : A -> Prop) (a b a' b' : list A) :
  (forall x, P x -> Q x -> False) ->
  a ++ b = a' ++ b' -> Forall P a -> Forall Q b -> Forall P a' -> Forall Q b' ->
  a = a' /\ b = b'.
Proof.
  intros Hex. revert a'. induction a as [|x a IH]; intros a' Heq Ha Hb Ha' Hb'.
  - destruct a' as [|y a']; [auto|exfalso]. cbn [app] in Heq. subst b.
    inversion Hb; subst. inversion Ha'; subst. eauto.
  - destruct a' as [|y a'].
    + exfalso. cbn [app] in Heq. subst b'. inversion Hb'; subst. inversion Ha; subst. eauto.
    + cbn [app] in Heq. injection Heq as -> Heq.
      inversion Ha; subst. inversion Ha'; subst.
      destruct (IH a' Heq) as [-> ->]; auto.
Qed.

(** X6.  [heap_insert_free_chunk] of a span that overlaps no free chunk
    goes through and keeps the free list well formed (ascending, with gaps,
    inside the region); the free chunks then hold exactly the addresses they
    held before and those of the span, and the chunk it returns is a member
    of the list that holds the whole span. *)
Theorem heap_insert_free_chunk_ok (st : state) (S sz : Z) :
  free_list_ok st -> span_ok (theheap st) (S, sz) -> chunk_len (mem st) S = sz ->
  Forall (fun c => disjoint c (S, sz)) (chunks st) ->
  exists R st',
    heap_insert_free_chunk st S = Some (R, st')
    /\ free_list_ok st'
    /\ total (chunks st') = total (chunks st) + sz
    /\ (forall x, covers (chunks st') x <-> covers (chunks st) x \/ S <= x < S + sz)
    /\ In R (flist st') /\ R <= S /\ S + sz <= R + chunk_len (mem st') R.
Proof.
  intros (Hreg & Hcs & Hasc) Hs Hlen Hdis.
  destruct (heap_insert_effect st S sz Hreg Hcs Hasc Hs Hlen Hdis)
    as (st2 & cpre' & s2 & cpost' & Hins & Hb & Hl & Hch & _ & Hco).
  destruct (tiling_free _ _ _ _ _ _ Hreg Hcs Hasc Hs Hco) as (Hcs2 & Hasc2 & Htot2 & _).
  pose proof (span_ok_nonneg _ _ Hcs) as Hpos.
  assert (Hsz : 0 <= snd (S, sz))
    by (destruct Hs as (_ & _ & Hmin & _); cbn [snd] in *; unfold_sizes; lia).
  destruct (coalesced_holder _ _ _ _ _ Hpos Hsz Hco) as [Hlo Hhi].
  cbn [fst snd] in *.
  exists (fst s2), st2. split; [exact Hins|]. split.
  { split; [|split].
    - unfold region_ok in *. rewrite Hb, Hl. exact Hreg.
    - rewrite Hch. eapply Forall_impl; [|exact Hcs2]. intros c.
      unfold span_ok. rewrite Hb, Hl. tauto.
    - rewrite Hch. exact Hasc2. }
  split; [rewrite Hch; exact Htot2|].
  split; [intros x; rewrite Hch; apply (coalesced_covers _ (S, sz) _ _ _ x Hpos Hsz Hco)|].
  assert (Hin : In s2 (chunks st2)) by (rewrite Hch; apply in_elt).
  unfold chunks in Hin. apply in_map_iff in Hin. destruct Hin as (c & <- & Hc).
  cbn [fst snd] in *. auto.
Qed.

(** X7.  A span that lies exactly between two free chunks is merged with
    both: the chunk below absorbs the span and the chunk above, the list
    loses a node, and the chunk below is the one returned. *)
Theorem heap_insert_merges_both (st : state) (S sz P lp N ln : Z)
        (pre post : list (Z * Z)) :
  free_list_ok st -> span_ok (theheap st) (S, sz) -> chunk_len (mem st) S = sz ->
  chunks st = pre ++ (P, lp) :: (N, ln) :: post ->
  P + lp = S -> S + sz = N ->
  exists st',
    heap_insert_free_chunk st S = Some (P, st')
    /\ chunks st' = pre ++ (P, lp + sz + ln) :: post.
Proof.
  intros (Hreg & Hcs & Hasc) Hs Hlen Hch HP HN.
  pose proof (span_ok_nonneg _ _ Hcs) as Hpos.
  pose proof Hasc as Hg. rewrite (ascending_iff_gapped _ _ Hcs) in Hg.
  rewrite Hch in Hg, Hpos.
  rewrite gapped_app in Hg. destruct Hg as (Hgpre & HltP & _ & Hgpost).
  rewrite Forall_app in Hpos. destruct Hpos as [Hppre Hpos].
  pose proof (Forall_inv Hpos) as HP0.
  pose proof (Forall_inv (Forall_inv_tail Hpos)) as HN0.
  pose proof (Forall_inv_tail (Forall_inv_tail Hpos)) as Hppost.
  cbn [fst snd] in *.
  destruct (gapped_ends _ _ Hppre Hgpre) as [_ Hends].
  pose proof (gapped_starts _ _ Hppost Hgpost) as Hstarts.
  assert (Hsz : 0 < sz)
    by (destruct Hs as (_ & _ & Hmin & _); cbn [snd] in *; unfold_sizes; lia).
  assert (Hbelow : Forall (fun c => fst c + snd c <= fst (S, sz)) (pre ++ [(P, lp)])).
  { rewrite Forall_app. split; [|constructor; [cbn [fst snd]; lia|constructor]].
    eapply Forall_impl; [|exact Hends]. cbn [fst snd]. intros c. lia. }
  assert (Habove : Forall (fun c => fst (S, sz) + snd (S, sz) <= fst c) ((N, ln) :: post)).
  { constructor; [cbn [fst snd]; lia|].
    eapply Forall_impl; [|exact Hstarts]. cbn [fst snd]. intros c. lia. }
  assert (Hdis : Forall (fun c => disjoint c (S, sz)) (chunks st)).
  { rewrite Hch. change (pre ++ (P, lp) :: (N, ln) :: post)
      with (pre ++ [(P, lp)] ++ (N, ln) :: post).
    rewrite app_assoc, Forall_app. split.
    - eapply Forall_impl; [|exact Hbelow]. unfold disjoint. intros c. lia.
    - eapply Forall_impl; [|exact Habove]. unfold disjoint. intros c. lia. }
  destruct (heap_insert_effect st S sz Hreg Hcs Hasc Hs Hlen Hdis)
    as (st2 & cpre' & s2 & cpost' & Hins & _ & _ & Hch2 & _ & Hco).
  destruct Hco as (cpre & cpost & s1 & Hsplit & Hcpre & Hcpost & Hprev & Hnext).
  pose proof (span_ok_nonneg _ _ Hcs) as Hposc. rewrite Hsplit, Forall_app in Hposc.
  rewrite Hch in Hsplit.
  change (pre ++ (P, lp) :: (N, ln) :: post)
    with (pre ++ [(P, lp)] ++ (N, ln) :: post) in Hsplit.
  rewrite app_assoc in Hsplit.
  assert (Hppre1 : Forall (fun d : Z * Z => 0 <= snd d) (pre ++ [(P, lp)]))
    by (rewrite Forall_app; split; [exact Hppre|constructor; [exact HP0|constructor]]).
  destruct (split_unique (fun c => fst c + snd c <= S /\ 0 <= snd c)
              (fun c => S + sz <= fst c) _ _ _ _
              ltac:(cbn beta; intros c H1 H2; lia)
              Hsplit (Forall_and Hbelow Hppre1) Habove
              (Forall_and Hcpre (proj1 Hposc)) Hcpost) as [Hpre' Hpost'].
  destruct Hprev as [(_ & _ & Hno)|(P' & Hp' & _ & Hs1)].
  { exfalso. apply (Hno pre (P, lp) (eq_sym Hpre')). cbn [fst snd]. exact HP. }
  rewrite <- Hpre' in Hp'. apply app_inj_tail in Hp'. destruct Hp' as [Hq1 Hq2].
  rewrite <- Hq2 in Hs1. cbn [fst snd] in Hs1.
  destruct Hnext as [(_ & _ & Hno)|(N' & Hn' & _ & Hs2)].
  { exfalso. apply (Hno _ _ (eq_sym Hpost')). rewrite Hs1. cbn [fst snd]. lia. }
  rewrite <- Hpost' in Hn'. injection Hn' as Hq3 Hq4.
  rewrite Hs1, <- Hq3 in Hs2. cbn [fst snd] in Hs2.
  exists st2. rewrite Hs2 in Hins. cbn [fst] in Hins. split; [exact Hins|].
  rewrite Hch2, Hs2, <- Hq1, <- Hq4. reflexivity.
Qed.

Lemma find_insert_before_found (pre post : list Z) (S N : Z) :
  Forall (fun c => c <= S) pre -> S < N ->
  find_insert_before (pre ++ N :: post) S = Some N.
Proof.
  intros Hpre HN. induction pre as [|c pre IH]; cbn [app find_insert_before].
  - destruct (Z.ltb_spec S N); [reflexivity|lia].
  - inversion Hpre; subst. destruct (Z.ltb_spec S c); [lia|]. apply IH. assumption.
Qed.

(** X8.  The DEBUG_ASSERT of [heap_insert_free_chunk]: a chunk that starts
    below a free chunk and ends above the start of that chunk, with no free
    chunk of a higher address before it in the list, is not inserted; the
    assertion fails. *)
Theorem heap_insert_overlap_asserts (st : state) (S N : Z) (pre post : list Z) :
  flist st = pre ++ N :: post -> Forall (fun c => c <= S) pre -> S < N ->
  N < wrap (S + chunk_len (mem st) S) ->
  heap_insert_free_chunk st S = None.
Proof.
  intros Hfl Hpre HN Hover. unfold heap_insert_free_chunk.
  rewrite Hfl, (find_insert_before_found pre post S N Hpre HN).
  destruct (Z.leb_spec (wrap (S + chunk_len (mem st) S)) N); [lia|reflexivity].
Qed.

(** X5.  [heap_init] over a region that starts after the image and does
    not wrap: when the length of the region is not a multiple of the pointer
    size the DEBUG_ASSERT of [heap_create_free_chunk] fails; otherwise the
    free list is one chunk, the region, also when the region is empty or
    shorter than a free chunk header. *)
Theorem heap_init_outcome (_end _end_of_ram : Z) (m : memory) :
  sizeof_heap <= _end -> _end <= _end_of_ram -> _end_of_ram < modulus ->
  ((_end_of_ram - _end) mod sizeof_ptr <> 0 -> heap_init _end _end_of_ram m = None)
  /\ ((_end_of_ram - _end) mod sizeof_ptr = 0 ->
      exists st,
        heap_init _end _end_of_ram m = Some st
        /\ base (theheap st) = _end /\ len (theheap st) = _end_of_ram - _end
        /\ chunks st = [(_end, _end_of_ram - _end)]).
Proof.
  intros He Hle Hr.
  assert (Hlen : wrap (_end_of_ram - _end) = _end_of_ram - _end)
    by (apply wrap_small; unfold in_range; rewrite modulus_eq in *; unfold_sizes; lia).
  unfold heap_init. rewrite Hlen. cbn [theheap base len].
  unfold heap_create_free_chunk.
  destruct (Z.eqb_spec ((_end_of_ram - _end) mod sizeof_ptr) 0) as [Hmod|Hmod].
  - split; [intros H; contradiction|intros _].
    set (st1 := set_chunk_len _ _end (_end_of_ram - _end)).
    assert (Hins : heap_insert_free_chunk st1 _end = Some (_end, set_free_list st1 [_end])).
    { unfold heap_insert_free_chunk. cbn [st1 flist theheap free_list set_chunk_len set_mem
        find_insert_before list_add_tail app].
      unfold merge_prev. cbn [flist theheap free_list set_free_list].
      rewrite list_prev_first. reflexivity. }
    rewrite Hins. eexists. split; [reflexivity|].
    cbn [set_free_list theheap base len st1 set_chunk_len set_mem].
    split; [reflexivity|]. split; [reflexivity|].
    unfold chunks. cbn [flist set_free_list theheap free_list map mem].
    subst st1. rewrite chunk_len_set_same. reflexivity.
  - split; [intros _; reflexivity|intros H; contradiction].
Qed.

(** ** ROUNDUP and the alignment argument *)

(** X1.  [ROUNDUP(a, b)] for a power of two [b], when [a + b - 1] does not
    wrap: the least multiple of [b] that is not below [a]. *)
Theorem ROUNDUP_least_multiple (a k : Z) :
  0 <= k < 32 -> 0 <= a -> a + 2 ^ k - 1 < modulus ->
  ROUNDUP a (2 ^ k) mod 2 ^ k = 0
  /\ a <= ROUNDUP a (2 ^ k) < a + 2 ^ k
  /\ forall m, a <= m -> m mod 2 ^ k = 0 -> ROUNDUP a (2 ^ k) <= m.
Proof.
  intros Hk Ha Hfit.
  pose proof (ROUNDUP_divide a k Hk) as Hdiv.
  pose proof (ROUNDUP_bounds a k Hk Ha Hfit) as Hb.
  assert (Hpos : 0 < 2 ^ k) by (apply Z.pow_pos_nonneg; lia).
  split; [exact Hdiv|]. split; [lia|].
  intros m Hm Hmm.
  set (r := ROUNDUP a (2 ^ k)) in *. set (b := 2 ^ k) in *.
  apply Z.mod_divide in Hdiv, Hmm; try lia.
  destruct Hdiv as [q Hq]. destruct Hmm as [q' Hq'].
  destruct (Z_le_gt_dec r m) as [Hle|Hgt]; [exact Hle|exfalso].
  assert (q' < q) by nia. assert (q' + 1 <= q) by lia.
  assert ((q' + 1) * b <= q * b) by (apply Z.mul_le_mono_nonneg_r; lia).
  lia.
Qed.

(** X2.  [ROUNDUP(a, b)] for a power of two [b] and an [a] within [b - 1]
    of the top of the address space wraps around to 0. *)
Theorem ROUNDUP_wraps_to_zero (a k : Z) :
  0 <= k < 32 -> in_range a -> modulus - 2 ^ k < a -> ROUNDUP a (2 ^ k) = 0.
Proof.
  intros Hk [Ha0 Ha1] Htop.
  assert (Hpos : 0 < 2 ^ k) by (apply Z.pow_pos_nonneg; lia).
  assert (Hlt : 2 ^ k < modulus).
  { unfold modulus. apply Z.pow_lt_mono_r; lia. }
  rewrite (ROUNDUP_pow2 a k Hk).
  assert (Hw : wrap (a + 2 ^ k - 1) = a + 2 ^ k - 1 - modulus).
  { unfold wrap. symmetry. apply (Z.mod_unique _ _ 1); lia. }
  rewrite Hw, Z.div_small by lia. reflexivity.
Qed.

(** X3.  The alignment check lets through 0 and the powers of two and
    nothing else, and an alignment it rejects makes [heap_alloc] return NULL
    at once: whatever the heap and the size, the heap is left as it is. *)
Theorem heap_alloc_rejects_alignment (a : Z) :
  in_range a ->
  (bad_alignment a = true <-> a <> 0 /\ forall k, 0 <= k < 32 -> a <> 2 ^ k)
  /\ (bad_alignment a = true -> forall st n, heap_alloc st n a = Some (0, st)).
Proof.
  intros Ha. split; [split|].
  - intros Hbad. split.
    + intros ->. rewrite bad_alignment_zero in Hbad. discriminate.
    + intros k Hk ->. rewrite (bad_alignment_pow2 k Hk) in Hbad. discriminate.
  - intros [H0 Hpow]. destruct (bad_alignment a) eqn:Hbad; [reflexivity|exfalso].
    destruct (bad_alignment_false a Ha Hbad) as [->|(k & Hk & ->)];
      [contradiction|apply (Hpow k Hk); reflexivity].
  - intros Hbad st n. unfold heap_alloc. rewrite Hbad. reflexivity.
Qed.

(** X4.  A nonzero alignment below 16 is raised to 16: [heap_alloc] with
    alignment 1, 2, 4 or 8 does what it does with alignment 16, in every
    heap and for every size. *)
Theorem heap_alloc_small_alignment (st : state) (n a : Z) :
  In a [1; 2; 4; 8] -> heap_alloc st n a = heap_alloc st n 16.
Proof.
  intros [<-|[<-|[<-|[<-|[]]]]]; reflexivity.
Qed.

(** X23.  The size computation of lines 209-227 gives the size it is meant
    to give (header added, raised to a free chunk header, rounded up to the
    pointer size, alignment added) exactly when that size is below 2^32; for
    alignment 0 that is for requests of up to 0xFFFFFFF0 bytes. *)
Theorem normalize_exact_iff (n a : Z) :
  in_range n -> in_range a ->
  (fst (normalize n a) = exact_size n a <-> exact_size n a < modulus)
  /\ (exact_size n 0 < modulus <-> n <= 0xFFFFFFF0).
Proof.
  intros Hn Ha. split; [split|].
  - intros Heq. rewrite (normalize_eq n a Ha) in Heq. cbn [fst] in Heq.
    rewrite <- Heq. apply normalized_size_range.
  - intros Hlt. rewrite (normalize_eq n a Ha). cbn [fst].
    apply normalized_size_exact. repeat split; try apply Hn; try apply Ha; exact Hlt.
  - unfold exact_size, clamped_alignment. cbn [Z.eqb]. word_arith.
Qed.

(** ** heap_test *)

Lemma get_set_same (g : list Z) (i : nat) (v : Z) :
  (i < length g)%nat -> get_ptr (set_ptr g i v) i = v.
Proof.
  unfold get_ptr. revert i. induction g as [|x g IH]; intros [|i] H; cbn in *; try lia.
  apply IH. lia.
Qed.

Lemma set_ptr_length (g : list Z) (i : nat) (v : Z) : length (set_ptr g i v) = length g.
Proof.
  revert i. induction g as [|x g IH]; intros [|i]; cbn [set_ptr length]; try reflexivity.
  rewrite IH. reflexivity.
Qed.

Lemma set_ptr_get (g : list Z) (i : nat) : set_ptr g i (get_ptr g i) = g.
Proof.
  unfold get_ptr. revert i. induction g as [|x g IH]; intros [|i]; cbn [set_ptr nth];
    try reflexivity.
  rewrite IH. reflexivity.
Qed.

Lemma live_of_cons (x : Z) (g : list Z) : live_of (x :: g) = live_of [x] ++ live_of g.
Proof. unfold live_of. cbn [filter]. destruct (negb (x =? 0)); reflexivity. Qed.

Lemma live_of_set (g : list Z) (i : nat) (v : Z) :
  (i < length g)%nat ->
  Permutation (live_of [get_ptr g i] ++ live_of (set_ptr g i v)) (live_of [v] ++ live_of g).
Proof.
  revert i. induction g as [|x g IH]; intros [|i] H; cbn [length] in H; try lia.
  - cbn [set_ptr]. change (get_ptr (x :: g) 0) with x.
    rewrite (live_of_cons v g), (live_of_cons x g). apply Permutation_app_swap_app.
  - cbn [set_ptr]. change (get_ptr (x :: g) (S i)) with (get_ptr g i).
    rewrite (live_of_cons x (set_ptr g i v)), (live_of_cons x g).
    etransitivity; [apply Permutation_app_swap_app|].
    etransitivity; [|apply Permutation_app_swap_app].
    apply Permutation_app_head, IH. lia.
Qed.

Lemma get_ptr_live (g : list Z) (i : nat) :
  get_ptr g i <> 0 -> In (get_ptr g i) (live_of g) /\ (i < length g)%nat.
Proof.
  intros Hne. destruct (Nat.lt_ge_cases i (length g)) as [Hlt|Hge].
  - split; [|exact Hlt]. unfold live_of. apply filter_In. split.
    + apply nth_In, Hlt.
    + destruct (Z.eqb_spec (get_ptr g i) 0); [contradiction|reflexivity].
  - exfalso. apply Hne. unfold get_ptr. apply nth_overflow, Hge.
Qed.

(** [heap_free(ptr[i]); ptr[i] = 0;] *)
Lemma slot_free (st : state) (g : list Z) (i : nat) :
  heap_inv st (live_of g) ->
  exists st',
    heap_free st (get_ptr g i) = Some st'
    /\ base (theheap st') = base (theheap st) /\ len (theheap st') = len (theheap st)
    /\ heap_inv st' (live_of (set_ptr g i 0)).
Proof.
  intros Hinv. destruct (Z.eq_dec (get_ptr g i) 0) as [H0|Hne].
  - exists st. rewrite H0 at 1. split; [reflexivity|].
    rewrite <- H0, set_ptr_get. auto.
  - destruct (get_ptr_live g i Hne) as [Hin Hlt].
    destruct (heap_free_value st (live_of g) _ Hinv Hin)
      as (st' & live' & Hfree & Hperm & _ & Hb & Hl & Hinv' & _).
    exists st'. split; [exact Hfree|]. split; [exact Hb|]. split; [exact Hl|].
    apply (heap_inv_perm st' live'); [|exact Hinv'].
    pose proof (live_of_set g i 0 Hlt) as Hset.
    assert (Hone : live_of [get_ptr g i] = [get_ptr g i]).
    { unfold live_of. cbn [filter].
      destruct (Z.eqb_spec (get_ptr g i) 0); [contradiction|reflexivity]. }
    rewrite Hone in Hset. cbn [app] in Hset.
    change (live_of [0] ++ live_of g) with (live_of g) in Hset.
    apply (Permutation_cons_inv (a := get_ptr g i)).
    transitivity (live_of g); [symmetry; exact Hperm|symmetry; exact Hset].
Qed.

(** [ptr[i] = heap_alloc(n, a);] into an empty slot. *)
Lemma slot_alloc (st : state) (g : list Z) (i : nat) (n a : Z) :
  heap_inv st (live_of g) -> (i < length g)%nat -> get_ptr g i = 0 ->
  request_fits n a -> bad_alignment a = false ->
  exists p st',
    heap_alloc st n a = Some (p, st')
    /\ base (theheap st') = base (theheap st) /\ len (theheap st') = len (theheap st)
    /\ heap_inv st' (live_of (set_ptr g i p))
    /\ (a <> 0 -> p mod clamped_alignment a = 0).
Proof.
  intros Hinv Hlt Hget Hreq Hbad.
  destruct (heap_alloc_spec st (live_of g) n a Hinv Hreq Hbad)
    as (p & st' & Halloc & [(-> & -> & _)|(Hp & _ & _ & Hal & Hb & Hl & Hinv')]).
  - exists 0, st. split; [exact Halloc|].
    pose proof (set_ptr_get g i) as Hs. rewrite Hget in Hs. rewrite Hs.
    split; [reflexivity|]. split; [reflexivity|]. split; [exact Hinv|].
    intros _. apply Zmod_0_l.
  - exists p, st'. split; [exact Halloc|]. split; [exact Hb|]. split; [exact Hl|].
    split; [|exact Hal].
    apply (heap_inv_perm st' (live_of g ++ [p])); [|exact Hinv'].
    pose proof (live_of_set g i p Hlt) as Hset. rewrite Hget in Hset.
    assert (Hone : live_of [p] = [p]).
    { unfold live_of. cbn [filter]. destruct (Z.eqb_spec p 0); [contradiction|reflexivity]. }
    rewrite Hone in Hset. cbn [app] in Hset.
    change (live_of [0] ++ live_of (set_ptr g i p)) with (live_of (set_ptr g i p)) in Hset.
    transitivity (p :: live_of g); [symmetry; apply Permutation_cons_append|symmetry; exact Hset].
Qed.

Lemma test_align (k : Z) :
  0 <= k < 8 ->
  0 < Z.shiftl 1 k <= 128 /\ bad_alignment (Z.shiftl 1 k) = false
  /\ forall p, p mod clamped_alignment (Z.shiftl 1 k) = 0 -> p mod Z.shiftl 1 k = 0.
Proof.
  intros Hk.
  assert (Hc : k = 0 \/ k = 1 \/ k = 2 \/ k = 3 \/ k = 4 \/ k = 5 \/ k = 6 \/ k = 7) by lia.
  destruct Hc as [->|[->|[->|[->|[->|[->|[->| ->]]]]]]];
    (split; [cbn; lia|]; split; [reflexivity|]);
    intros p; unfold clamped_alignment; cbn; intros Hp;
    Z.to_euclidean_division_equations; lia.
Qed.

Lemma test_round_ok (rand : nat -> Z) (i : nat) (st : state) (ptr : list Z) :
  heap_inv st (live_of ptr) -> length ptr = 16%nat ->
  exists st' ptr',
    test_round rand i (st, ptr) = Some (st', ptr')
    /\ base (theheap st') = base (theheap st) /\ len (theheap st') = len (theheap st)
    /\ heap_inv st' (live_of ptr') /\ length ptr' = 16%nat.
Proof.
  intros Hinv Hlen. unfold test_round.
  set (index := Z.to_nat (wrap (rand (3 * i)%nat) mod 16)).
  set (k := wrap (rand (3 * i + 1)%nat) mod 8).
  set (size := wrap (rand (3 * i + 2)%nat) mod 32768).
  assert (Hindex : (index < 16)%nat).
  { subst index. pose proof (Z.mod_pos_bound (wrap (rand (3 * i)%nat)) 16 ltac:(lia)). lia. }
  assert (Hk : 0 <= k < 8) by (subst k; apply Z.mod_pos_bound; lia).
  assert (Hsize : 0 <= size < 32768) by (subst size; apply Z.mod_pos_bound; lia).
  destruct (test_align k Hk) as (Halign & Hbad & Hmod).
  assert (Hreq : request_fits size (Z.shiftl 1 k)) by (apply small_request_fits; lia).
  cbn [fst snd].
  assert (Hfreed : exists st1 ptr1,
            (if get_ptr ptr index =? 0 then Some (st, ptr)
             else and_then (test_free index (st, ptr))
                    (fun s1 => Some (fst s1, set_ptr (snd s1) index 0)))
            = Some (st1, ptr1)
            /\ base (theheap st1) = base (theheap st)
            /\ len (theheap st1) = len (theheap st)
            /\ heap_inv st1 (live_of ptr1) /\ length ptr1 = 16%nat
            /\ get_ptr ptr1 index = 0).
  { destruct (Z.eqb_spec (get_ptr ptr index) 0) as [H0|Hne].
    - exists st, ptr. auto 10.
    - destruct (slot_free st ptr index Hinv) as (st1 & Hfree & Hb & Hl & Hinv1).
      exists st1, (set_ptr ptr index 0). unfold test_free. cbn [fst snd].
      rewrite Hfree. cbn [and_then fst snd]. split; [reflexivity|].
      split; [exact Hb|]. split; [exact Hl|]. split; [exact Hinv1|].
      split; [rewrite set_ptr_length; exact Hlen|].
      apply get_set_same. lia. }
  destruct Hfreed as (st1 & ptr1 & -> & Hb1 & Hl1 & Hinv1 & Hlen1 & Hget1).
  cbn [and_then].
  destruct (slot_alloc st1 ptr1 index size (Z.shiftl 1 k) Hinv1 ltac:(lia) Hget1 Hreq Hbad)
    as (p & st2 & Halloc & Hb2 & Hl2 & Hinv2 & Hal).
  exists st2, (set_ptr ptr1 index p).
  unfold test_alloc. cbn [fst snd]. rewrite Halloc. cbn [and_then snd].
  rewrite get_set_same by lia.
  rewrite (Hmod p (Hal ltac:(lia))). cbn [Z.eqb].
  split; [reflexivity|]. split; [congruence|]. split; [congruence|].
  split; [exact Hinv2|]. rewrite set_ptr_length. exact Hlen1.
Qed.

Lemma test_rounds_ok (rand : nat -> Z) (n i : nat) (st : state) (ptr : list Z) :
  heap_inv st (live_of ptr) -> length ptr = 16%nat ->
  exists st' ptr',
    test_rounds rand n i (st, ptr) = Some (st', ptr')
    /\ base (theheap st') = base (theheap st) /\ len (theheap st') = len (theheap st)
    /\ heap_inv st' (live_of ptr').
Proof.
  revert i st ptr. induction n as [|n IH]; intros i st ptr Hinv Hlen; cbn [test_rounds].
  - exists st, ptr. auto.
  - destruct (test_round_ok rand i st ptr Hinv Hlen)
      as (st1 & ptr1 & -> & Hb1 & Hl1 & Hinv1 & Hlen1).
    cbn [and_then].
    destruct (IH (S i) st1 ptr1 Hinv1 Hlen1) as (st' & ptr' & Hr & Hb & Hl & Hinv').
    exists st', ptr'. rewrite Hr, Hb, Hl. auto.
Qed.

Lemma test_free_all_ok (ptr : list Z) (st : state) :
  heap_inv st (live_of ptr) ->
  exists st',
    test_free_all st ptr = Some st'
    /\ base (theheap st') = base (theheap st) /\ len (theheap st') = len (theheap st)
    /\ heap_inv st' [].
Proof.
  revert st. induction ptr as [|p ptr IH]; intros st Hinv; cbn [test_free_all].
  - exists st. auto.
  - rewrite live_of_cons in Hinv. unfold live_of at 1 in Hinv. cbn [filter] in Hinv.
    destruct (Z.eqb_spec p 0) as [->|Hne]; cbn [negb app and_then] in *.
    + apply IH, Hinv.
    + destruct (heap_free_spec st _ 0 p Hinv eq_refl) as (st1 & -> & Hb & Hl & Hinv1 & _).
      cbn [remove_nth and_then] in *.
      destruct (IH st1 Hinv1) as (st' & Hr & Hb' & Hl' & Hinv').
      exists st'. rewrite Hr, Hb', Hl'. auto.
Qed.

Lemma live_of_zeros (ptr : list Z) : live_of (map (fun _ => 0) ptr) = [].
Proof. induction ptr as [|x ptr IH]; [reflexivity|exact IH]. Qed.

(** The six blocks of lines 82-94 are all given back. *)
Lemma test_fixed_ok (st : state) (ptr : list Z) :
  heap_inv st [] -> length ptr = 16%nat ->
  exists st' ptr',
    test_steps test_fixed (st, ptr) = Some (st', ptr')
    /\ base (theheap st') = base (theheap st) /\ len (theheap st') = len (theheap st)
    /\ heap_inv st' [] /\ length ptr' = 16%nat.
Proof.
  intros Hinv Hlen.
  do 16 (destruct ptr as [|? ptr]; [discriminate Hlen|]).
  destruct ptr; [|discriminate Hlen]. clear Hlen.
  change (heap_inv st []) with (heap_inv st (live_of (repeat 0 16))) in Hinv.
  cbn [repeat] in Hinv.
  destruct (slot_alloc st _ 0 8 0 Hinv ltac:(cbn; lia) eq_refl
              (small_request_fits 8 0 ltac:(lia) ltac:(lia)) eq_refl)
    as (p0 & st1 & Ha0 & Hb1 & Hl1 & Hinv1 & _). cbn [set_ptr] in Hinv1.
  destruct (slot_alloc st1 _ 1 32 0 Hinv1 ltac:(cbn; lia) eq_refl
              (small_request_fits 32 0 ltac:(lia) ltac:(lia)) eq_refl)
    as (p1 & st2 & Ha1 & Hb2 & Hl2 & Hinv2 & _). cbn [set_ptr] in Hinv2.
  destruct (slot_alloc st2 _ 2 7 0 Hinv2 ltac:(cbn; lia) eq_refl
              (small_request_fits 7 0 ltac:(lia) ltac:(lia)) eq_refl)
    as (p2 & st3 & Ha2 & Hb3 & Hl3 & Hinv3 & _). cbn [set_ptr] in Hinv3.
  destruct (slot_alloc st3 _ 3 0 0 Hinv3 ltac:(cbn; lia) eq_refl
              (small_request_fits 0 0 ltac:(lia) ltac:(lia)) eq_refl)
    as (p3 & st4 & Ha3 & Hb4 & Hl4 & Hinv4 & _). cbn [set_ptr] in Hinv4.
  destruct (slot_alloc st4 _ 4 98713 0 Hinv4 ltac:(cbn; lia) eq_refl
              (small_request_fits 98713 0 ltac:(lia) ltac:(lia)) eq_refl)
    as (p4 & st5 & Ha4 & Hb5 & Hl5 & Hinv5 & _). cbn [set_ptr] in Hinv5.
  destruct (slot_alloc st5 _ 5 16 0 Hinv5 ltac:(cbn; lia) eq_refl
              (small_request_fits 16 0 ltac:(lia) ltac:(lia)) eq_refl)
    as (p5 & st6 & Ha5 & Hb6 & Hl6 & Hinv6 & _). cbn [set_ptr] in Hinv6.
  destruct (slot_free st6 _ 5 Hinv6) as (st7 & Hf5 & Hb7 & Hl7 & Hinv7).
  cbn [set_ptr] in Hinv7.
  destruct (slot_free st7 _ 1 Hinv7) as (st8 & Hf1 & Hb8 & Hl8 & Hinv8).
  cbn [set_ptr] in Hinv8.
  destruct (slot_free st8 _ 3 Hinv8) as (st9 & Hf3 & Hb9 & Hl9 & Hinv9).
  cbn [set_ptr] in Hinv9.
  destruct (slot_free st9 _ 0 Hinv9) as (st10 & Hf0 & Hb10 & Hl10 & Hinv10).
  cbn [set_ptr] in Hinv10.
  destruct (slot_free st10 _ 4 Hinv10) as (st11 & Hf4 & Hb11 & Hl11 & Hinv11).
  cbn [set_ptr] in Hinv11.
  destruct (slot_free st11 _ 2 Hinv11) as (st12 & Hf2 & Hb12 & Hl12 & Hinv12).
  cbn [set_ptr] in Hinv12.
  unfold get_ptr in Hf5, Hf1, Hf3, Hf0, Hf4, Hf2. cbn [nth] in Hf5, Hf1, Hf3, Hf0, Hf4, Hf2.
  exists st12. eexists.
  unfold test_fixed, test_alloc, test_free, get_ptr. cbn [test_steps fst snd].
  rewrite Ha0. cbn [and_then fst snd set_ptr].
  rewrite Ha1. cbn [and_then fst snd set_ptr].
  rewrite Ha2. cbn [and_then fst snd set_ptr].
  rewrite Ha3. cbn [and_then fst snd set_ptr].
  rewrite Ha4. cbn [and_then fst snd set_ptr].
  rewrite Ha5. cbn [and_then fst snd set_ptr nth].
  rewrite Hf5. cbn [and_then fst snd nth].
  rewrite Hf1. cbn [and_then fst snd nth].
  rewrite Hf3. cbn [and_then fst snd nth].
  rewrite Hf0. cbn [and_then fst snd nth].
  rewrite Hf4. cbn [and_then fst snd nth].
  rewrite Hf2. cbn [and_then fst snd nth].
  split; [reflexivity|]. split; [congruence|]. split; [congruence|].
  split; [exact Hinv12|reflexivity].
Qed.

(** X19.  [heap_test] cannot fail.  Whatever numbers [rand] returns and
    whatever the array of pointers holds at the start, on a well-formed heap
    with nothing allocated the test runs to its end: no DEBUG_ASSERT of the
    allocator fails, the alignment check of line 118 holds in each of the
    32768 passes, and at the end every block is given back, the free list
    being chunk for chunk what it was. *)
Theorem heap_test_passes (rand : nat -> Z) (ptr : list Z) (st : state) :
  heap_inv st [] -> length ptr = 16%nat ->
  exists st',
    heap_test rand ptr st = Some st' /\ chunks st' = chunks st /\ heap_inv st' [].
Proof.
  intros Hinv Hlen. unfold heap_test.
  destruct (test_fixed_ok st ptr Hinv Hlen) as (st1 & ptr1 & -> & Hb1 & Hl1 & Hinv1 & Hlen1).
  cbn [and_then fst snd].
  assert (Hinv1' : heap_inv st1 (live_of (map (fun _ => 0) ptr1)))
    by (rewrite live_of_zeros; exact Hinv1).
  destruct (test_rounds_ok rand (Z.to_nat 32768) 0 st1 (map (fun _ => 0) ptr1) Hinv1'
              ltac:(rewrite length_map; exact Hlen1))
    as (st2 & ptr2 & -> & Hb2 & Hl2 & Hinv2).
  cbn [and_then fst snd].
  destruct (test_free_all_ok ptr2 st2 Hinv2) as (st3 & -> & Hb3 & Hl3 & Hinv3).
  exists st3. split; [reflexivity|]. split; [|exact Hinv3].
  apply (same_blocks_same_chunks st3 st [] [] Hinv3 Hinv); [congruence|congruence|].
  apply Permutation_refl.
Qed.

(** ** The theorems on sample inputs *)

Lemma ROUNDUP_least_multiple_witness :
  ROUNDUP 13 (2 ^ 2) mod 2 ^ 2 = 0
  /\ 13 <= ROUNDUP 13 (2 ^ 2) < 13 + 2 ^ 2
  /\ forall m, 13 <= m -> m mod 2 ^ 2 = 0 -> ROUNDUP 13 (2 ^ 2) <= m.
Proof.
  apply (ROUNDUP_least_multiple 13 2); [lia|lia|rewrite modulus_eq; lia].
Defined.

Lemma ROUNDUP_wraps_to_zero_witness : ROUNDUP 0xFFFFFFFD (2 ^ 2) = 0.
Proof.
  apply (ROUNDUP_wraps_to_zero 0xFFFFFFFD 2);
    [lia|unfold in_range; rewrite modulus_eq; lia|rewrite modulus_eq; lia].
Defined.

Lemma heap_alloc_rejects_alignment_witness :
  bad_alignment 24 = true /\ heap_alloc fresh_heap 8 24 = Some (0, fresh_heap).
Proof.
  destruct (heap_alloc_rejects_alignment 24) as [_ H].
  - unfold in_range. rewrite modulus_eq. lia.
  - split; [reflexivity|apply H; reflexivity].
Defined.

Lemma heap_alloc_small_alignment_witness :
  heap_alloc fresh_heap 100 4 = heap_alloc fresh_heap 100 16.
Proof.
  apply (heap_alloc_small_alignment fresh_heap 100 4). right. right. left. reflexivity.
Defined.

Lemma heap_init_outcome_witness :
  heap_init 0x100008 0x10100A zero_memory = None
  /\ exists st, heap_init 0x100008 0x100008 zero_memory = Some st
                /\ chunks st = [(0x100008, 0)].
Proof.
  split.
  - apply (heap_init_outcome 0x100008 0x10100A zero_memory);
      [vm_compute; discriminate|lia|rewrite modulus_eq; lia|vm_compute; discriminate].
  - destruct (heap_init_outcome 0x100008 0x100008 zero_memory) as [_ H];
      [vm_compute; discriminate|lia|rewrite modulus_eq; lia|].
    destruct (H eq_refl) as (st & Hinit & _ & _ & Hch).
    exists st. split; [exact Hinit|exact Hch].
Defined.

Lemma heap_insert_free_chunk_ok_witness :
  exists R st',
    heap_insert_free_chunk (state_of hole_filled) 0x10001C = Some (R, st')
    /\ free_list_ok st'
    /\ total (chunks st') = total (chunks (state_of hole_filled)) + 20
    /\ (forall x, covers (chunks st') x
                  <-> covers (chunks (state_of hole_filled)) x \/ 0x10001C <= x < 0x10001C + 20)
    /\ In R (flist st') /\ R <= 0x10001C
    /\ 0x10001C + 20 <= R + chunk_len (mem st') R.
Proof.
  apply (heap_insert_free_chunk_ok (state_of hole_filled) 0x10001C 20).
  - apply (heap_inv_free_list _ _ hole_filled_inv).
  - unfold span_ok. vm_compute. intuition discriminate.
  - vm_compute. reflexivity.
  - assert (H : chunks (state_of hole_filled) = [(0x100008, 20); (0x100030, 0xFD8)])
      by (vm_compute; reflexivity).
    rewrite H. unfold disjoint. repeat constructor; cbn [fst snd]; lia.
Defined.

Lemma heap_insert_merges_both_witness :
  exists st',
    heap_insert_free_chunk (state_of hole_filled) 0x10001C = Some (0x100008, st')
    /\ chunks st' = [] ++ [(0x100008, 20 + 20 + 0xFD8)].
Proof.
  apply (heap_insert_merges_both (state_of hole_filled) 0x10001C 20 0x100008 20
           0x100030 0xFD8 [] []).
  - apply (heap_inv_free_list _ _ hole_filled_inv).
  - unfold span_ok. vm_compute. intuition discriminate.
  - vm_compute. reflexivity.
  - vm_compute. reflexivity.
  - reflexivity.
  - reflexivity.
Defined.

Lemma heap_insert_overlap_asserts_witness :
  heap_insert_free_chunk (set_chunk_len two_chunk_heap 0x1000F0 0x20) 0x1000F0 = None.
Proof.
  apply (heap_insert_overlap_asserts _ 0x1000F0 0x100100 [0x100008] []).
  - reflexivity.
  - constructor; [lia|constructor].
  - lia.
  - vm_compute. reflexivity.
Defined.

Lemma fitting_runs_well_formed_witness :
  exists st live,
    run_from 0x100008 0x101008 zero_memory
      [op_alloc 8 0; op_alloc 32 16; op_free 0; op_alloc 5 3] = Some (st, live)
    /\ base (theheap st) = 0x100008 /\ len (theheap st) = 0x101008 - 0x100008
    /\ heap_inv st live.
Proof.
  apply (fitting_runs_well_formed 0x100008 0x101008 zero_memory
           [op_alloc 8 0; op_alloc 32 16; op_free 0; op_alloc 5 3]).
  - unfold symbols_ok. rewrite modulus_eq. vm_compute. intuition discriminate.
  - constructor; [right; apply small_request_fits; lia|].
    constructor; [right; apply small_request_fits; lia|].
    constructor; [exact I|].
    constructor; [left; reflexivity|constructor].
Defined.

Lemma heap_alloc_fresh_block_witness :
  exists p st',
    heap_alloc (state_of two_blocks) 100 0 = Some (p, st')
    /\ base (theheap (state_of two_blocks)) + sizeof_alloc_struct_begin <= p
    /\ p + 100 <= base (theheap (state_of two_blocks)) + len (theheap (state_of two_blocks))
    /\ Forall (fun q => hdr_ptr (mem (state_of two_blocks)) q
                        + hdr_size (mem (state_of two_blocks)) q
                        <= p - sizeof_alloc_struct_begin
                        \/ p + 100 <= hdr_ptr (mem (state_of two_blocks)) q)
         (held_of two_blocks).
Proof.
  destruct two_blocks_alloc as (p & st' & E & Hp).
  exists p, st'. split; [exact E|].
  apply (heap_alloc_fresh_block (state_of two_blocks) (held_of two_blocks) 100 0 p st'
           two_blocks_inv (small_request_fits 100 0 ltac:(lia) ltac:(lia)) E).
  rewrite Hp. discriminate.
Defined.

Lemma heap_alloc_span_size_witness :
  exists p st',
    heap_alloc (state_of two_blocks) 100 0 = Some (p, st')
    /\ normalized_size 100 0 <= hdr_size (mem st') p
    /\ hdr_size (mem st') p <= normalized_size 100 0 + sizeof_free_heap_chunk
    /\ hdr_size (mem st') p mod sizeof_ptr = 0
    /\ total (chunks st') = total (chunks (state_of two_blocks)) - hdr_size (mem st') p.
Proof.
  destruct two_blocks_alloc as (p & st' & E & Hp).
  exists p, st'. split; [exact E|].
  apply (heap_alloc_span_size (state_of two_blocks) (held_of two_blocks) 100 0 p st'
           two_blocks_inv (small_request_fits 100 0 ltac:(lia) ltac:(lia)) E).
  rewrite Hp. discriminate.
Defined.

Lemma heap_alloc_lowest_fit_witness :
  exists p st',
    heap_alloc (state_of two_blocks) 100 0 = Some (p, st')
    /\ In (hdr_ptr (mem st') p) (flist (state_of two_blocks))
    /\ normalized_size 100 0 <= chunk_len (mem (state_of two_blocks)) (hdr_ptr (mem st') p)
    /\ forall c, In c (flist (state_of two_blocks)) -> c < hdr_ptr (mem st') p ->
         chunk_len (mem (state_of two_blocks)) c < normalized_size 100 0.
Proof.
  destruct two_blocks_alloc as (p & st' & E & Hp).
  exists p, st'. split; [exact E|].
  apply (heap_alloc_lowest_fit (state_of two_blocks) (held_of two_blocks) 100 0 p st'
           two_blocks_inv (small_request_fits 100 0 ltac:(lia) ltac:(lia)) E).
  rewrite Hp. discriminate.
Defined.

Lemma heap_alloc_word_aligned_witness :
  exists p st',
    heap_alloc (state_of two_blocks) 100 0 = Some (p, st')
    /\ p mod sizeof_ptr = 0
    /\ (0 = 0 -> p = hdr_ptr (mem st') p + sizeof_alloc_struct_begin).
Proof.
  destruct two_blocks_alloc as (p & st' & E & Hp).
  exists p, st'. split; [exact E|].
  apply (heap_alloc_word_aligned (state_of two_blocks) (held_of two_blocks) 100 0 p st'
           two_blocks_inv (small_request_fits 100 0 ltac:(lia) ltac:(lia)) E).
  rewrite Hp. discriminate.
Defined.

Lemma heap_alloc_keeps_blocks_witness :
  exists p st',
    heap_alloc (state_of two_blocks) 100 0 = Some (p, st')
    /\ Forall (fun q => block_untouched (mem (state_of two_blocks)) (mem st') q
                        /\ span_of (mem st') q = span_of (mem (state_of two_blocks)) q)
         (held_of two_blocks).
Proof.
  destruct two_blocks_alloc as (p & st' & E & Hp).
  exists p, st'. split; [exact E|].
  apply (heap_alloc_keeps_blocks (state_of two_blocks) (held_of two_blocks) 100 0 p st'
           two_blocks_inv (small_request_fits 100 0 ltac:(lia) ltac:(lia)) E).
Defined.

Lemma heap_free_keeps_blocks_witness :
  exists st',
    heap_free (state_of two_blocks) 0x100014 = Some st'
    /\ forall q, In q (held_of two_blocks) -> q <> 0x100014 ->
         block_untouched (mem (state_of two_blocks)) (mem st') q
         /\ span_of (mem st') q = span_of (mem (state_of two_blocks)) q.
Proof.
  apply (heap_free_keeps_blocks (state_of two_blocks) (held_of two_blocks) 0x100014
           two_blocks_inv).
  rewrite two_blocks_held. left. reflexivity.
Defined.

Lemma alloc_free_restores_witness :
  exists p st1 st2,
    heap_alloc (state_of two_blocks) 100 0 = Some (p, st1)
    /\ heap_free st1 p = Some st2
    /\ chunks st2 = chunks (state_of two_blocks)
    /\ heap_inv st2 (held_of two_blocks).
Proof.
  destruct two_blocks_alloc as (p & st1 & E & Hp).
  destruct (alloc_free_restores (state_of two_blocks) (held_of two_blocks) 100 0 p st1
              two_blocks_inv (small_request_fits 100 0 ltac:(lia) ltac:(lia)) E)
    as (st2 & Hfree & Hch & Hinv).
  - rewrite Hp. discriminate.
  - exists p, st1, st2. auto.
Defined.

Lemma heap_free_commutes_witness :
  exists s1 s2 t1 t2,
    heap_free (state_of two_blocks) 0x100014 = Some s1
    /\ heap_free s1 0x100030 = Some s2
    /\ heap_free (state_of two_blocks) 0x100030 = Some t1
    /\ heap_free t1 0x100014 = Some t2
    /\ chunks s2 = chunks t2.
Proof.
  apply (heap_free_commutes (state_of two_blocks) (held_of two_blocks) 0x100014 0x100030
           two_blocks_inv).
  - rewrite two_blocks_held. left. reflexivity.
  - rewrite two_blocks_held. right. left. reflexivity.
  - discriminate.
Defined.

Lemma free_all_restores_witness :
  exists st live st',
    run_from 0x100008 0x101008 zero_memory [op_alloc 8 0; op_alloc 32 16]
    = Some (st, live)
    /\ run st live (repeat (op_free 0) (length live)) = Some (st', [])
    /\ chunks st' = [(0x100008, 0x101008 - 0x100008)].
Proof.
  apply (free_all_restores 0x100008 0x101008 zero_memory [op_alloc 8 0; op_alloc 32 16]).
  - unfold symbols_ok. rewrite modulus_eq. vm_compute. intuition discriminate.
  - constructor; [right; apply small_request_fits; lia|].
    constructor; [right; apply small_request_fits; lia|constructor].
Defined.

Lemma heap_test_passes_witness :
  exists st',
    heap_test (fun _ => 12345) (repeat 0 16) fresh_heap = Some st'
    /\ chunks st' = chunks fresh_heap /\ heap_inv st' [].
Proof.
  apply (heap_test_passes (fun _ => 12345) (repeat 0 16) fresh_heap fresh_heap_inv).
  reflexivity.
Defined.

Lemma fitting_null_iff_witness :
  exists p st',
    heap_alloc fresh_heap 5000 16 = Some (p, st')
    /\ (p = 0 <->
        bad_alignment 16 = true
        \/ Forall (fun c => chunk_len (mem fresh_heap) c < normalized_size 5000 16)
             (flist fresh_heap)).
Proof.
  apply (fitting_null_iff fresh_heap [] 5000 16 fresh_heap_inv).
  apply small_request_fits; lia.
Defined.

Lemma fitting_ptr_in_span_witness :
  exists p st',
    heap_alloc (state_of two_blocks) 100 0 = Some (p, st')
    /\ hdr_ptr (mem st') p + sizeof_alloc_struct_begin <= p
    /\ p + 100 <= hdr_ptr (mem st') p + hdr_size (mem st') p.
Proof.
  destruct two_blocks_alloc as (p & st' & E & Hp).
  exists p, st'. split; [exact E|].
  apply (fitting_ptr_in_span (state_of two_blocks) (held_of two_blocks) 100 0 p st'
           two_blocks_inv (small_request_fits 100 0 ltac:(lia) ltac:(lia)) E).
  rewrite Hp. discriminate.
Defined.

Lemma fitting_null_unchanged_witness :
  exists st', heap_alloc fresh_heap 5000 16 = Some (0, st') /\ st' = fresh_heap.
Proof.
  destruct (heap_alloc fresh_heap 5000 16) as [[p st']|] eqn:E.
  - assert (H : option_map fst (heap_alloc fresh_heap 5000 16) = Some 0)
      by (vm_compute; reflexivity).
    rewrite E in H. cbn in H. injection H as ->.
    exists st'. split; [reflexivity|].
    apply (fitting_null_unchanged fresh_heap [] 5000 16 st' fresh_heap_inv
             (small_request_fits 5000 16 ltac:(lia) ltac:(lia)) E).
  - vm_compute in E. discriminate.
Defined.

Lemma normalize_exact_iff_witness :
  (fst (normalize 100 16) = exact_size 100 16 <-> exact_size 100 16 < modulus)
  /\ (exact_size 100 0 < modulus <-> 100 <= 0xFFFFFFF0).
Proof.
  apply (normalize_exact_iff 100 16); unfold in_range; rewrite modulus_eq; lia.
Defined.
